(** * A shallow embedding of the distributed cache core

    The development follows the layout of the Python sources:

    - [src/implementations/lru_policy.py], [src/implementations/lfu_policy.py]
      (module [Policy]),
    - [src/implementations/write_through_writer.py] and
      [src/implementations/safe_write_back_writer.py] (module [Writer]),
    - [src/utils/request_coalescer.py] (module [Coalescer]),
    - [src/cache.py] (module [Node]),
    - [src/distribution/consistent_hashing.py] (module [Ring]),
    - [src/distributed_cache.py] (module [Router]).

    Python dictionaries are finite maps ([gmap]); an [OrderedDict] used as an
    ordered set and a Python list are lists; Python integers are [Z].  A call
    that can raise returns a [result] next to the state it leaves behind, so
    that what an exception interrupts stays visible. *)

From stdpp Require Import gmap strings list fin_maps sorting pretty.

Open Scope Z_scope.

(** ** Outcomes of a Python call *)

Inductive exn : Type :=
| KeyError
| IndexError
| ValueError
| StoreError (msg : string).

Inductive result (A : Type) : Type :=
| Return (a : A)
| Raise (e : exn).

Arguments Return {A} a.
Arguments Raise {A} e.

#[global] Instance exn_eq_dec : EqDecision exn.
Proof. solve_decision. Defined.

#[global] Instance result_eq_dec {A} `{EqDecision A} : EqDecision (result A).
Proof. solve_decision. Defined.

(** [list.remove(x)]: drops the first occurrence of [x].  Where [x] does not
    occur Python raises [ValueError] and this function returns the list as it
    is; a call site that can get there tests the membership first. *)
Fixpoint py_remove {A} `{EqDecision A} (x : A) (l : list A) : list A :=
  match l with
  | [] => []
  | y :: l' => if decide (x = y) then l' else y :: py_remove x l'
  end.

(** * Eviction policies *)

Module Policy.

(** The capability contract of [src/interfaces/eviction_policy.py]. *)
Class EvictionPolicy (K P : Type) : Type := {
  on_access : K → P → result unit * P;
  evict : P → result (option K) * P
}.

(** The keys a policy holds: its view of the resident set. *)
Class Resident (K P : Type) `{Countable K} : Type :=
  resident : P → gset K.

Section policies.
Context {K : Type} `{Countable K}.

(** ** LRU ([lru_policy.py]) *)

Record LRUPolicy : Type := { order : list K }.

Definition lru_init : LRUPolicy := {| order := [] |}.

(** [if key in self.order: self.order.remove(key)] then
    [self.order.append(key)]. *)
Definition lru_on_access (key : K) (p : LRUPolicy) : LRUPolicy :=
  {| order := (if decide (key ∈ order p) then py_remove key (order p)
               else order p) ++ [key] |}.

(** [return self.order.pop(0) if self.order else None]. *)
Definition lru_evict (p : LRUPolicy) : option K * LRUPolicy :=
  match order p with
  | [] => (None, p)
  | victim :: rest => (Some victim, {| order := rest |})
  end.

(** ** LFU ([lfu_policy.py]) *)

Record LFUPolicy : Type := {
  key_freq : gmap K Z;
  freq_keys : gmap Z (list K);
  min_freq : Z
}.

Definition lfu_init : LFUPolicy :=
  {| key_freq := ∅; freq_keys := ∅; min_freq := 0 |}.

(** [self.freq_keys[f]] on the [defaultdict]: the bucket read, an empty
    [OrderedDict] when [f] has none (the read then also stores it). *)
Definition bucket (fk : gmap Z (list K)) (f : Z) : list K :=
  default [] (fk !! f).

(** [d[key] = None] on an [OrderedDict]: a new key goes to the end, a present
    key keeps its place. *)
Definition od_set (key : K) (d : list K) : list K :=
  if decide (key ∈ d) then d else d ++ [key].

(** The tail of [on_access]: [self.key_freq[key] = new_freq] and
    [self.freq_keys[new_freq][key] = None]. *)
Definition lfu_record (key : K) (new_freq : Z)
    (kf : gmap K Z) (fk : gmap Z (list K)) (mf : Z) : LFUPolicy :=
  {| key_freq := <[key := new_freq]> kf;
     freq_keys := <[new_freq := od_set key (bucket fk new_freq)]> fk;
     min_freq := mf |}.

Definition lfu_on_access (key : K) (p : LFUPolicy) : result unit * LFUPolicy :=
  match key_freq p !! key with
  | Some old_freq =>
      let b := bucket (freq_keys p) old_freq in
      if decide (key ∈ b) then
        (* del self.freq_keys[old_freq][key] *)
        let b' := py_remove key b in
        match b' with
        | [] =>
            (* del self.freq_keys[old_freq]; min_freq moves up when it was
               this bucket *)
            let mf := if decide (min_freq p = old_freq)
                      then min_freq p + 1 else min_freq p in
            (Return (), lfu_record key (old_freq + 1) (key_freq p)
                          (delete old_freq (freq_keys p)) mf)
        | _ :: _ =>
            (Return (), lfu_record key (old_freq + 1) (key_freq p)
                          (<[old_freq := b']> (freq_keys p)) (min_freq p))
        end
      else
        (* the [del] raises; the defaultdict has stored the bucket it read *)
        (Raise KeyError,
         {| key_freq := key_freq p;
            freq_keys := <[old_freq := b]> (freq_keys p);
            min_freq := min_freq p |})
  | None =>
      (Return (), lfu_record key 1 (key_freq p) (freq_keys p) 1)
  end.

Definition lfu_evict (p : LFUPolicy) : result (option K) * LFUPolicy :=
  if decide (key_freq p = ∅) then (Return None, p)
  else
    match bucket (freq_keys p) (min_freq p) with
    | [] =>
        (* popitem on an empty OrderedDict *)
        (Raise KeyError,
         {| key_freq := key_freq p;
            freq_keys := <[min_freq p := []]> (freq_keys p);
            min_freq := min_freq p |})
    | victim_key :: rest =>
        let fk := match rest with
                  | [] => delete (min_freq p) (freq_keys p)
                  | _ :: _ => <[min_freq p := rest]> (freq_keys p)
                  end in
        match key_freq p !! victim_key with
        | Some _ =>
            (Return (Some victim_key),
             {| key_freq := delete victim_key (key_freq p);
                freq_keys := fk; min_freq := min_freq p |})
        | None =>
            (* del self.key_freq[victim_key] *)
            (Raise KeyError,
             {| key_freq := key_freq p; freq_keys := fk;
                min_freq := min_freq p |})
        end
    end.

#[export] Instance lru_policy : EvictionPolicy K LRUPolicy := {|
  on_access key p := (Return (), lru_on_access key p);
  evict p := let '(v, p') := lru_evict p in (Return v, p')
|}.

#[export] Instance lfu_policy : EvictionPolicy K LFUPolicy := {|
  on_access := lfu_on_access;
  evict := lfu_evict
|}.

#[export] Instance lru_resident : Resident K LRUPolicy :=
  λ p, list_to_set (order p).

#[export] Instance lfu_resident : Resident K LFUPolicy :=
  λ p, dom (key_freq p).

(** ** Driving a policy *)

Inductive call : Type :=
| OnAccess (key : K)
| Evict.

Definition exec `{EvictionPolicy K P} (c : call) (p : P) : P :=
  match c with
  | OnAccess key => snd (on_access key p)
  | Evict => snd (evict p)
  end.

(** The state after a list of calls, first call first (an exception leaves
    the state it interrupted, and the driver goes on). *)
Definition run `{EvictionPolicy K P} (cs : list call) (p : P) : P :=
  foldl (λ p c, exec c p) p cs.

Definition lru_reachable (p : LRUPolicy) : Prop :=
  ∃ cs, p = run cs lru_init.

Definition lfu_reachable (p : LFUPolicy) : Prop :=
  ∃ cs, p = run cs lfu_init.

(** ** What the LFU bookkeeping is meant to satisfy *)



(** The LFU invariant as a property of one state: when some key is tracked,
    [min_freq] is the least frequency in use and no bucket is empty. *)
Definition buckets_nonempty (p : LFUPolicy) : Prop :=
  ∀ f b, freq_keys p !! f = Some b → b ≠ [].


(** Every tracked key sits in the bucket of its frequency. *)
Definition lfu_filed (p : LFUPolicy) : Prop :=
  ∀ k f, key_freq p !! k = Some f → k ∈ bucket (freq_keys p) f.

(** The way [RobustCache] drives its policy: [on_access] on its own (a hit,
    or an insert with room left), or [evict] directly followed by
    [on_access] of the key being inserted, which is not resident. *)
Inductive lfu_driven : LFUPolicy → Prop :=
| driven_init : lfu_driven lfu_init
| driven_access key p :
    lfu_driven p → lfu_driven (snd (lfu_on_access key p))
| driven_replace key p :
    lfu_driven p → key_freq p !! key = None →
    lfu_driven (snd (lfu_on_access key (snd (lfu_evict p)))).

(** Agreement of the two LFU maps. *)
Record lfu_wf (p : LFUPolicy) : Prop := {
  wf_bij : ∀ k f, key_freq p !! k = Some f ↔ k ∈ bucket (freq_keys p) f;
  wf_nodup : ∀ f, NoDup (bucket (freq_keys p) f);
  wf_nonempty : buckets_nonempty p;
  wf_pos : ∀ k f, key_freq p !! k = Some f → 1 ≤ f
}.

Definition is_min (m : Z) (kf : gmap K Z) : Prop :=
  (∃ k, kf !! k = Some m) ∧ ∀ k f, kf !! k = Some f → m ≤ f.

Definition lfu_min_ok (p : LFUPolicy) : Prop :=
  key_freq p ≠ ∅ → is_min (min_freq p) (key_freq p).

End policies.

Arguments LRUPolicy K : clear implicits.
Arguments LFUPolicy K {_ _}.
Arguments call K : clear implicits.

End Policy.

Module PolicyExamples.
Import Policy.

(** The LFU state after [on_access(a)], [on_access(b)], [on_access(b)],
    [evict()]. *)
Definition lfu_after_evict : LFUPolicy string :=
  run [OnAccess "a"; OnAccess "b"; OnAccess "b"; Evict]%string lfu_init.

(** The LFU state after [on_access(a)], [on_access(b)], [on_access(b)]. *)
Definition lfu_a_b_b : LFUPolicy string :=
  run [OnAccess "a"; OnAccess "b"; OnAccess "b"]%string lfu_init.

End PolicyExamples.

(** * What a node needs from its policy *)

Module Contract.
Import Policy.

(** A policy is in one of two conditions: [at_rest] between two operations
    of the node, [after_evict] between the [evict] and the [on_access] of
    one insert. *)
Class PolicyLaws (K P : Type) `{Countable K}
    `{!EvictionPolicy K P} `{!Resident K P} : Type := {
  at_rest : P → Prop;
  after_evict : P → Prop;
  on_access_at_rest k p :
    at_rest p →
    ∃ p', on_access k p = (Return (), p') ∧ at_rest p' ∧
          resident p' = {[k]} ∪ resident p;
  on_access_after_evict k p :
    after_evict p → k ∉ resident p →
    ∃ p', on_access k p = (Return (), p') ∧ at_rest p' ∧
          resident p' = {[k]} ∪ resident p;
  evict_at_rest p :
    at_rest p → resident p ≠ ∅ →
    ∃ v p', evict p = (Return (Some v), p') ∧ after_evict p' ∧
            v ∈ resident p ∧ resident p' = resident p ∖ {[v]}
}.

End Contract.

(** * The database collaborator *)

Module Store.

(** Anything with a [get] and a [set]; either call may raise and may change
    what the database holds. *)
Class Database (DB : Type) : Type := {
  db_get : DB → string → result (option string) * DB;
  db_set : DB → string → string → result unit * DB
}.

(** [MockDB] of [main.py]: a dictionary behind a lock. *)
Definition MockDB : Type := gmap string string.

#[export] Instance mock_db : Database MockDB := {|
  db_get data key := (Return (data !! key), data);
  db_set data key value := (Return (), <[key := value]> data)
|}.

(** A database that only records the [set] calls it receives, in order. *)
Definition CallLog : Type := list (string * string).

#[export] Instance call_log : Database CallLog := {|
  db_get log key := (Return None, log);
  db_set log key value := (Return (), log ++ [(key, value)])
|}.

(** A test double: a [MockDB] with a script of faults that counts the
    [get] calls it receives.  Each call takes the next entry of the script;
    [Some e] makes that call raise [e] and leaves the data alone, [None] (or
    an exhausted script) lets it through. *)
Record ScriptedDB : Type := {
  data : gmap string string;
  script : list (option exn);
  gets : nat
}.

Definition scripted {A} (d : ScriptedDB) (count : nat)
    (call : gmap string string → A * gmap string string) :
    result A * ScriptedDB :=
  match script d with
  | Some e :: rest =>
      (Raise e, {| data := data d; script := rest; gets := gets d + count |})
  | None :: rest =>
      let '(a, data') := call (data d) in
      (Return a, {| data := data'; script := rest; gets := gets d + count |})
  | [] =>
      let '(a, data') := call (data d) in
      (Return a, {| data := data'; script := []; gets := gets d + count |})
  end%nat.

#[export] Instance scripted_db : Database ScriptedDB := {|
  db_get d key := scripted d 1 (λ m, (m !! key, m));
  db_set d key value := scripted d 0 (λ m, ((), <[key := value]> m))
|}.

End Store.

(** * Writers *)

Module Writer.
Import Store.

(** What travels on the write-back queue: an order [(key, value)] or the
    shutdown sentinel. *)
Inductive item : Type :=
| Order (key value : string)
| STOP_SIGNAL.

(** [SafeWriteBackWriter]: its queue and whether its worker thread is still
    running ([__init__] starts it). *)
Record SafeWriteBackWriter : Type := {
  queue : list item;
  worker_alive : bool
}.

Definition wb_init : SafeWriteBackWriter :=
  {| queue := []; worker_alive := true |}.

(** The two provided writers.  [WriteThroughWriter] holds nothing but the
    reference to the database. *)
Inductive CacheWriter : Type :=
| WriteThrough
| WriteBack (w : SafeWriteBackWriter).

Section writers.
Context {DB : Type} `{Database DB}.

(** ** [write_through_writer.py] *)

(** [try: self.db.set(key, value) except Exception as e: ... raise e]. *)
Definition wt_write (key value : string) (d : DB) : result unit * DB :=
  match db_set d key value with
  | (Return _, d') => (Return (), d')
  | (Raise e, d') => (Raise e, d')
  end.

(** [def delete(self, key): pass]. *)
Definition wt_delete (key : string) (d : DB) : result unit * DB :=
  (Return (), d).

(** ** [safe_write_back_writer.py] *)

(** [self.queue.put((key, value))]. *)
Definition wb_write (key value : string) (w : SafeWriteBackWriter) :
    SafeWriteBackWriter :=
  {| queue := queue w ++ [Order key value]; worker_alive := worker_alive w |}.

(** [def delete(self, key): pass]. *)
Definition wb_delete (key : string) (w : SafeWriteBackWriter) (d : DB) :
    result unit * (SafeWriteBackWriter * DB) :=
  (Return (), (w, d)).

(** The writer and the database together; [pending_close] counts the calls
    of [close()] that have sent the sentinel and wait in [join()]. *)
Record wb_state : Type := {
  wb : SafeWriteBackWriter;
  store : DB;
  pending_close : nat
}.

Definition wb_start (d : DB) : wb_state :=
  {| wb := wb_init; store := d; pending_close := 0 |}.

(** The atomic steps of the callers and of the worker. *)
Inductive event : Type :=
| EvWrite (key value : string)
| EvDelete (key : string)
| EvCloseCall
| EvCloseReturn
| EvWorker.

(** One iteration of [_flusher]: [item = self.queue.get()], then either the
    exit on the sentinel or [self.db.set(key, value)], whose exception is
    logged and dropped.  [None] when the worker has exited or blocks on an
    empty queue. *)
Definition _flusher_step (s : wb_state) : option wb_state :=
  if worker_alive (wb s) then
    match queue (wb s) with
    | [] => None
    | STOP_SIGNAL :: rest =>
        Some {| wb := {| queue := rest; worker_alive := false |};
                store := store s; pending_close := pending_close s |}
    | Order key value :: rest =>
        Some {| wb := {| queue := rest; worker_alive := true |};
                store := snd (db_set (store s) key value);
                pending_close := pending_close s |}
    end
  else None.

(** [None] when the step cannot be taken in [s]: [join()] returns only once
    the worker has exited. *)
Definition wb_step (e : event) (s : wb_state) : option wb_state :=
  match e with
  | EvWrite key value =>
      Some {| wb := wb_write key value (wb s); store := store s;
              pending_close := pending_close s |}
  | EvDelete key =>
      let '(_, (w, d)) := wb_delete key (wb s) (store s) in
      Some {| wb := w; store := d; pending_close := pending_close s |}
  | EvCloseCall =>
      Some {| wb := {| queue := queue (wb s) ++ [STOP_SIGNAL];
                       worker_alive := worker_alive (wb s) |};
              store := store s; pending_close := S (pending_close s) |}
  | EvCloseReturn =>
      match pending_close s with
      | O => None
      | S n =>
          if worker_alive (wb s) then None
          else Some {| wb := wb s; store := store s; pending_close := n |}
      end
  | EvWorker => _flusher_step s
  end.

(** An interleaving, first step first. *)
Fixpoint wb_run (tr : list event) (s : wb_state) : option wb_state :=
  match tr with
  | [] => Some s
  | e :: tr' =>
      match wb_step e s with
      | Some s' => wb_run tr' s'
      | None => None
      end
  end.

Definition is_close_call (e : event) : bool :=
  match e with EvCloseCall => true | _ => false end.

Definition has_close (tr : list event) : bool := existsb is_close_call tr.

Definition is_stop (i : item) : bool :=
  match i with STOP_SIGNAL => true | Order _ _ => false end.

Definition has_stop (q : list item) : bool := existsb is_stop q.

(** The orders of the [write] calls in a trace, in call order. *)
Fixpoint writes_of (tr : list event) : list (string * string) :=
  match tr with
  | [] => []
  | EvWrite key value :: tr' => (key, value) :: writes_of tr'
  | _ :: tr' => writes_of tr'
  end.

(** What the database holds after it has been handed [ws] in order. *)
Definition deliver (ws : list (string * string)) (d : DB) : DB :=
  foldl (λ d kv, snd (db_set d kv.1 kv.2)) d ws.

(** The orders queued ahead of the first sentinel. *)
Fixpoint before_stop (q : list item) : list (string * string) :=
  match q with
  | [] => []
  | STOP_SIGNAL :: _ => []
  | Order key value :: q' => (key, value) :: before_stop q'
  end.

(** The writes a trace makes ahead of its first [close()]. *)
Fixpoint accepted (tr : list event) : list (string * string) :=
  match tr with
  | [] => []
  | EvCloseCall :: _ => []
  | EvWrite key value :: tr' => (key, value) :: accepted tr'
  | _ :: tr' => accepted tr'
  end.

(** What a reachable state has to do with the trace that led to it: while
    the worker runs, the database has been handed a prefix of the accepted
    writes and the rest waits ahead of the sentinel; once it has exited, the
    database has been handed all of them. *)
Definition wb_inv (d0 : DB) (tr : list event) (s : wb_state) : Prop :=
  if worker_alive (wb s) then
    (∃ done, store s = deliver done d0 ∧
             done ++ before_stop (queue (wb s)) = accepted tr) ∧
    has_stop (queue (wb s)) = has_close tr
  else
    store s = deliver (accepted tr) d0 ∧ has_close tr = true.

End writers.

Arguments wb_state DB : clear implicits.

End Writer.

Module WriterExamples.
Import Store Writer.

(** Two writes, the first one flushed at once; then [close()], the worker
    drains the queue and meets the sentinel, and [close()] returns. *)
Definition writes_before_close : list event :=
  [EvWrite "a" "1"; EvWorker; EvWrite "b" "2"]%string.

Definition drain : list event := [EvWorker; EvWorker].

End WriterExamples.

(** * Threads *)

Module Sched.

Section sched.
Context {T S : Type} (step : T → S → option (T * S)).

(** Thread [t] takes its next atomic step on the shared state; [None] when
    there is no such thread or it cannot move (blocked or finished). *)
Definition sched_step (t : nat) (cfg : list T * S) : option (list T * S) :=
  match cfg.1 !! t with
  | None => None
  | Some pc =>
      match step pc cfg.2 with
      | None => None
      | Some (pc', s') => Some (<[t := pc']> cfg.1, s')
      end
  end.

(** A schedule names the thread that moves at each step. *)
Fixpoint sched_run (schedule : list nat) (cfg : list T * S) :
    option (list T * S) :=
  match schedule with
  | [] => Some cfg
  | t :: schedule' =>
      match sched_step t cfg with
      | None => None
      | Some cfg' => sched_run schedule' cfg'
      end
  end.

End sched.

End Sched.

(** * The request coalescer ([request_coalescer.py]) *)

Module Coalescer.

(** [events] holds the [threading.Event] objects created so far, each known
    by its index; [true] once [set()] was called on it. *)
Record RequestCoalescer : Type := {
  active_requests : gmap string nat;
  results : gmap string (option string);
  errors : gmap string exn;
  events : list bool
}.

Definition coalescer_init : RequestCoalescer :=
  {| active_requests := ∅; results := ∅; errors := ∅; events := [] |}.

Section do.
Context {W : Type}.

(** The callable handed to [do]: it acts on what lies outside the
    coalescer. *)
Definition thunk : Type := W → result (option string) * W.

(** Where a thread stands inside [do(key, fn)]. *)
Inductive do_pc : Type :=
| AtLock (key : string) (fn : thunk)
| AtWait (key : string) (event : nat)
| AtCheck (key : string)
| AtRead (key : string)
| AtCall (key : string) (event : nat) (fn : thunk)
| AtStore (key : string) (event : nat) (r : result (option string))
| AtSet (key : string) (event : nat) (r : result (option string))
| AtCleanup (key : string) (r : result (option string))
| Finished (r : result (option string)).

Definition do_step (pc : do_pc) (s : RequestCoalescer * W) :
    option (do_pc * (RequestCoalescer * W)) :=
  let c := s.1 in
  let w := s.2 in
  match pc with
  | AtLock key fn =>
      (* with self.lock: if key in self.active_requests ... else ... *)
      match active_requests c !! key with
      | Some event => Some (AtWait key event, s)
      | None =>
          let event := length (events c) in
          Some (AtCall key event fn,
                ({| active_requests := <[key := event]> (active_requests c);
                    results := results c; errors := errors c;
                    events := events c ++ [false] |}, w))
      end
  | AtWait key event =>
      (* event.wait() *)
      match events c !! event with
      | Some true => Some (AtCheck key, s)
      | _ => None
      end
  | AtCheck key =>
      (* if key in self.errors: raise self.errors[key] *)
      match errors c !! key with
      | Some e => Some (Finished (Raise e), s)
      | None => Some (AtRead key, s)
      end
  | AtRead key =>
      (* return self.results.get(key) *)
      Some (Finished (Return (default None (results c !! key))), s)
  | AtCall key event fn =>
      (* result = fn() *)
      let '(r, w') := fn w in Some (AtStore key event r, (c, w'))
  | AtStore key event r =>
      (* self.results[key] = result, or self.errors[key] = e *)
      let c' :=
        match r with
        | Return v =>
            {| active_requests := active_requests c;
               results := <[key := v]> (results c); errors := errors c;
               events := events c |}
        | Raise e =>
            {| active_requests := active_requests c;
               results := results c; errors := <[key := e]> (errors c);
               events := events c |}
        end in
      Some (AtSet key event r, (c', w))
  | AtSet key event r =>
      (* finally: event.set() *)
      Some (AtCleanup key r,
            ({| active_requests := active_requests c;
                results := results c; errors := errors c;
                events := <[event := true]> (events c) |}, w))
  | AtCleanup key r =>
      (* if key in self.active_requests: del self.active_requests[key] *)
      Some (Finished r,
            ({| active_requests := delete key (active_requests c);
                results := results c; errors := errors c;
                events := events c |}, w))
  | Finished _ => None
  end.

(** The thread is past its own call of the thunk and holds the outcome [r]
    of that call. *)
Definition carries (r : result (option string)) (pc : do_pc) : Prop :=
  match pc with
  | AtStore _ _ r' | AtSet _ _ r' | AtCleanup _ r' | Finished r' => r' = r
  | _ => False
  end.

(** A call that runs with no other thread moving: its outcome and the state
    it leaves, [None] when it never returns or [fuel] runs out. *)
Fixpoint run_alone (fuel : nat) (pc : do_pc) (s : RequestCoalescer * W) :
    option (result (option string) * (RequestCoalescer * W)) :=
  match pc with
  | Finished r => Some (r, s)
  | _ =>
      match fuel with
      | O => None
      | S fuel' =>
          match do_step pc s with
          | Some (pc', s') => run_alone fuel' pc' s'
          | None => None
          end
      end
  end.

(** The coalescer once a window for [key] has come and gone with outcome
    [r]: the outcome is filed under [key], one more event exists and is set,
    and no record is left. *)
Definition window_closed (key : string) (r : result (option string))
    (c : RequestCoalescer) : RequestCoalescer :=
  {| active_requests := delete key (active_requests c);
     results := match r with
                | Return v => <[key := v]> (results c)
                | Raise _ => results c
                end;
     errors := match r with
               | Return _ => errors c
               | Raise e => <[key := e]> (errors c)
               end;
     events := events c ++ [true] |}.

(** The leader takes five steps from the lock to its return. *)
Definition do (key : string) (fn : thunk) (s : RequestCoalescer * W) :
    option (result (option string) * (RequestCoalescer * W)) :=
  run_alone 5 (AtLock key fn) s.

(** The thread is the leader of a window for [key]: it has installed the
    record and not yet removed it. *)
Definition leads (key : string) (pc : do_pc) : Prop :=
  match pc with
  | AtCall k _ _ | AtStore k _ _ | AtSet k _ _ | AtCleanup k _ => k = key
  | _ => False
  end.

(** The leader of the window of [key] with event [event] is still on its
    way to [event.set()]. *)
Definition before_set (key : string) (event : nat) (pc : do_pc) : Prop :=
  match pc with
  | AtCall k e _ | AtStore k e _ | AtSet k e _ => k = key ∧ e = event
  | _ => False
  end.

(** All threads are about to call [do]. *)
Definition at_entry (ts : list do_pc) : Prop :=
  ∀ t pc, ts !! t = Some pc → ∃ key fn, pc = AtLock key fn.

(** What holds of the threads and the coalescer at every moment. *)
Record coalescer_inv (ts : list do_pc) (c : RequestCoalescer) : Prop := {
  inv_leader_record : ∀ t pc key event,
    ts !! t = Some pc → before_set key event pc →
    active_requests c !! key = Some event;
  inv_cleanup_record : ∀ t key r,
    ts !! t = Some (AtCleanup key r) →
    ∃ event, active_requests c !! key = Some event ∧
             events c !! event = Some true;
  inv_one_leader : ∀ t1 t2 pc1 pc2 key,
    ts !! t1 = Some pc1 → ts !! t2 = Some pc2 →
    leads key pc1 → leads key pc2 → t1 = t2;
  inv_record_leader : ∀ key event,
    active_requests c !! key = Some event →
    ∃ t pc, ts !! t = Some pc ∧ leads key pc;
  inv_waiter : ∀ t key event,
    ts !! t = Some (AtWait key event) →
    events c !! event = Some true ∨
    ∃ t' pc, ts !! t' = Some pc ∧ before_set key event pc;
  inv_event_bound : ∀ key event,
    active_requests c !! key = Some event → (event < length (events c))%nat
}.

End do.

Arguments thunk W : clear implicits.
Arguments do_pc W : clear implicits.

End Coalescer.

Module CoalescerExamples.
Import Coalescer.

(** Two thunks over a world that holds nothing. *)
Definition failing : thunk () := λ w, (Raise (StoreError "down"), w).

Definition loading : thunk () := λ w, (Return (Some "v2"%string), w).

(** Three calls of [do("x", ...)]. *)
Definition three_calls : list (do_pc ()) :=
  [AtLock "x" failing; AtLock "x" loading; AtLock "x" loading].

(** Thread 0 runs its call to the end; its thunk raises. *)
Definition first_window : list nat := [0; 0; 0; 0; 0]%nat.

(** Then thread 1 takes the lock and leads, thread 2 arrives and waits,
    thread 1 runs its thunk and finishes, thread 2 wakes up. *)
Definition second_window : list nat := [1; 2; 1; 1; 1; 1; 2; 2]%nat.

(** The threads and the coalescer once thread 0 has run its call to the
    end. *)
Definition first_window_done : list (do_pc ()) :=
  [Finished (Raise (StoreError "down")); AtLock "x" loading; AtLock "x" loading].

Definition after_first_window : RequestCoalescer :=
  {| active_requests := ∅; results := ∅;
     errors := {[ "x"%string := StoreError "down" ]}; events := [true] |}.

End CoalescerExamples.

(** * The cache node ([cache.py]) *)

Module Node.
Import Policy Store Writer Coalescer.

(** [bool(s)] of a [str]: only the empty string is falsy. *)
Definition truthy (s : string) : bool := negb (String.eqb s "").

Section node.
Context {P DB : Type} `{EvictionPolicy string P} `{Database DB}.

(** The fields of [RobustCache] other than the coalescer.  [loader] says
    whether a [DatabaseLoader] is configured; it and the writer reach the
    same database object, as in [main.py].  The lock is taken for whole
    steps below and has no state of its own here. *)
Record RobustCache : Type := {
  capacity : Z;
  storage : gmap string string;
  eviction : P;
  loader : bool;
  writer : option CacheWriter;
  database : DB
}.

Definition set_storage (m : gmap string string) (n : RobustCache) :=
  {| capacity := capacity n; storage := m; eviction := eviction n;
     loader := loader n; writer := writer n; database := database n |}.

Definition set_eviction (p : P) (n : RobustCache) :=
  {| capacity := capacity n; storage := storage n; eviction := p;
     loader := loader n; writer := writer n; database := database n |}.

Definition set_writer (w : option CacheWriter) (n : RobustCache) :=
  {| capacity := capacity n; storage := storage n; eviction := eviction n;
     loader := loader n; writer := w; database := database n |}.

Definition set_database (d : DB) (n : RobustCache) :=
  {| capacity := capacity n; storage := storage n; eviction := eviction n;
     loader := loader n; writer := writer n; database := d |}.

(** [RobustCache(capacity, eviction_policy, loader, writer)]. *)
Definition new_cache (cap : Z) (p : P) (ld : bool) (wr : option CacheWriter)
    (d : DB) : RobustCache :=
  {| capacity := cap; storage := ∅; eviction := p; loader := ld;
     writer := wr; database := d |}.

(** The first statement of [_put_internal]:
    [if key not in self.storage and len(self.storage) >= self.capacity:
       victim = self.eviction.evict()
       if victim: del self.storage[victim]]. *)
Definition make_room (key : string) (n : RobustCache) :
    result unit * RobustCache :=
  if decide (storage n !! key = None ∧ capacity n ≤ Z.of_nat (size (storage n))) then
    match evict (eviction n) with
    | (Raise e, p') => (Raise e, set_eviction p' n)
    | (Return None, p') => (Return (), set_eviction p' n)
    | (Return (Some victim), p') =>
        if truthy victim then
          match storage n !! victim with
          | Some _ =>
              (Return (), set_storage (delete victim (storage n))
                            (set_eviction p' n))
          | None => (Raise KeyError, set_eviction p' n)
          end
        else (Return (), set_eviction p' n)
    end
  else (Return (), n).

Definition _put_internal (key value : string) (n : RobustCache) :
    result unit * RobustCache :=
  match make_room key n with
  | (Raise e, n1) => (Raise e, n1)
  | (Return _, n1) =>
      (* self.storage[key] = value; self.eviction.on_access(key) *)
      let n2 := set_storage (<[key := value]> (storage n1)) n1 in
      let '(r, p') := on_access key (eviction n2) in
      (r, set_eviction p' n2)
  end.

(** [self.writer.write(key, value)] on either writer. *)
Definition writer_write (key value : string) (wr : CacheWriter) (d : DB) :
    result unit * (CacheWriter * DB) :=
  match wr with
  | WriteThrough =>
      let '(r, d') := wt_write key value d in (r, (WriteThrough, d'))
  | WriteBack w => (Return (), (WriteBack (wb_write key value w), d))
  end.

Definition put (key value : string) (n : RobustCache) :
    result unit * RobustCache :=
  match writer n with
  | Some wr =>
      match writer_write key value wr (database n) with
      | (Raise e, (wr', d')) =>
          (Raise e, set_database d' (set_writer (Some wr') n))
      | (Return _, (wr', d')) =>
          _put_internal key value (set_database d' (set_writer (Some wr') n))
      end
  | None => _put_internal key value n
  end.

(** [_load_from_source], with [DatabaseLoader.load] and
    [_put_internal_thread_safe] in place. *)
Definition _load_from_source (key : string) : thunk RobustCache := λ n,
  match db_get (database n) key with
  | (Raise e, d') => (Raise e, set_database d' n)
  | (Return None, d') => (Return None, set_database d' n)
  | (Return (Some value), d') =>
      match _put_internal key value (set_database d' n) with
      | (Raise e, n') => (Raise e, n')
      | (Return _, n') => (Return (Some value), n')
      end
  end.

(** The coalescer next to the other fields. *)
Definition node : Type := RequestCoalescer * RobustCache.

(** The locked first part of [get]: a hit touches the policy and returns
    the stored value; a miss returns nothing here. *)
Definition get_hit (key : string) (n : RobustCache) :
    option (result (option string) * RobustCache) :=
  match storage n !! key with
  | Some value =>
      match on_access key (eviction n) with
      | (Raise e, p') => Some (Raise e, set_eviction p' n)
      | (Return _, p') => Some (Return (Some value), set_eviction p' n)
      end
  | None => None
  end.

(** [get] with no other thread moving. *)
Definition get (key : string) (s : node) :
    option (result (option string) * node) :=
  match get_hit key s.2 with
  | Some (r, n') => Some (r, (s.1, n'))
  | None =>
      if loader s.2 then do key (_load_from_source key) s
      else Some (Return None, s)
  end.

(** [get] as a thread: the locked check, then the call into the
    coalescer. *)
Inductive get_pc : Type :=
| AtGet (key : string)
| InDo (pc : do_pc RobustCache).

Definition get_step (pc : get_pc) (s : node) : option (get_pc * node) :=
  match pc with
  | AtGet key =>
      match get_hit key s.2 with
      | Some (r, n') => Some (InDo (Finished r), (s.1, n'))
      | None =>
          if loader s.2 then Some (InDo (AtLock key (_load_from_source key)), s)
          else Some (InDo (Finished (Return None)), s)
      end
  | InDo pc =>
      match do_step pc s with
      | Some (pc', s') => Some (InDo pc', s')
      | None => None
      end
  end.

(** ** Sequences of operations on one node *)

Inductive op : Type :=
| Get (key : string)
| Put (key value : string).

Definition op_key (o : op) : string :=
  match o with Get key => key | Put key _ => key end.

(** The node after one operation, whatever it returned or raised ([None]
    when a [get] does not return). *)
Definition apply_op (o : op) (s : node) : option node :=
  match o with
  | Get key => snd <$> get key s
  | Put key value => Some (s.1, snd (put key value s.2))
  end.

Fixpoint run_ops (ops : list op) (s : node) : option node :=
  match ops with
  | [] => Some s
  | o :: ops' =>
      match apply_op o s with
      | Some s' => run_ops ops' s'
      | None => None
      end
  end.

(** The two node invariants, as properties of one state. *)
Definition within_capacity (n : RobustCache) : Prop :=
  Z.of_nat (size (storage n)) ≤ capacity n.

Definition policy_agrees `{!Resident string P} (n : RobustCache) : Prop :=
  dom (storage n) = resident (eviction n).

(** Fields that [_put_internal] leaves alone. *)
Definition same_frame (n n' : RobustCache) : Prop :=
  capacity n' = capacity n ∧ loader n' = loader n ∧
  writer n' = writer n ∧ database n' = database n.

(** A node between two operations, all of whose keys are truthy. *)
Definition node_ok `{!Resident string P} `{!Contract.PolicyLaws string P}
    (n : RobustCache) : Prop :=
  Contract.at_rest (eviction n) ∧ policy_agrees n ∧ within_capacity n ∧
  1 ≤ capacity n ∧ ""%string ∉ dom (storage n).

End node.

Arguments RobustCache P DB : clear implicits.
Arguments node P DB : clear implicits.
Arguments get_pc P DB : clear implicits.

End Node.

Module NodeExamples.
Import Policy Store Writer Coalescer Node.

(** A node of capacity 1 with the LRU policy, no loader and no writer. *)
Definition tiny_lru : node (LRUPolicy string) MockDB :=
  (coalescer_init, new_cache 1 lru_init false None ∅).

(** [put("", "v1")] then [put("a", "v2")]. *)
Definition empty_key_then_a : list op :=
  [Put "" "v1"; Put "a" "v2"]%string.

(** Scenario S1 of the specification: LRU, capacity 3. *)
Definition lru_3 : node (LRUPolicy string) MockDB :=
  (coalescer_init, new_cache 3 lru_init false None ∅).

Definition s1_ops : list op :=
  [Put "a" "1"; Put "b" "2"; Put "c" "3"; Get "a"; Put "d" "4"]%string.

(** Scenario S2: LFU, capacity 3, in its two stages. *)
Definition lfu_3 : node (LFUPolicy string) MockDB :=
  (coalescer_init, new_cache 3 lfu_init false None ∅).

Definition s2_ops : list op :=
  [Put "a" "1"; Put "b" "2"; Put "c" "3"; Get "a"; Get "a"; Get "b";
   Put "d" "4"]%string.

Definition s2_more_ops : list op :=
  [Get "d"; Get "b"; Put "e" "5"]%string.

(** A write-through node whose database refuses the next call. *)
Definition refusing_db : ScriptedDB :=
  {| data := {[ "k" := "old" ]}%string;
     script := [Some (StoreError "unreachable")];
     gets := 0 |}.

Definition write_through_node : RobustCache (LRUPolicy string) ScriptedDB :=
  set_storage {[ "k" := "old" ]}%string
    (set_eviction {| order := ["k"%string] |}
       (new_cache 2 lru_init true (Some WriteThrough) refusing_db)).

(** A node whose database is down for the first call and holds
    [x ↦ v]. *)
Definition recovering_db : ScriptedDB :=
  {| data := {[ "x" := "v" ]}%string;
     script := [Some (StoreError "down")];
     gets := 0 |}.

Definition loading_node : node (LRUPolicy string) ScriptedDB :=
  (coalescer_init, new_cache 2 lru_init true None recovering_db).

Definition three_gets : list (get_pc (LRUPolicy string) ScriptedDB) :=
  [AtGet "x"; AtGet "x"; AtGet "x"]%string.

(** Thread 0 runs [get("x")] to the end; the load fails. *)
Definition failed_get : list nat := [0; 0; 0; 0; 0; 0]%nat.

(** Threads 1 and 2 both miss; 1 leads the load, 2 waits for it. *)
Definition concurrent_gets : list nat := [1; 2; 1; 2; 1; 1; 1; 1; 2; 2]%nat.

(** An LRU node of capacity 1 that holds [a]. *)
Definition full_lru : RobustCache (LRUPolicy string) MockDB :=
  snd (put "a" "1" tiny_lru.2).

(** A node with a loader over a database that holds [x ↦ v]. *)
Definition reading_node : RobustCache (LRUPolicy string) MockDB :=
  new_cache 2 lru_init true None {[ "x" := "v" ]}%string.

(** Nodes with each of the writers, over an empty database. *)
Definition write_back_node : RobustCache (LRUPolicy string) MockDB :=
  new_cache 2 lru_init false (Some (WriteBack wb_init)) ∅.

Definition writing_node : RobustCache (LRUPolicy string) MockDB :=
  new_cache 2 lru_init false (Some WriteThrough) ∅.

End NodeExamples.

(** * The hash ring ([consistent_hashing.py]) *)

Module Ring.

(** [bisect.bisect] (that is, [bisect_right]) of the Python library:
    [while lo < hi: mid = (lo + hi) // 2;
       if x < a[mid]: hi = mid else: lo = mid + 1].
    The distance [hi - lo] shrinks at every turn, so [length a] turns are
    enough. *)
Fixpoint bisect_loop (fuel : nat) (a : list Z) (x : Z) (lo hi : nat) : nat :=
  match fuel with
  | O => lo
  | S fuel' =>
      if decide (lo < hi)%nat then
        let mid := ((lo + hi) `div` 2)%nat in
        match a !! mid with
        | Some a_mid =>
            if decide (x < a_mid) then bisect_loop fuel' a x lo mid
            else bisect_loop fuel' a x (mid + 1)%nat hi
        | None => lo
        end
      else lo
  end.

Definition bisect (a : list Z) (x : Z) : nat :=
  bisect_loop (length a) a x 0 (length a).

(** What the loop keeps true of [lo] and [hi]. *)
Definition brackets (a : list Z) (x : Z) (lo hi : nat) : Prop :=
  (lo ≤ hi ≤ length a)%nat ∧
  (∀ i y, (i < lo)%nat → a !! i = Some y → y ≤ x) ∧
  (∀ i y, (hi ≤ i)%nat → a !! i = Some y → x < y).

(** [bisect.insort(a, x)]: [a.insert(bisect_right(a, x), x)]. *)
Definition insort (a : list Z) (x : Z) : list Z :=
  let lo := bisect a x in take lo a ++ x :: drop lo a.

Section ring.
(** [_hash]: the MD5 digest of the UTF-8 bytes, read as an integer. *)
Context (_hash : string → Z).

Record ConsistentHashing : Type := {
  replicas : Z;
  ring : gmap Z string;
  sorted_keys : list Z
}.

(** The body of the loop of [add_node] for replica [i]. *)
Definition add_replica (node : string) (r : ConsistentHashing) (i : nat) :
    ConsistentHashing :=
  let key := _hash (node +:+ ":" +:+ pretty i) in
  {| replicas := replicas r;
     ring := <[key := node]> (ring r);
     sorted_keys := insort (sorted_keys r) key |}.

(** [for i in range(self.replicas): ...]. *)
Definition add_node (node : string) (r : ConsistentHashing) : ConsistentHashing :=
  foldl (add_replica node) r (seq 0 (Z.to_nat (replicas r))).

(** [ConsistentHashing(nodes, replicas)]. *)
Definition new_ring (nodes : list string) (R : Z) : ConsistentHashing :=
  foldl (λ r node, add_node node r)
        {| replicas := R; ring := ∅; sorted_keys := [] |} nodes.

(** The first loop of [remove_node]: the positions whose label is [node].
    Python walks the dictionary in insertion order, [map_to_list] in an
    order of its own; the positions are distinct, so the second loop ends
    in the same ring either way unless a removal raises. *)
Definition keys_to_remove (node : string) (r : ConsistentHashing) : list Z :=
  (map_to_list (filter (λ kv, kv.2 = node) (ring r))).*1.

(** One turn of the second loop: [del self.ring[key]], then
    [self.sorted_keys.remove(key)]. *)
Definition remove_position (key : Z) (r : ConsistentHashing) :
    result unit * ConsistentHashing :=
  if decide (key ∈ sorted_keys r) then
    (Return (), {| replicas := replicas r; ring := delete key (ring r);
                   sorted_keys := py_remove key (sorted_keys r) |})
  else
    (Raise ValueError, {| replicas := replicas r; ring := delete key (ring r);
                          sorted_keys := sorted_keys r |}).

Fixpoint remove_positions (keys : list Z) (r : ConsistentHashing) :
    result unit * ConsistentHashing :=
  match keys with
  | [] => (Return (), r)
  | key :: keys' =>
      match remove_position key r with
      | (Raise e, r') => (Raise e, r')
      | (Return _, r') => remove_positions keys' r'
      end
  end.

Definition remove_node (node : string) (r : ConsistentHashing) :
    result unit * ConsistentHashing :=
  remove_positions (keys_to_remove node r) r.

Definition get_node (key : string) (r : ConsistentHashing) :
    result (option string) :=
  if decide (ring r = ∅) then Return None
  else
    let hashed_key := _hash key in
    let idx := bisect (sorted_keys r) hashed_key in
    let idx := if decide (idx = length (sorted_keys r)) then 0%nat else idx in
    match sorted_keys r !! idx with
    | None => Raise IndexError
    | Some node_key =>
        match ring r !! node_key with
        | None => Raise KeyError
        | Some node => Return (Some node)
        end
    end.

(** The ring as the data model has it: the positions in ascending order,
    and the same positions in the list and in the map. *)
Record ring_wf (r : ConsistentHashing) : Prop := {
  wf_sorted : StronglySorted Z.le (sorted_keys r);
  wf_positions : ∀ pos, pos ∈ sorted_keys r ↔ pos ∈ dom (ring r)
}.

(** The positions that [add_node(node)] computes. *)
Definition positions (node : string) (r : ConsistentHashing) : list Z :=
  (λ i : nat, _hash (node +:+ ":" +:+ pretty i)) <$> seq 0 (Z.to_nat (replicas r)).

(** The rings that come from an empty one by [add_node] of labels whose
    positions are new, and by [remove_node]. *)
Inductive ring_built : ConsistentHashing → Prop :=
| built_new R : ring_built {| replicas := R; ring := ∅; sorted_keys := [] |}
| built_add node r :
    ring_built r → NoDup (positions node r) →
    (∀ pos, pos ∈ positions node r → pos ∉ dom (ring r)) →
    ring_built (add_node node r)
| built_remove node r :
    ring_built r → ring_built (snd (remove_node node r)).

(** What every reachable ring keeps: the list ascending, and every position
    of the map in the list. *)
Definition listed (r : ConsistentHashing) : Prop :=
  StronglySorted Z.le (sorted_keys r) ∧
  ∀ pos, pos ∈ dom (ring r) → pos ∈ sorted_keys r.

(** The rings that any calls of [add_node] and [remove_node] lead to, also
    with a label added twice or positions that collide. *)
Inductive ring_reachable : ConsistentHashing → Prop :=
| reach_new R : ring_reachable {| replicas := R; ring := ∅; sorted_keys := [] |}
| reach_add node r : ring_reachable r → ring_reachable (add_node node r)
| reach_remove node r :
    ring_reachable r → ring_reachable (snd (remove_node node r)).

(** [pos] is where the lookup of hash [h] lands: the least position
    strictly greater than [h], or the least position of all when none is
    greater. *)
Definition successor (h pos : Z) (r : ConsistentHashing) : Prop :=
  pos ∈ dom (ring r) ∧
  ((h < pos ∧ ∀ q, q ∈ dom (ring r) → h < q → pos ≤ q) ∨
   ((∀ q, q ∈ dom (ring r) → q ≤ h) ∧ ∀ q, q ∈ dom (ring r) → pos ≤ q)).

End ring.

End Ring.

Module RingExamples.
Import Ring.

(** A stand-in hash, for a ring small enough to read. *)
Definition toy_hash (s : string) : Z := Z.of_nat (String.length s) * 10.

Definition two_positions : ConsistentHashing :=
  {| replicas := 1;
     ring := {[ 20 := "A"%string; 50 := "B"%string ]};
     sorted_keys := [20; 50] |}.

(** [ConsistentHashing(["A", "BB"], 1)] under the stand-in hash: [A] sits at
    30 and [BB] at 40. *)
Definition ring_a_bb : ConsistentHashing := new_ring toy_hash ["A"; "BB"]%string 1.

End RingExamples.

(** * The router ([distributed_cache.py]) *)

Module Router.
Import Node Ring.

Section router.
Context (_hash : string → Z).

(** The router calls [node.get(key)] and [node.put(key, value)] and knows
    nothing else of a node.  [N] is what one node owns and [G] what the nodes
    have in common (in [main.py] the one database behind every loader and
    writer); a [get] that never returns gives [None].  The nodes of a
    cluster are distinct objects. *)
Context {N G : Type}
  (node_get : string → N * G → option (result (option string) * (N * G)))
  (node_put : string → string → N * G → result unit * (N * G)).

(** [self.nodes] is never read after the constructor and has no field
    here. *)
Record DistributedCache : Type := {
  node_map : gmap string N;
  hashing : ConsistentHashing
}.

(** The names [f"Node-{i}"] for [i] below [count]. *)
Definition node_names (count : nat) : list string :=
  (λ i : nat, "Node-" +:+ pretty i) <$> seq 0 count.

(** [DistributedCache(nodes)]: the names are distinct, so the dictionary
    holds every pair and lists its keys in this order. *)
Definition new_cluster (nodes : list N) : DistributedCache :=
  {| node_map := list_to_map (zip (node_names (length nodes)) nodes);
     hashing := new_ring _hash (node_names (length nodes)) 3 |}.

(** The node object of [name] has changed to [node]. *)
Definition set_node (name : string) (node : N) (dc : DistributedCache) :
    DistributedCache :=
  {| node_map := <[name := node]> (node_map dc); hashing := hashing dc |}.

Definition get (key : string) (s : DistributedCache * G) :
    option (result (option string) * (DistributedCache * G)) :=
  match get_node _hash key (hashing s.1) with
  | Raise e => Some (Raise e, s)
  | Return None => Some (Return None, s)
  | Return (Some node_name) =>
      (* if not node_name: return None *)
      if truthy node_name then
        match node_map s.1 !! node_name with
        | None => Some (Raise KeyError, s)
        | Some node =>
            match node_get key (node, s.2) with
            | Some (r, (node', g')) => Some (r, (set_node node_name node' s.1, g'))
            | None => None
            end
        end
      else Some (Return None, s)
  end.

Definition put (key value : string) (s : DistributedCache * G) :
    result unit * (DistributedCache * G) :=
  match get_node _hash key (hashing s.1) with
  | Raise e => (Raise e, s)
  | Return None => (Return (), s)
  | Return (Some node_name) =>
      if truthy node_name then
        match node_map s.1 !! node_name with
        | None => (Raise KeyError, s)
        | Some node =>
            let '(r, (node', g')) := node_put key value (node, s.2) in
            (r, (set_node node_name node' s.1, g'))
        end
      else (Return (), s)
  end.

Definition add_node (node : N) (name : string) (dc : DistributedCache) :
    DistributedCache :=
  {| node_map := <[name := node]> (node_map dc);
     hashing := Ring.add_node _hash name (hashing dc) |}.

(** [if name in self.node_map: self.hashing.remove_node(name);
     del self.node_map[name]]. *)
Definition remove_node (name : string) (dc : DistributedCache) :
    result unit * DistributedCache :=
  match node_map dc !! name with
  | Some _ =>
      match Ring.remove_node name (hashing dc) with
      | (Raise e, r') => (Raise e, {| node_map := node_map dc; hashing := r' |})
      | (Return _, r') =>
          (Return (), {| node_map := delete name (node_map dc); hashing := r' |})
      end
  | None => (Return (), dc)
  end.

(** The calls a client makes on a cluster. *)
Inductive request : Type :=
| ReqGet (key : string)
| ReqPut (key value : string)
| ReqAdd (node : N) (name : string)
| ReqRemove (name : string).

(** The cluster after one call, whatever it returned or raised ([None]
    when a [get] does not return). *)
Definition serve (q : request) (s : DistributedCache * G) :
    option (DistributedCache * G) :=
  match q with
  | ReqGet key => snd <$> get key s
  | ReqPut key value => Some (snd (put key value s))
  | ReqAdd node name => Some (add_node node name s.1, s.2)
  | ReqRemove name => Some (snd (remove_node name s.1), s.2)
  end.

Fixpoint serve_all (qs : list request) (s : DistributedCache * G) :
    option (DistributedCache * G) :=
  match qs with
  | [] => Some s
  | q :: qs' =>
      match serve q s with
      | Some s' => serve_all qs' s'
      | None => None
      end
  end.

(** Every label of the ring names a node of [node_map]. *)
Definition labels_have_nodes (dc : DistributedCache) : Prop :=
  ∀ pos label, ring (hashing dc) !! pos = Some label →
               is_Some (node_map dc !! label).

(** What the calls of the router keep. *)
Definition router_inv (dc : DistributedCache) : Prop :=
  labels_have_nodes dc ∧ listed (hashing dc).

End router.

Arguments DistributedCache N : clear implicits.
Arguments request N : clear implicits.

Section cache_nodes.
Import Policy Contract Store Coalescer.
Context (_hash : string → Z).
Context {P DB : Type} `{!EvictionPolicy string P} `{!Resident string P}
  `{!PolicyLaws string P} `{!Database DB}.

(** A [RobustCache] as a node of a cluster whose loaders and writers all
    reach one database object, as [main.py] builds them: a call runs on that
    database and leaves it to the next call, on whichever node. *)
Definition cache_get (key : string) (s : node P DB * DB) :
    option (result (option string) * (node P DB * DB)) :=
  match Node.get key (s.1.1, set_database s.2 s.1.2) with
  | Some (r, (c', n')) => Some (r, ((c', n'), database n'))
  | None => None
  end.

Definition cache_put (key value : string) (s : node P DB * DB) :
    result unit * (node P DB * DB) :=
  let '(r, n') := Node.put key value (set_database s.2 s.1.2) in
  (r, ((s.1.1, n'), database n')).

(** A node between two calls: no load in flight, and the node invariants. *)
Definition quiet (m : node P DB) : Prop :=
  active_requests m.1 = ∅ ∧ node_ok m.2.

(** The calls [get] and [put] with a truthy key. *)
Definition data_request (q : request (node P DB)) : Prop :=
  match q with
  | ReqGet key | ReqPut key _ => key ≠ ""%string
  | _ => False
  end.

(** The cluster as the constructor left it, up to the state of its nodes. *)
Definition settled (nodes : list (node P DB))
    (dc : DistributedCache (node P DB)) : Prop :=
  hashing dc = new_ring _hash (node_names (length nodes)) 3 ∧
  ∀ name, name ∈ node_names (length nodes) →
          ∃ m, node_map dc !! name = Some m ∧ quiet m.

End cache_nodes.

End Router.

Module RouterExamples.
Import Policy Store Coalescer Node Ring RingExamples Router.

(** Two LRU nodes of capacity 2 with loaders, over a database that holds
    [x ↦ v]. *)
Definition two_nodes : list (node (LRUPolicy string) MockDB) :=
  [(coalescer_init, new_cache 2 lru_init true None ∅);
   (coalescer_init, new_cache 2 lru_init true None ∅)].

Definition shared_db : MockDB := {[ "x" := "v" ]}%string.

(** A [put], a node added under a new name, a node removed, a [get]. *)
Definition busy_day : list (request (node (LRUPolicy string) MockDB)) :=
  [ReqPut "a" "1";
   ReqAdd (coalescer_init, new_cache 2 lru_init true None ∅) "spare";
   ReqRemove "Node-0";
   ReqGet "x"]%string.

Definition reads_and_writes : list (request (node (LRUPolicy string) MockDB)) :=
  [ReqGet "x"; ReqPut "a" "1"; ReqPut "b" "2"; ReqPut "c" "3"]%string.

End RouterExamples.

(* ================================================================== *)
(** * Properties *)

Section py_remove_facts.
Context {A : Type} `{EqDecision A}.
Implicit Types (x y : A) (l : list A).

Lemma py_remove_notin x l : x ∉ l → py_remove x l = l.
Proof.
  induction l as [|y l IH]; simpl; [done|].
  intros [Hxy Hl]%not_elem_of_cons.
  destruct (decide (x = y)); [done|]. by rewrite IH.
Qed.

Lemma elem_of_py_remove_sub x y l : y ∈ py_remove x l → y ∈ l.
Proof.
  induction l as [|z l IH]; simpl; [done|].
  destruct (decide (x = z)) as [->|Hxz]; rewrite ?elem_of_cons.
  - by right.
  - intros [->|Hin]; [by left|right; by apply IH].
Qed.

Lemma elem_of_py_remove_ne x y l : x ≠ y → y ∈ py_remove x l ↔ y ∈ l.
Proof.
  intros Hne. split; [apply elem_of_py_remove_sub|].
  induction l as [|z l IH]; simpl; [done|].
  rewrite elem_of_cons. intros [->|Hin].
  - rewrite decide_False by done. by left.
  - destruct (decide (x = z)); [done|]. right. by apply IH.
Qed.

Lemma NoDup_py_remove x l : NoDup l → NoDup (py_remove x l) ∧ x ∉ py_remove x l.
Proof.
  induction 1 as [|y l Hy Hl IH]; simpl.
  - split; [constructor|]. apply not_elem_of_nil.
  - destruct (decide (x = y)) as [->|Hxy]; [done|].
    destruct IH as [IH1 IH2]. split.
    + constructor; [|done]. intros Hin. by apply elem_of_py_remove_sub in Hin.
    + rewrite not_elem_of_cons. done.
Qed.


End py_remove_facts.

(** ** LRU *)

Section lru_facts.
Import Policy.
Context {K : Type} `{Countable K}.
Implicit Types (p : LRUPolicy K) (k : K).

Lemma lru_on_access_order k p :
  NoDup (order p) →
  ∃ l, order (lru_on_access k p) = l ++ [k] ∧ (k ∉ l) ∧ NoDup l ∧
       (∀ x, x ∈ l ↔ x ≠ k ∧ x ∈ order p).
Proof.
  intros Hnd. unfold lru_on_access; simpl.
  destruct (decide (k ∈ order p)) as [Hin|Hin].
  - exists (py_remove k (order p)).
    destruct (NoDup_py_remove k _ Hnd) as [Hnd' Hk].
    repeat split; try done.
    + intros ->. done.
    + by apply elem_of_py_remove_sub in H0.
    + intros [Hne Hx]. by apply elem_of_py_remove_ne.
  - exists (order p). repeat split; try done.
    + intros ->. done.
    + by intros [_ ?].
Qed.

Lemma lru_on_access_nodup k p : NoDup (order p) → NoDup (order (lru_on_access k p)).
Proof.
  intros Hnd. destruct (lru_on_access_order k p Hnd) as (l & -> & Hk & Hl & _).
  apply NoDup_app. repeat split; [done| |apply NoDup_singleton].
  intros x Hx ->%list_elem_of_singleton. done.
Qed.

Lemma lru_evict_nodup p : NoDup (order p) → NoDup (order (snd (lru_evict p))).
Proof.
  unfold lru_evict. destruct (order p) as [|v rest] eqn:E; simpl.
  - by rewrite E.
  - by intros ?%NoDup_cons_1_2.
Qed.

Lemma lru_reachable_nodup p : lru_reachable p → NoDup (order p).
Proof.
  intros [cs ->]. unfold run.
  induction cs as [|c cs IH] using rev_ind; simpl; [constructor|].
  rewrite foldl_app; simpl. destruct c as [k|]; simpl.
  - by apply lru_on_access_nodup.
  - pose proof (lru_evict_nodup _ IH) as Hev.
    by destruct (lru_evict _).
Qed.


End lru_facts.

(** ** LFU *)

Section lfu_facts.
Import Policy.
Context {K : Type} `{Countable K}.
Implicit Types (p : LFUPolicy K) (k : K) (kf : gmap K Z)
  (fk : gmap Z (list K)) (f g m : Z).

Lemma bucket_insert fk f b g :
  bucket (<[f := b]> fk) g = if decide (f = g) then b else bucket fk g.
Proof.
  unfold bucket. destruct (decide (f = g)) as [->|Hne].
  - by rewrite lookup_insert_eq.
  - by rewrite lookup_insert_ne.
Qed.

Lemma bucket_delete fk f g :
  bucket (delete f fk) g = if decide (f = g) then [] else bucket fk g.
Proof.
  unfold bucket. destruct (decide (f = g)) as [->|Hne].
  - by rewrite lookup_delete_eq.
  - by rewrite lookup_delete_ne.
Qed.

Lemma elem_of_od_set k k' (d : list K) : k' ∈ od_set k d ↔ k' = k ∨ k' ∈ d.
Proof.
  unfold od_set. destruct (decide (k ∈ d)) as [Hin|Hin].
  - split; [by right|]. by intros [->|?].
  - rewrite elem_of_app, list_elem_of_singleton. tauto.
Qed.

Lemma NoDup_od_set k (d : list K) : NoDup d → NoDup (od_set k d).
Proof.
  intros Hnd. unfold od_set. destruct (decide (k ∈ d)) as [Hin|Hin]; [done|].
  apply NoDup_app. repeat split; [done| |apply NoDup_singleton].
  intros x Hx ->%list_elem_of_singleton. done.
Qed.

Lemma od_set_nonempty k (d : list K) : od_set k d ≠ [].
Proof.
  intros Heq. assert (Hin : k ∈ od_set k d) by (apply elem_of_od_set; by left).
  rewrite Heq in Hin. by apply not_elem_of_nil in Hin.
Qed.



Lemma lfu_init_wf : lfu_wf (lfu_init (K:=K)).
Proof.
  split; unfold lfu_init, buckets_nonempty, bucket; simpl.
  - intros k f. rewrite !lookup_empty; simpl. split; [done|].
    intros Hin. by apply not_elem_of_nil in Hin.
  - intros f. rewrite lookup_empty; simpl. constructor.
  - intros f b. by rewrite lookup_empty.
  - intros k f. by rewrite lookup_empty.
Qed.

(** Recording [key] at [nf] re-establishes agreement once [key] sits in no
    bucket. *)
Lemma lfu_record_wf k nf kf fk mf :
  (∀ k' f, k' ≠ k → kf !! k' = Some f ↔ k' ∈ bucket fk f) →
  (∀ f, k ∉ bucket fk f) →
  (∀ f, NoDup (bucket fk f)) →
  (∀ f b, fk !! f = Some b → b ≠ []) →
  (∀ k' f, k' ≠ k → kf !! k' = Some f → 1 ≤ f) →
  1 ≤ nf →
  lfu_wf (lfu_record k nf kf fk mf).
Proof.
  intros Hbij Hk Hnd Hne Hpos Hnf. split; unfold lfu_record, buckets_nonempty; simpl.
  - intros k' f. rewrite bucket_insert.
    destruct (decide (k' = k)) as [->|Hkk].
    + rewrite lookup_insert_eq. destruct (decide (nf = f)) as [->|Hf].
      * split; [|done]. intros _. apply elem_of_od_set. by left.
      * split; [congruence|]. intros Hin. by apply Hk in Hin.
    + rewrite lookup_insert_ne by done. rewrite (Hbij k' f Hkk).
      destruct (decide (nf = f)) as [->|Hf]; [|done].
      rewrite elem_of_od_set. split; [by right|]. by intros [?|?].
  - intros f. rewrite bucket_insert. destruct (decide (nf = f)); [|done].
    by apply NoDup_od_set.
  - intros f b. destruct (decide (nf = f)) as [->|Hf].
    + rewrite lookup_insert_eq. intros [= <-]. apply od_set_nonempty.
    + rewrite lookup_insert_ne by done. apply Hne.
  - intros k' f. destruct (decide (k' = k)) as [->|Hkk].
    + rewrite lookup_insert_eq. by intros [= <-].
    + rewrite lookup_insert_ne by done. by apply Hpos.
Qed.

(** The bucket map once [key] has left its old bucket, whichever way the
    emptied bucket was disposed of. *)
Lemma lfu_moved_wf k p old fk2 mf :
  lfu_wf p → key_freq p !! k = Some old →
  (∀ g, bucket fk2 g = if decide (old = g)
                       then py_remove k (bucket (freq_keys p) old)
                       else bucket (freq_keys p) g) →
  (∀ f b, fk2 !! f = Some b → b ≠ []) →
  lfu_wf (lfu_record k (old + 1) (key_freq p) fk2 mf).
Proof.
  intros [Hbij Hnd Hne Hpos] Hk Hb Hne2.
  destruct (NoDup_py_remove k _ (Hnd old)) as [Hnd' Hk'].
  apply lfu_record_wf; try done.
  - intros k' f Hkk. rewrite Hb, Hbij. destruct (decide (old = f)) as [->|Hf]; [|done].
    symmetry. by apply elem_of_py_remove_ne.
  - intros f. rewrite Hb. destruct (decide (old = f)) as [->|Hf]; [done|].
    rewrite <- Hbij. congruence.
  - intros f. rewrite Hb. by destruct (decide (old = f)).
  - intros k' f _. apply Hpos.
  - specialize (Hpos _ _ Hk). lia.
Qed.

Lemma lfu_on_access_wf k p :
  lfu_wf p →
  ∃ p', lfu_on_access k p = (Return (), p') ∧ lfu_wf p' ∧
        key_freq p' = <[k := match key_freq p !! k with
                             | Some f => f + 1
                             | None => 1
                             end]> (key_freq p).
Proof.
  intros Hwf. pose proof Hwf as [Hbij Hnd Hne Hpos].
  unfold lfu_on_access. destruct (key_freq p !! k) as [old|] eqn:Ek.
  - assert (Hin : k ∈ bucket (freq_keys p) old) by by apply Hbij.
    rewrite decide_True by done.
    destruct (py_remove k (bucket (freq_keys p) old)) as [|x b'] eqn:Eb.
    + eexists. split; [done|]. split; [|done].
      apply lfu_moved_wf; try done.
      * intros g. rewrite bucket_delete, Eb. done.
      * intros f b. destruct (decide (old = f)) as [->|Hf].
        -- by rewrite lookup_delete_eq.
        -- rewrite lookup_delete_ne by done. apply Hne.
    + eexists. split; [done|]. split; [|done].
      apply lfu_moved_wf; try done.
      * intros g. rewrite bucket_insert, Eb. done.
      * intros f b. destruct (decide (old = f)) as [->|Hf].
        -- rewrite lookup_insert_eq. by intros [= <-].
        -- rewrite lookup_insert_ne by done. apply Hne.
  - eexists. split; [done|]. split; [|done].
    apply lfu_record_wf; [| |done|done| |done].
    + intros k' f _. apply Hbij.
    + intros f Hin. apply Hbij in Hin. congruence.
    + intros k' f _. apply Hpos.
Qed.

(** A key the policy does not hold enters with frequency 1, the new
    minimum. *)
Lemma lfu_on_access_new_min k p :
  lfu_wf p → key_freq p !! k = None → lfu_min_ok (snd (lfu_on_access k p)).
Proof.
  intros [Hbij Hnd Hne Hpos] Hk _. unfold lfu_on_access. rewrite Hk; simpl.
  split.
  - exists k. by rewrite lookup_insert_eq.
  - intros k' f. destruct (decide (k' = k)) as [->|Hkk].
    + rewrite lookup_insert_eq. by intros [= <-].
    + rewrite lookup_insert_ne by done. apply Hpos.
Qed.

Lemma lfu_on_access_min k p :
  lfu_wf p → lfu_min_ok p → lfu_min_ok (snd (lfu_on_access k p)).
Proof.
  intros Hwf Hmin. destruct (key_freq p !! k) as [old|] eqn:Ek;
    [|by apply lfu_on_access_new_min].
  pose proof Hwf as [Hbij Hnd Hne Hpos].
  assert (Hnonempty : key_freq p ≠ ∅).
  { intros Heq. rewrite Heq, lookup_empty in Ek. done. }
  destruct (Hmin Hnonempty) as [[k0 Hk0] Hlow].
  assert (Hin : k ∈ bucket (freq_keys p) old) by by apply Hbij.
  destruct (NoDup_py_remove k _ (Hnd old)) as [Hnd' Hk'].
  assert (Hother : min_freq p ≠ old →
    is_min (min_freq p) (<[k := old + 1]> (key_freq p))).
  { intros Hne'. split.
    - exists k0. rewrite lookup_insert_ne; [done|]. intros ->. congruence.
    - intros k' f. destruct (decide (k' = k)) as [->|Hkk].
      + rewrite lookup_insert_eq. intros [= <-]. specialize (Hlow _ _ Ek). lia.
      + rewrite lookup_insert_ne by done. apply Hlow. }
  intros _. unfold lfu_on_access. rewrite Ek. rewrite decide_True by done.
  destruct (py_remove k (bucket (freq_keys p) old)) as [|x b'] eqn:Eb; simpl.
  - destruct (decide (min_freq p = old)) as [Hmo|Hmo]; [|by apply Hother].
    rewrite Hmo. split.
    + exists k. by rewrite lookup_insert_eq.
    + intros k' f. destruct (decide (k' = k)) as [->|Hkk].
      * rewrite lookup_insert_eq. by intros [= <-].
      * rewrite lookup_insert_ne by done. intros Hk'f.
        pose proof (Hlow _ _ Hk'f) as Hle.
        assert (f ≠ old); [|lia]. intros ->.
        apply Hbij in Hk'f. apply (elem_of_py_remove_ne k k') in Hk'f; [|done].
        rewrite Eb in Hk'f. by apply not_elem_of_nil in Hk'f.
  - destruct (decide (min_freq p = old)) as [Hmo|Hmo]; [|by apply Hother].
    split.
    + exists x. assert (Hx : x ∈ py_remove k (bucket (freq_keys p) old))
        by (rewrite Eb; by left).
      assert (x ≠ k) by (intros ->; apply Hk'; by left).
      rewrite lookup_insert_ne by done.
      apply elem_of_py_remove_sub in Hx. apply Hbij in Hx. by rewrite Hmo.
    + intros k' f. destruct (decide (k' = k)) as [->|Hkk].
      * rewrite lookup_insert_eq. intros [= <-]. lia.
      * rewrite lookup_insert_ne by done. apply Hlow.
Qed.

(** [evict] on a policy whose [min_freq] is exact: it returns a tracked key,
    forgets that key and nothing else, and leaves [min_freq] as it was. *)
Lemma lfu_evict_wf p :
  lfu_wf p → lfu_min_ok p → key_freq p ≠ ∅ →
  ∃ v p', lfu_evict p = (Return (Some v), p') ∧ lfu_wf p' ∧
          is_Some (key_freq p !! v) ∧
          key_freq p' = delete v (key_freq p) ∧ min_freq p' = min_freq p.
Proof.
  intros [Hbij Hnd Hne Hpos] Hmin Hnonempty.
  destruct (Hmin Hnonempty) as [[k0 Hk0] Hlow].
  unfold lfu_evict. rewrite decide_False by done.
  apply Hbij in Hk0.
  destruct (bucket (freq_keys p) (min_freq p)) as [|v rest] eqn:Eb;
    [by apply not_elem_of_nil in Hk0|].
  assert (Hv : key_freq p !! v = Some (min_freq p)).
  { apply Hbij. rewrite Eb. by left. }
  rewrite Hv. eexists _, _. split; [done|].
  pose proof (Hnd (min_freq p)) as Hndm. rewrite Eb in Hndm.
  apply NoDup_cons in Hndm as [Hvr Hrest].
  set (fk' := match rest with
              | [] => delete (min_freq p) (freq_keys p)
              | _ :: _ => <[min_freq p := rest]> (freq_keys p)
              end).
  assert (Hb : ∀ g, bucket fk' g =
            if decide (min_freq p = g) then rest else bucket (freq_keys p) g).
  { intros g. unfold fk'. destruct rest; [apply bucket_delete|apply bucket_insert]. }
  split; [|by eauto]. split; unfold buckets_nonempty; simpl.
  - intros k f. rewrite Hb. destruct (decide (k = v)) as [->|Hkv].
    + rewrite lookup_delete_eq. split; [done|].
      destruct (decide (min_freq p = f)) as [<-|Hf]; [done|].
      intros Hin. apply Hbij in Hin. congruence.
    + rewrite lookup_delete_ne by done. rewrite Hbij.
      destruct (decide (min_freq p = f)) as [<-|Hf]; [|done].
      rewrite Eb, elem_of_cons. split; [by intros [?|?]|by right].
  - intros g. rewrite Hb. by destruct (decide (min_freq p = g)).
  - intros f b. unfold fk'. destruct (decide (min_freq p = f)) as [<-|Hf].
    + destruct rest; [by rewrite lookup_delete_eq|].
      rewrite lookup_insert_eq. by intros [= <-].
    + destruct rest; [rewrite lookup_delete_ne by done|
                      rewrite lookup_insert_ne by done]; apply Hne.
  - intros k f. destruct (decide (k = v)) as [->|Hkv].
    + by rewrite lookup_delete_eq.
    + rewrite lookup_delete_ne by done. apply Hpos.
Qed.

Lemma lfu_evict_empty p : key_freq p = ∅ → lfu_evict p = (Return None, p).
Proof. intros Hemp. unfold lfu_evict. by rewrite decide_True. Qed.

Lemma lfu_driven_inv p : lfu_driven p → lfu_wf p ∧ lfu_min_ok p.
Proof.
  induction 1 as [|k p Hd [Hwf Hmin]|k p Hd [Hwf Hmin] Hk].
  - split; [apply lfu_init_wf|]. intros Hne. by destruct Hne.
  - split; [|by apply lfu_on_access_min].
    destruct (lfu_on_access_wf k p Hwf) as (p' & -> & Hwf' & _). done.
  - destruct (decide (key_freq p = ∅)) as [Hemp|Hne].
    + rewrite (lfu_evict_empty p Hemp); simpl.
      split; [|by apply lfu_on_access_min].
      destruct (lfu_on_access_wf k p Hwf) as (p' & -> & Hwf' & _). done.
    + destruct (lfu_evict_wf p Hwf Hmin Hne) as (v & p1 & -> & Hwf1 & _ & Hkf & _).
      simpl. assert (Hk1 : key_freq p1 !! k = None).
      { rewrite Hkf. apply lookup_delete_None. by right. }
      split; [|by apply lfu_on_access_new_min].
      destruct (lfu_on_access_wf k p1 Hwf1) as (p' & -> & Hwf' & _). done.
Qed.

(** Filing survives every call, also one that raises. *)
Lemma lfu_on_access_filed k p : lfu_filed p → lfu_filed (snd (lfu_on_access k p)).
Proof.
  intros Hf. unfold lfu_on_access.
  destruct (key_freq p !! k) as [old|] eqn:Ek.
  - destruct (decide (k ∈ bucket (freq_keys p) old)) as [Hin|Hin].
    + assert (Hgen : ∀ fk2 mf,
        (∀ g, bucket fk2 g = if decide (old = g)
                             then py_remove k (bucket (freq_keys p) old)
                             else bucket (freq_keys p) g) →
        lfu_filed (lfu_record k (old + 1) (key_freq p) fk2 mf)).
      { intros fk2 mf Hb k' f. unfold lfu_record; simpl.
        rewrite bucket_insert. destruct (decide (k' = k)) as [->|Hkk].
        - rewrite lookup_insert_eq. intros [= <-].
          rewrite decide_True by done. apply elem_of_od_set. by left.
        - rewrite lookup_insert_ne by done. intros Hk'.
          assert (k' ∈ bucket fk2 f).
          { rewrite Hb. destruct (decide (old = f)) as [<-|Hof]; [|by apply Hf].
            apply elem_of_py_remove_ne; [done|]. by apply Hf. }
          destruct (decide (old + 1 = f)) as [<-|]; [|done].
          apply elem_of_od_set. by right. }
      destruct (py_remove k (bucket (freq_keys p) old)) as [|x b'] eqn:Eb; simpl.
      * apply Hgen. intros g. by rewrite bucket_delete.
      * apply Hgen. intros g. by rewrite bucket_insert.
    + simpl. intros k' f; simpl. rewrite bucket_insert.
      intros Hk'. destruct (decide (old = f)) as [<-|]; by apply Hf.
  - simpl. intros k' f; simpl. rewrite bucket_insert.
    destruct (decide (k' = k)) as [->|Hkk].
    + rewrite lookup_insert_eq. intros [= <-].
      rewrite decide_True by done. apply elem_of_od_set. by left.
    + rewrite lookup_insert_ne by done. intros Hk'.
      destruct (decide (1 = f)) as [<-|]; [|by apply Hf].
      apply elem_of_od_set. right. by apply Hf.
Qed.

Lemma lfu_evict_filed p : lfu_filed p → lfu_filed (snd (lfu_evict p)).
Proof.
  intros Hf. unfold lfu_evict.
  destruct (decide (key_freq p = ∅)); [done|].
  destruct (bucket (freq_keys p) (min_freq p)) as [|v rest] eqn:Eb; simpl.
  - intros k f; simpl. rewrite bucket_insert. intros Hk.
    destruct (decide (min_freq p = f)) as [<-|]; [|by apply Hf].
    apply Hf in Hk. by rewrite Eb in Hk.
  - set (fk' := match rest with
                | [] => delete (min_freq p) (freq_keys p)
                | _ :: _ => <[min_freq p := rest]> (freq_keys p)
                end).
    assert (Hb : ∀ g, bucket fk' g =
              if decide (min_freq p = g) then rest else bucket (freq_keys p) g).
    { intros g. unfold fk'. destruct rest; [apply bucket_delete|apply bucket_insert]. }
    assert (Hgen : ∀ k f, k ≠ v → key_freq p !! k = Some f → k ∈ bucket fk' f).
    { intros k f Hkv Hk. rewrite Hb. apply Hf in Hk.
      destruct (decide (min_freq p = f)) as [<-|]; [|done].
      rewrite Eb in Hk. apply elem_of_cons in Hk as [?|?]; done. }
    destruct (key_freq p !! v) as [fv|] eqn:Ev; simpl.
    + intros k f; simpl. destruct (decide (k = v)) as [->|Hkv].
      * by rewrite lookup_delete_eq.
      * rewrite lookup_delete_ne by done. by apply Hgen.
    + intros k f; simpl. intros Hk. apply Hgen; [|done]. intros ->. congruence.
Qed.

Lemma lfu_reachable_filed p : lfu_reachable p → lfu_filed p.
Proof.
  intros [cs ->]. unfold run.
  induction cs as [|c cs IH] using rev_ind; simpl.
  - intros k f. unfold lfu_init; simpl. by rewrite lookup_empty.
  - rewrite foldl_app; simpl. destruct c as [k|]; simpl.
    + by apply lfu_on_access_filed.
    + by apply lfu_evict_filed.
Qed.

(** On a filed state [on_access] returns, and the key's count goes up by
    one (or starts at 1). *)
Lemma lfu_on_access_returns k p :
  lfu_filed p →
  ∃ p', lfu_on_access k p = (Return (), p') ∧
        key_freq p' !! k = Some (match key_freq p !! k with
                                 | Some f => f + 1
                                 | None => 1
                                 end).
Proof.
  intros Hf. unfold lfu_on_access.
  destruct (key_freq p !! k) as [old|] eqn:Ek.
  - rewrite decide_True by by apply Hf.
    destruct (py_remove k (bucket (freq_keys p) old)); eexists; (split; [done|]);
      simpl; by rewrite lookup_insert_eq.
  - eexists. split; [done|]. simpl. by rewrite lookup_insert_eq.
Qed.

End lfu_facts.

(** ** The policy contract on both policies *)

Section policy_claims.
Import Policy.
Context {K : Type} `{Countable K}.



End policy_claims.

Section policy_examples.
Import Policy PolicyExamples.





End policy_examples.

(** * The write-back pipeline *)

Section write_back.
Import Store Writer.
Context {DB : Type} `{Database DB}.
Implicit Types (tr : list event) (s : wb_state DB) (q : list item) (d : DB).

Lemma wb_run_app tr1 tr2 s :
  wb_run (tr1 ++ tr2) s = wb_run tr1 s ≫= wb_run tr2.
Proof.
  revert s. induction tr1 as [|e tr1 IH]; intros s; simpl; [done|].
  destruct (wb_step e s); simpl; [apply IH|done].
Qed.

Lemma wb_run_snoc tr e s s' :
  wb_run (tr ++ [e]) s = Some s' →
  ∃ s1, wb_run tr s = Some s1 ∧ wb_step e s1 = Some s'.
Proof.
  rewrite wb_run_app. destruct (wb_run tr s) as [s1|]; [|done].
  simpl. destruct (wb_step e s1) as [s2|] eqn:E; [|done].
  intros [= <-]. by exists s1.
Qed.

Lemma has_close_app tr1 tr2 : has_close (tr1 ++ tr2) = has_close tr1 || has_close tr2.
Proof. apply existsb_app. Qed.

Lemma has_stop_app q1 q2 : has_stop (q1 ++ q2) = has_stop q1 || has_stop q2.
Proof. apply existsb_app. Qed.

Lemma accepted_app tr1 tr2 :
  accepted (tr1 ++ tr2) =
  accepted tr1 ++ (if has_close tr1 then [] else accepted tr2).
Proof.
  induction tr1 as [|e tr1 IH]; simpl; [done|].
  destruct e; simpl; rewrite ?IH; done.
Qed.

Lemma before_stop_app q1 q2 :
  before_stop (q1 ++ q2) =
  before_stop q1 ++ (if has_stop q1 then [] else before_stop q2).
Proof.
  induction q1 as [|i q1 IH]; simpl; [done|].
  destruct i; simpl; rewrite ?IH; done.
Qed.

Lemma accepted_no_close tr : has_close tr = false → accepted tr = writes_of tr.
Proof.
  induction tr as [|e tr IH]; simpl; [done|].
  destruct e; simpl; intros Hc; rewrite ?IH; done.
Qed.

Lemma deliver_app ws1 ws2 d : deliver (ws1 ++ ws2) d = deliver ws2 (deliver ws1 d).
Proof. apply foldl_app. Qed.

Lemma wb_inv_start d0 : wb_inv d0 [] (wb_start d0).
Proof. split; [|done]. by exists []. Qed.

Lemma wb_inv_step d0 tr e s s' :
  wb_inv d0 tr s → wb_step e s = Some s' → wb_inv d0 (tr ++ [e]) s'.
Proof.
  unfold wb_inv. rewrite accepted_app, has_close_app.
  destruct s as [[q alive] d n]; simpl.
  destruct e; simpl; unfold _flusher_step; simpl.
  - (* write *)
    intros Hinv [= <-]; simpl. destruct alive.
    + destruct Hinv as [(done & Hd & Hacc) Hstop]. split.
      * exists done. split; [done|].
        rewrite before_stop_app, Hstop; simpl.
        rewrite app_assoc, Hacc. by destruct (has_close tr).
      * rewrite has_stop_app, Hstop; simpl. by rewrite !orb_false_r.
    + destruct Hinv as [Hd Hc]. rewrite Hc, app_nil_r. done.
  - (* delete *)
    intros Hinv [= <-]; simpl. rewrite orb_false_r.
    destruct alive; (destruct (has_close tr); simpl; by rewrite app_nil_r).
  - (* close(): the sentinel is queued *)
    intros Hinv [= <-]; simpl. rewrite orb_true_r. destruct alive.
    + destruct Hinv as [(done & Hd & Hacc) Hstop]. split.
      * exists done. split; [done|].
        rewrite before_stop_app; simpl.
        destruct (has_stop q), (has_close tr); by rewrite !app_nil_r.
      * rewrite has_stop_app; simpl. by rewrite orb_true_r.
    + destruct Hinv as [Hd _]. split; [|done].
      destruct (has_close tr); by rewrite app_nil_r.
  - (* close(): join() returns *)
    destruct n as [|n]; [done|]. destruct alive; [done|].
    intros [Hd Hc] [= <-]; simpl. by rewrite Hc, app_nil_r.
  - (* the worker *)
    destruct alive; [|done]. intros [(done & Hd & Hacc) Hstop].
    rewrite orb_false_r.
    assert (Hsame : accepted tr ++ (if has_close tr then [] else []) = accepted tr).
    { destruct (has_close tr); by rewrite app_nil_r. }
    rewrite Hsame. destruct q as [|[key value|] rest]; [done| |].
    + intros [= <-]; simpl. simpl in Hacc, Hstop. split; [|done].
      exists (done ++ [(key, value)]). split.
      * by rewrite deliver_app, <- Hd.
      * by rewrite <- app_assoc.
    + intros [= <-]; simpl. simpl in Hacc, Hstop. rewrite app_nil_r in Hacc.
      by subst.
Qed.

Lemma wb_inv_run d0 tr s : wb_run tr (wb_start d0) = Some s → wb_inv d0 tr s.
Proof.
  revert s. induction tr as [|e tr IH] using rev_ind; intros s.
  - intros [= <-]. apply wb_inv_start.
  - intros (s1 & Hrun & Hstep)%wb_run_snoc.
    eapply wb_inv_step; [by apply IH|done].
Qed.

(** A return from [join()] is only possible once the worker has exited. *)
Lemma wb_close_return_dead s s' :
  wb_step EvCloseReturn s = Some s' →
  worker_alive (wb s') = false ∧ store s' = store s.
Proof.
  simpl. destruct (pending_close s); [done|].
  destruct (worker_alive (wb s)) eqn:E; [done|]. by intros [= <-].
Qed.

(** C3.  Take any interleaving of callers and worker in which [close()] is
    called for the first time after the writes of [pre], and which reaches a
    return of [close()].  The database then holds what handing it exactly
    the writes of [pre], in call order, produces. *)
Theorem write_back_drained_on_close (pre mid : list event) (d0 : DB)
    (s : wb_state DB)
    (Hfirst : has_close pre = false)
    (Hrun : wb_run (pre ++ EvCloseCall :: mid ++ [EvCloseReturn]) (wb_start d0)
            = Some s) :
  store s = deliver (writes_of pre) d0.
Proof.
  assert (Htr : pre ++ EvCloseCall :: mid ++ [EvCloseReturn]
                = (pre ++ EvCloseCall :: mid) ++ [EvCloseReturn]).
  { by rewrite <- app_assoc. }
  pose proof (wb_inv_run _ _ _ Hrun) as Hinv.
  rewrite Htr in Hrun. apply wb_run_snoc in Hrun as (s1 & _ & E).
  apply wb_close_return_dead in E as [Hdead _].
  unfold wb_inv in Hinv. rewrite Hdead in Hinv. destruct Hinv as [-> _].
  rewrite accepted_app, Hfirst; simpl. rewrite app_nil_r.
  by rewrite accepted_no_close.
Qed.

(** C10.  [delete(key)] on either writer returns normally and leaves the
    database, the queue and the worker as they were; as a step of the
    write-back pipeline it changes nothing. *)
Theorem writer_delete_is_noop (key : string) (d : DB) (w : SafeWriteBackWriter)
    (s : wb_state DB) :
  wt_delete key d = (Return (), d) ∧
  wb_delete key w d = (Return (), (w, d)) ∧
  wb_step (EvDelete key) s = Some s.
Proof.
  split; [done|]. split; [done|]. by destruct s.
Qed.

End write_back.

Section write_back_log.
Import Store Writer.

Lemma deliver_call_log (ws log : CallLog) : deliver ws log = log ++ ws.
Proof.
  revert log. induction ws as [|[k v] ws IH]; intros log; simpl.
  - by rewrite app_nil_r.
  - rewrite IH. by rewrite <- app_assoc.
Qed.

(** Seen from the database: the [set] calls it has received when [close()]
    returns are the writes made before [close()], in call order. *)
Lemma write_back_calls_in_order (pre mid : list event) (s : wb_state CallLog) :
  has_close pre = false →
  wb_run (pre ++ EvCloseCall :: mid ++ [EvCloseReturn]) (wb_start []) = Some s →
  store s = writes_of pre.
Proof.
  intros Hfirst Hrun.
  assert (Hinv := wb_inv_run _ _ _ Hrun).
  replace (pre ++ EvCloseCall :: mid ++ [EvCloseReturn])
    with ((pre ++ EvCloseCall :: mid) ++ [EvCloseReturn]) in Hrun, Hinv
    by by rewrite <- app_assoc.
  apply wb_run_snoc in Hrun as (s1 & _ & E).
  apply wb_close_return_dead in E as [Hdead _].
  unfold wb_inv in Hinv. rewrite Hdead in Hinv. destruct Hinv as [Hstore _].
  rewrite deliver_call_log in Hstore. simpl in Hstore.
  rewrite !accepted_app, Hfirst in Hstore; simpl in Hstore.
  rewrite app_nil_r, accepted_no_close in Hstore by done.
  destruct (has_close (pre ++ EvCloseCall :: mid)); by rewrite app_nil_r in Hstore.
Qed.

End write_back_log.

Section write_back_examples.
Import Store Writer WriterExamples.

Lemma write_back_drained_on_close_witness :
  ∃ s, wb_run (writes_before_close ++ EvCloseCall :: drain ++ [EvCloseReturn])
         (wb_start (∅ : MockDB)) = Some s ∧
       store s = deliver [("a", "1"); ("b", "2")]%string (∅ : MockDB).
Proof.
  eexists. split; [by vm_compute|].
  apply (write_back_drained_on_close writes_before_close drain); [done|].
  by vm_compute.
Defined.

End write_back_examples.

(** * The cache node *)

Section node_facts.
Import Policy Store Writer Coalescer Node.
Context {P DB : Type} `{EvictionPolicy string P} `{Database DB}.
Implicit Types (n : RobustCache P DB) (c : RequestCoalescer) (key value : string).

Lemma set_writer_same n wr : writer n = Some wr → set_writer (Some wr) n = n.
Proof. destruct n; simpl. by intros ->. Qed.

(** C4.  On a node with the write-through writer, when [db.set] raises
    during [put(key, value)], [put] raises the same exception, storage and
    policy are as before the call, and a [get] of any resident key returns
    what it returned before. *)
Theorem write_through_failure_aborts_put (n : RobustCache P DB)
    (key value : string) (e : exn) (d' : DB)
    (Hwriter : writer n = Some WriteThrough)
    (Hset : db_set (database n) key value = (Raise e, d')) :
  put key value n = (Raise e, set_database d' n) ∧
  storage (snd (put key value n)) = storage n ∧
  eviction (snd (put key value n)) = eviction n ∧
  ∀ c k, is_Some (storage n !! k) →
         fst <$> get k (c, snd (put key value n)) = fst <$> get k (c, n).
Proof.
  assert (Hput : put key value n = (Raise e, set_database d' n)).
  { unfold put. rewrite Hwriter. simpl. unfold wt_write. rewrite Hset.
    by rewrite (set_writer_same n WriteThrough). }
  rewrite Hput. simpl. repeat split.
  intros c k [v Hk]. unfold get, get_hit. simpl. rewrite Hk.
  by destruct (on_access k (eviction n)) as [[[]|e'] p'].
Qed.

End node_facts.

Section node_examples.
Import Policy Store Writer Coalescer Node NodeExamples.

Lemma write_through_failure_aborts_put_witness :
  put "k" "new" write_through_node
  = (Raise (StoreError "unreachable"),
     set_database {| data := {[ "k" := "old" ]}%string; script := [];
                     gets := 0 |}
       write_through_node) ∧
  storage (snd (put "k" "new" write_through_node)) = storage write_through_node ∧
  eviction (snd (put "k" "new" write_through_node)) = eviction write_through_node ∧
  ∀ c k, is_Some (storage write_through_node !! k) →
         fst <$> get k (c, snd (put "k" "new" write_through_node))
         = fst <$> get k (c, write_through_node).
Proof.
  apply write_through_failure_aborts_put; reflexivity.
Defined.

(** The scenarios S1 and S2 of the specification, run on the model. *)
Example s1_lru_eviction_order :
  ∃ s, run_ops s1_ops lru_3 = Some s ∧
       dom (storage s.2) = {[ "a"; "c"; "d" ]}%string.
Proof. eexists. split; by vm_compute. Qed.

Example s2_lfu_eviction :
  ∃ s s', run_ops s2_ops lfu_3 = Some s ∧
          dom (storage s.2) = {[ "a"; "b"; "d" ]}%string ∧
          key_freq (eviction s.2) = {[ "a" := 3; "b" := 2; "d" := 1 ]}%string ∧
          run_ops s2_more_ops s = Some s' ∧
          dom (storage s'.2) = {[ "a"; "b"; "e" ]}%string.
Proof.
  eexists _, _. split; [by vm_compute|]. split; [by vm_compute|].
  split; [by vm_compute|]. split; by vm_compute.
Qed.

(** C1 fails on the code.  Capacity 1, LRU: after [put("", "v1")] and
    [put("a", "v2")] the storage holds two entries.  The policy evicted the
    key [""], which [if victim:] takes for no victim, so nothing was
    deleted. *)
Theorem capacity_exceeded_by_falsy_victim :
  ∃ s, run_ops empty_key_then_a tiny_lru = Some s ∧
       capacity s.2 = 1 ∧
       storage s.2 = {[ "" := "v1"; "a" := "v2" ]}%string ∧
       size (storage s.2) = 2%nat ∧
       ¬ within_capacity s.2.
Proof.
  eexists. split; [by vm_compute|]. split; [done|]. split; [by vm_compute|].
  split; [by vm_compute|]. unfold within_capacity. vm_compute. by intros [].
Qed.

(** C2 fails on the code, from the same defect: in that state the storage
    holds [""] and ["a"] while the policy tracks ["a"] alone. *)
Theorem policy_diverges_after_falsy_victim :
  ∃ s, run_ops empty_key_then_a tiny_lru = Some s ∧
       dom (storage s.2) = {[ ""; "a" ]}%string ∧
       order (eviction s.2) = [ "a"%string ] ∧
       ¬ policy_agrees s.2.
Proof.
  eexists. split; [by vm_compute|]. split; [by vm_compute|]. split; [done|].
  unfold policy_agrees. intros Heq. vm_compute in Heq. done.
Qed.

End node_examples.

(** ** Both policies keep the contract *)

Section policy_laws.
Import Policy Contract.
Context {K : Type} `{Countable K}.

Lemma lru_resident_empty (p : LRUPolicy K) : resident p = ∅ ↔ order p = [].
Proof.
  unfold resident, lru_resident. split; [|by intros ->].
  destruct (order p) as [|x l]; [done|]. intros Heq.
  assert (x ∈ (∅ : gset K)) as Hin; [|by apply not_elem_of_empty in Hin].
  rewrite <- Heq. apply elem_of_list_to_set. by left.
Qed.

Lemma lru_on_access_law (k : K) (p : LRUPolicy K) :
  NoDup (order p) →
  ∃ p', on_access k p = (Return (), p') ∧ NoDup (order p') ∧
        resident p' = {[k]} ∪ resident p.
Proof.
  intros Hnd. eexists. split; [done|]. split; [by apply lru_on_access_nodup|].
  destruct (lru_on_access_order k p Hnd) as (l & Hl & _ & _ & Hmem).
  unfold resident, lru_resident. rewrite Hl. apply set_eq. intros x.
  rewrite elem_of_union, !elem_of_list_to_set, elem_of_app, Hmem,
    list_elem_of_singleton, elem_of_singleton.
  destruct (decide (x = k)); tauto.
Qed.

Lemma lru_evict_law (p : LRUPolicy K) :
  NoDup (order p) → resident p ≠ ∅ →
  ∃ v p', evict p = (Return (Some v), p') ∧ NoDup (order p') ∧
          v ∈ resident p ∧ resident p' = resident p ∖ {[v]}.
Proof.
  intros Hnd Hne. destruct (order p) as [|v rest] eqn:Eo.
  { destruct Hne. by apply lru_resident_empty. }
  apply NoDup_cons in Hnd as [Hv Hrest].
  exists v, {| order := rest |}. simpl. unfold lru_evict. rewrite Eo.
  split; [done|]. split; [done|].
  unfold resident, lru_resident. rewrite Eo. simpl. split.
  - apply elem_of_union. left. by apply elem_of_singleton.
  - apply set_eq. intros x.
    rewrite elem_of_difference, elem_of_union, elem_of_singleton,
      elem_of_list_to_set.
    split; [|tauto]. intros Hx. split; [by right|]. by intros ->.
Qed.

#[export] Instance lru_laws : PolicyLaws K (LRUPolicy K) := {|
  at_rest p := NoDup (order p);
  after_evict p := NoDup (order p);
  on_access_at_rest := lru_on_access_law;
  on_access_after_evict k p Hnd _ := lru_on_access_law k p Hnd;
  evict_at_rest := lru_evict_law
|}.

Lemma lfu_on_access_law (k : K) (p : LFUPolicy K) :
  lfu_wf p ∧ lfu_min_ok p →
  ∃ p', on_access k p = (Return (), p') ∧ (lfu_wf p' ∧ lfu_min_ok p') ∧
        resident p' = {[k]} ∪ resident p.
Proof.
  intros [Hwf Hmin].
  destruct (lfu_on_access_wf k p Hwf) as (p' & E & Hwf' & Hkf).
  exists p'. split; [done|]. split.
  - split; [done|]. pose proof (lfu_on_access_min k p Hwf Hmin) as Hm.
    by rewrite E in Hm.
  - unfold resident, lfu_resident. rewrite Hkf. apply dom_insert_L.
Qed.

Lemma lfu_on_access_new_law (k : K) (p : LFUPolicy K) :
  lfu_wf p → k ∉ resident p →
  ∃ p', on_access k p = (Return (), p') ∧ (lfu_wf p' ∧ lfu_min_ok p') ∧
        resident p' = {[k]} ∪ resident p.
Proof.
  intros Hwf Hk.
  destruct (lfu_on_access_wf k p Hwf) as (p' & E & Hwf' & Hkf).
  exists p'. split; [done|]. split.
  - split; [done|].
    assert (Hnone : key_freq p !! k = None) by by apply not_elem_of_dom.
    pose proof (lfu_on_access_new_min k p Hwf Hnone) as Hm.
    by rewrite E in Hm.
  - unfold resident, lfu_resident. rewrite Hkf. apply dom_insert_L.
Qed.

Lemma lfu_evict_law (p : LFUPolicy K) :
  lfu_wf p ∧ lfu_min_ok p → resident p ≠ ∅ →
  ∃ v p', evict p = (Return (Some v), p') ∧ lfu_wf p' ∧
          v ∈ resident p ∧ resident p' = resident p ∖ {[v]}.
Proof.
  intros [Hwf Hmin] Hne.
  assert (Hkf : key_freq p ≠ ∅).
  { intros Heq. apply Hne. unfold resident, lfu_resident. by rewrite Heq, dom_empty_L. }
  destruct (lfu_evict_wf p Hwf Hmin Hkf) as (v & p' & E & Hwf' & Hv & Hdel & _).
  exists v, p'. split; [done|]. split; [done|].
  unfold resident, lfu_resident. split; [by apply elem_of_dom|].
  rewrite Hdel. apply dom_delete_L.
Qed.

#[export] Instance lfu_laws : PolicyLaws K (LFUPolicy K) := {|
  at_rest p := lfu_wf p ∧ lfu_min_ok p;
  after_evict p := lfu_wf p;
  on_access_at_rest := lfu_on_access_law;
  on_access_after_evict := lfu_on_access_new_law;
  evict_at_rest := lfu_evict_law
|}.

End policy_laws.

(** ** The node invariants, for truthy keys *)

Section node_invariants.
Import Policy Contract Store Writer Coalescer Node.
Context {P DB : Type} `{!EvictionPolicy string P} `{!Resident string P}
  `{!PolicyLaws string P} `{!Database DB}.
Implicit Types (n : RobustCache P DB) (c : RequestCoalescer) (key value : string).

Lemma truthy_nonempty (s : string) : truthy s = true ↔ s ≠ ""%string.
Proof.
  unfold truthy. destruct (String.eqb_spec s ""); simpl; split; done.
Qed.

Lemma put_internal_ok key value n :
  key ≠ ""%string → node_ok n →
  ∃ n', _put_internal key value n = (Return (), n') ∧ node_ok n' ∧
        same_frame n n' ∧ storage n' !! key = Some value.
Proof.
  intros Hkey (Hrest & Hagree & Hcap & Hpos & Hempty).
  unfold policy_agrees, within_capacity in *.
  unfold _put_internal, make_room.
  destruct (decide (storage n !! key = None ∧
                    capacity n ≤ Z.of_nat (size (storage n)))) as [[Hnew Hfull]|Hroom].
  - (* a victim has to go *)
    assert (Hne : resident (eviction n) ≠ ∅).
    { rewrite <- Hagree. intros Hd. apply dom_empty_inv_L in Hd.
      rewrite Hd, map_size_empty in Hfull. lia. }
    destruct (evict_at_rest _ Hrest Hne) as (v & p1 & -> & Hmid & Hv & Hres1).
    rewrite <- Hagree in Hv.
    assert (Hvne : v ≠ ""%string) by (intros ->; done).
    apply truthy_nonempty in Hvne as ->.
    apply elem_of_dom in Hv as [x Hx]. rewrite Hx. simpl.
    assert (Hk1 : key ∉ resident p1).
    { rewrite Hres1, <- Hagree. intros [Hin _]%elem_of_difference.
      by apply not_elem_of_dom in Hnew. }
    destruct (on_access_after_evict key p1 Hmid Hk1) as (p2 & -> & Hrest2 & Hres2).
    eexists. split; [done|]. simpl. split; [|split; [done|apply lookup_insert_eq]].
    unfold node_ok, policy_agrees, within_capacity; simpl.
    repeat split; try done.
    + rewrite dom_insert_L, dom_delete_L, Hres2, Hres1, Hagree. done.
    + rewrite map_size_insert_None.
      * pose proof (map_size_delete_Some v (storage n) (mk_is_Some _ _ Hx)). lia.
      * rewrite lookup_delete_ne; [done|]. intros ->. congruence.
    + rewrite dom_insert_L, dom_delete_L. intros [Hin|Hin]%elem_of_union.
      * apply elem_of_singleton in Hin. done.
      * apply elem_of_difference in Hin as [Hin _]. done.
  - (* the key is resident, or there is room *)
    simpl.
    destruct (on_access_at_rest key _ Hrest) as (p2 & -> & Hrest2 & Hres2).
    eexists. split; [done|]. simpl. split; [|split; [done|apply lookup_insert_eq]].
    unfold node_ok, policy_agrees, within_capacity; simpl.
    repeat split; try done.
    + rewrite dom_insert_L, Hres2, Hagree. done.
    + destruct (storage n !! key) as [x|] eqn:Ek.
      * rewrite map_size_insert_Some; [done|by eexists].
      * rewrite map_size_insert_None by done.
        assert (¬ capacity n ≤ Z.of_nat (size (storage n))) by tauto. lia.
    + rewrite dom_insert_L. intros [Hin|Hin]%elem_of_union; [|done].
      apply elem_of_singleton in Hin. done.
Qed.

Lemma node_ok_frame n n' :
  storage n' = storage n → eviction n' = eviction n →
  capacity n' = capacity n → node_ok n → node_ok n'.
Proof.
  unfold node_ok, policy_agrees, within_capacity. by intros -> -> ->.
Qed.

Lemma put_ok key value n :
  key ≠ ""%string → node_ok n → node_ok (snd (put key value n)).
Proof.
  intros Hkey Hok. unfold put. destruct (writer n) as [wr|].
  - destruct (writer_write key value wr (database n)) as [[[]|e] [wr' d']].
    + destruct (put_internal_ok key value
                  (set_database d' (set_writer (Some wr') n)) Hkey)
        as (n' & -> & Hok' & _); [|done].
      by apply (node_ok_frame n).
    + simpl. by apply (node_ok_frame n).
  - by destruct (put_internal_ok key value n Hkey Hok) as (n' & -> & Hok' & _).
Qed.

Lemma load_from_source_ok key n :
  key ≠ ""%string → node_ok n → node_ok (snd (_load_from_source key n)).
Proof.
  intros Hkey Hok. unfold _load_from_source.
  destruct (db_get (database n) key) as [[[v|]|e] d']; simpl.
  - destruct (put_internal_ok key v (set_database d' n) Hkey)
      as (n' & -> & Hok' & _); [|done].
    by apply (node_ok_frame n).
  - by apply (node_ok_frame n).
  - by apply (node_ok_frame n).
Qed.

(** A call of [do] that finds no record for its key is the leader: it
    returns what its thunk returned, and leaves no record behind. *)
Lemma do_leader {W} key (fn : thunk W) c (w : W) :
  active_requests c !! key = None →
  ∃ c', do key fn (c, w) = Some ((fn w).1, (c', (fn w).2)) ∧
        active_requests c' = active_requests c.
Proof.
  intros Hfree. unfold do. simpl. rewrite Hfree. simpl.
  destruct (fn w) as [r w']. simpl.
  eexists. split; [reflexivity|]. simpl.
  destruct r; simpl; by rewrite delete_insert_id.
Qed.

(** While a record for [key] is installed, a call of [do] on [key] runs no
    thunk: it picks up the record's event and waits. *)
Lemma do_follower {W} key (fn : thunk W) c (w : W) event :
  active_requests c !! key = Some event →
  do_step (AtLock key fn) (c, w) = Some (AtWait key event, (c, w)).
Proof. intros Hin. simpl. by rewrite Hin. Qed.

Lemma get_ok key c n :
  key ≠ ""%string → active_requests c = ∅ → node_ok n →
  ∃ r c' n', get key (c, n) = Some (r, (c', n')) ∧
             active_requests c' = ∅ ∧ node_ok n'.
Proof.
  intros Hkey Hidle Hok. unfold get, get_hit. simpl.
  destruct (storage n !! key) as [v|] eqn:Ek.
  - destruct Hok as (Hrest & Hagree & Hcap & Hpos & Hempty).
    destruct (on_access_at_rest key _ Hrest) as (p2 & -> & Hrest2 & Hres2).
    eexists _, _, _. split; [done|]. split; [done|].
    repeat split; simpl; try done.
    unfold policy_agrees in *; simpl. rewrite Hres2, <- Hagree.
    assert (Hin : key ∈ dom (storage n)) by (apply elem_of_dom; eauto).
    apply set_eq. intros x. rewrite elem_of_union, elem_of_singleton.
    split; [by right|]. by intros [->|?].
  - destruct (loader n).
    + destruct (do_leader key (_load_from_source key) c n) as (c' & -> & Hact).
      { by rewrite Hidle, lookup_empty. }
      eexists _, _, _. split; [done|]. split; [congruence|].
      by apply load_from_source_ok.
    + by eexists _, _, _.
Qed.

(** Every sequence of [get]/[put] on truthy keys runs to its end and keeps
    storage within capacity and in agreement with the policy. *)
Lemma run_ops_ok (ops : list op) c n :
  Forall (λ o, op_key o ≠ ""%string) ops →
  active_requests c = ∅ → node_ok n →
  ∃ c' n', run_ops ops (c, n) = Some (c', n') ∧
           active_requests c' = ∅ ∧ node_ok n'.
Proof.
  intros Hkeys. revert c n.
  induction Hkeys as [|o ops Hkey _ IH]; intros c n Hidle Hok; simpl.
  - by eexists _, _.
  - destruct o as [key|key value]; simpl in *.
    + destruct (get_ok key c n Hkey Hidle Hok) as (r & c' & n' & -> & Hidle' & Hok').
      simpl. by apply IH.
    + apply IH; [done|]. by apply put_ok.
Qed.

Lemma new_cache_ok cap (p : P) ld wr (d : DB) :
  1 ≤ cap → at_rest p → resident p = ∅ → node_ok (new_cache cap p ld wr d).
Proof.
  intros Hcap Hrest Hres. unfold node_ok, policy_agrees, within_capacity; simpl.
  rewrite dom_empty_L, map_size_empty, Hres.
  split; [done|]. split; [done|]. split; [lia|]. split; [done|].
  apply not_elem_of_empty.
Qed.

End node_invariants.

Section fresh_nodes.
Import Policy Contract Store Writer Coalescer Node.
Context {DB : Type} `{!Database DB}.

(** A new node with either policy, capacity at least 1 and truthy keys only:
    every sequence of operations runs to its end, and storage stays within
    capacity and in agreement with the policy. *)
Lemma lru_node_invariants cap ld wr (d : DB) (ops : list op) :
  1 ≤ cap → Forall (λ o, op_key o ≠ ""%string) ops →
  ∃ s, run_ops ops (coalescer_init, new_cache cap (lru_init (K:=string)) ld wr d)
       = Some s ∧ within_capacity s.2 ∧ policy_agrees s.2.
Proof.
  intros Hcap Hkeys.
  destruct (run_ops_ok ops coalescer_init
              (new_cache cap (lru_init (K:=string)) ld wr d) Hkeys)
    as (c' & n' & Hrun & _ & Hok); [done| |].
  - apply new_cache_ok; [done|simpl; constructor|done].
  - exists (c', n'). split; [done|]. split; apply Hok.
Qed.

Lemma lfu_node_invariants cap ld wr (d : DB) (ops : list op) :
  1 ≤ cap → Forall (λ o, op_key o ≠ ""%string) ops →
  ∃ s, run_ops ops (coalescer_init, new_cache cap (lfu_init (K:=string)) ld wr d)
       = Some s ∧ within_capacity s.2 ∧ policy_agrees s.2.
Proof.
  intros Hcap Hkeys.
  destruct (run_ops_ok ops coalescer_init
              (new_cache cap (lfu_init (K:=string)) ld wr d) Hkeys)
    as (c' & n' & Hrun & _ & Hok); [done| |].
  - apply new_cache_ok; [done| |done]. simpl.
    split; [apply lfu_init_wf|]. intros Hne. by destruct Hne.
  - exists (c', n'). split; [done|]. split; apply Hok.
Qed.

End fresh_nodes.

(** * The coalescer across windows *)

Section leader.
Import Sched Coalescer.
Context {W : Type}.
Implicit Types (pc : do_pc W) (s : RequestCoalescer * W)
  (cfg : list (do_pc W) * (RequestCoalescer * W)).

(** The leader's call of its thunk hands it the outcome it will return. *)
Lemma call_carries key event (fn : thunk W) s pc' s' :
  do_step (AtCall key event fn) s = Some (pc', s') → carries (fn s.2).1 pc'.
Proof. simpl. destruct (fn s.2) as [r w']. by intros [= <- <-]. Qed.

Lemma carries_step r pc s pc' s' :
  carries r pc → do_step pc s = Some (pc', s') → carries r pc'.
Proof. destruct pc; simpl; try done; by intros -> [= <- <-]. Qed.

Lemma carries_sched_step r t u cfg cfg' :
  (∃ pc, cfg.1 !! t = Some pc ∧ carries r pc) →
  sched_step do_step u cfg = Some cfg' →
  ∃ pc, cfg'.1 !! t = Some pc ∧ carries r pc.
Proof.
  intros (pc & Ht & Hc). unfold sched_step.
  destruct (cfg.1 !! u) as [pcu|] eqn:Eu; [|done].
  destruct (do_step pcu cfg.2) as [[pcu' s']|] eqn:Es; [|done].
  intros [= <-]. simpl. destruct (decide (u = t)) as [->|Hne].
  - exists pcu'. split.
    + apply list_lookup_insert_eq. by eapply lookup_lt_Some.
    + rewrite Ht in Eu. injection Eu as <-. by eapply carries_step.
  - exists pc. split; [|done]. by rewrite list_lookup_insert_ne.
Qed.

(** Whatever the other threads do, a leader that has called its thunk
    returns the outcome of that call, if it returns. *)
Lemma leader_returns_own_outcome r t schedule cfg cfg' r' :
  (∃ pc, cfg.1 !! t = Some pc ∧ carries r pc) →
  sched_run do_step schedule cfg = Some cfg' →
  cfg'.1 !! t = Some (Finished r') → r' = r.
Proof.
  revert cfg. induction schedule as [|u schedule IH]; intros cfg Hc; simpl.
  - intros [= <-] Ht. destruct Hc as (pc & Hpc & Hcar).
    rewrite Ht in Hpc. injection Hpc as <-. done.
  - destruct (sched_step do_step u cfg) as [cfg1|] eqn:E; [|done].
    apply IH. by eapply carries_sched_step.
Qed.

End leader.

Section coalescer_examples.
Import Sched Coalescer CoalescerExamples.

(** C7 fails on the code.  A first call of [do("x", ...)] raises and is
    over, its record removed.  A later call starts a fresh window and its
    thunk returns ["v2"]; the follower that joins this window raises the
    error of the first one, which [errors] still holds. *)
Theorem follower_sees_error_of_earlier_window :
  ∃ mid final,
    sched_run do_step first_window (three_calls, (coalescer_init, ())) = Some mid ∧
    mid.1 !! 0%nat = Some (Finished (Raise (StoreError "down"))) ∧
    active_requests mid.2.1 = ∅ ∧
    sched_run do_step second_window mid = Some final ∧
    final.1 = [Finished (Raise (StoreError "down"));
               Finished (Return (Some "v2"%string));
               Finished (Raise (StoreError "down"))].
Proof.
  eexists _, _. split; [by vm_compute|]. split; [done|]. split; [done|].
  split; [by vm_compute|]. done.
Qed.

End coalescer_examples.

Section node_threads.
Import Policy Store Sched Coalescer Node NodeExamples.

(** C5 fails on the code, from the same defect.  After a [get("x")] whose
    load failed the cache is still empty.  Two concurrent [get("x")] then
    share one window, in which the loader runs once: the leader returns
    ["v"], and the follower raises the old error. *)
Theorem concurrent_gets_disagree :
  ∃ mid final,
    sched_run get_step failed_get (three_gets, loading_node) = Some mid ∧
    storage mid.2.2 = ∅ ∧ loader mid.2.2 = true ∧
    active_requests mid.2.1 = ∅ ∧ gets (database mid.2.2) = 1%nat ∧
    sched_run get_step concurrent_gets mid = Some final ∧
    final.1 = [InDo (Finished (Raise (StoreError "down")));
               InDo (Finished (Return (Some "v"%string)));
               InDo (Finished (Raise (StoreError "down")))] ∧
    gets (database final.2.2) = 2%nat ∧
    storage final.2.2 = {[ "x" := "v" ]}%string.
Proof.
  eexists _, _. split; [by vm_compute|]. split; [done|]. split; [done|].
  split; [done|]. split; [done|]. split; [by vm_compute|]. split; [done|].
  split; [done|]. by vm_compute.
Qed.

End node_threads.

(** * The hash ring *)

Section bisect_facts.
Import Ring.
Implicit Types (a : list Z) (x : Z) (lo hi i j : nat).

Lemma sorted_lookup_le a i j y z :
  StronglySorted Z.le a → (i ≤ j)%nat →
  a !! i = Some y → a !! j = Some z → y ≤ z.
Proof.
  intros Hs. revert i j. induction Hs as [|w a Hs IH Hall]; intros i j Hij.
  - by rewrite lookup_nil.
  - destruct i as [|i], j as [|j]; simpl.
    + intros [= <-] [= <-]. lia.
    + intros [= <-] Hz. rewrite Forall_forall in Hall.
      apply Hall. by eapply list_elem_of_lookup_2.
    + lia.
    + apply IH. lia.
Qed.

Lemma bisect_loop_S fuel a x lo hi :
  bisect_loop (S fuel) a x lo hi =
  if decide (lo < hi)%nat then
    match a !! ((lo + hi) `div` 2)%nat with
    | Some a_mid =>
        if decide (x < a_mid)
        then bisect_loop fuel a x lo ((lo + hi) `div` 2)%nat
        else bisect_loop fuel a x ((lo + hi) `div` 2 + 1)%nat hi
    | None => lo
    end
  else lo.
Proof. reflexivity. Qed.

Lemma bisect_loop_spec fuel a x lo hi :
  StronglySorted Z.le a → (hi - lo ≤ fuel)%nat → brackets a x lo hi →
  brackets a x (bisect_loop fuel a x lo hi) (bisect_loop fuel a x lo hi).
Proof.
  intros Hs. revert lo hi.
  induction fuel as [|fuel IH]; intros lo hi Hfuel (Hb & Hlow & Hhigh).
  - simpl. assert (lo = hi) as -> by lia. repeat split; [lia..|done|done].
  - rewrite bisect_loop_S. destruct (decide (lo < hi)%nat) as [Hlt|Hge].
    + pose proof (Nat.div_mod_eq (lo + hi) 2) as Hdiv.
      pose proof (Nat.mod_upper_bound (lo + hi) 2) as Hmod.
      set (mid := ((lo + hi) `div` 2)%nat) in *.
      assert (Hmid : (lo ≤ mid < hi)%nat) by lia.
      destruct (a !! mid) as [a_mid|] eqn:Emid.
      2:{ apply lookup_ge_None in Emid. lia. }
      destruct (decide (x < a_mid)) as [Hx|Hx].
      * apply IH; [lia|]. repeat split; [lia..|done|].
        intros i y Hi Hy.
        pose proof (sorted_lookup_le a mid i a_mid y Hs Hi Emid Hy). lia.
      * apply IH; [lia|]. repeat split; [lia..| |done].
        intros i y Hi Hy.
        assert (Hle : (i ≤ mid)%nat) by lia.
        pose proof (sorted_lookup_le a i mid y a_mid Hs Hle Hy Emid). lia.
    + assert (lo = hi) as -> by lia. repeat split; [lia..|done|done].
Qed.

(** On a sorted list [bisect] returns the index that parts the entries up
    to [x] from the entries above [x]. *)
Lemma bisect_spec a x :
  StronglySorted Z.le a →
  (bisect a x ≤ length a)%nat ∧
  (∀ i y, (i < bisect a x)%nat → a !! i = Some y → y ≤ x) ∧
  (∀ i y, (bisect a x ≤ i)%nat → a !! i = Some y → x < y).
Proof.
  intros Hs. unfold bisect.
  destruct (bisect_loop_spec (length a) a x 0 (length a) Hs)
    as ((_ & Hb) & Hlow & Hhigh).
  - lia.
  - repeat split; [lia..| |].
    + intros i y Hi. lia.
    + intros i y Hi Hy. apply lookup_lt_Some in Hy. lia.
  - done.
Qed.

End bisect_facts.

Section ring_facts.
Import Ring.
Context (_hash : string → Z).
Implicit Types (r : ConsistentHashing) (a : list Z) (x : Z).

Lemma insort_spec a x :
  StronglySorted Z.le a →
  StronglySorted Z.le (insort a x) ∧ ∀ y, y ∈ insort a x ↔ y = x ∨ y ∈ a.
Proof.
  intros Hs. destruct (bisect_spec a x Hs) as (Hlen & Hlow & Hhigh).
  unfold insort. set (lo := bisect a x) in *.
  assert (Hsplit : a = take lo a ++ drop lo a) by by rewrite take_drop.
  assert (Htake : ∀ y, y ∈ take lo a → y ≤ x).
  { intros y [i Hi]%list_elem_of_lookup_1.
    apply lookup_take_Some in Hi as [Hi Hlt]. by eapply Hlow. }
  assert (Hdrop : ∀ y, y ∈ drop lo a → x < y).
  { intros y [i Hi]%list_elem_of_lookup_1.
    rewrite lookup_drop in Hi. eapply Hhigh; [|done]. lia. }
  rewrite Hsplit in Hs. apply StronglySorted_app in Hs as (Hcross & Hs1 & Hs2).
  split.
  - apply StronglySorted_app_2; [|done|].
    + intros y z Hy [->|Hz]%elem_of_cons.
      * by apply Htake.
      * apply Htake in Hy. apply Hdrop in Hz. lia.
    + constructor; [done|]. apply Forall_forall. intros z Hz.
      apply Hdrop in Hz. lia.
  - intros y. assert (Hy : y ∈ a ↔ y ∈ take lo a ∨ y ∈ drop lo a).
    { rewrite <- elem_of_app. by rewrite take_drop. }
    rewrite Hy, elem_of_app, elem_of_cons. tauto.
Qed.

Lemma add_replica_wf node r i : ring_wf r → ring_wf (add_replica _hash node r i).
Proof.
  intros [Hs Hpos]. destruct (insort_spec (sorted_keys r)
    (_hash (node +:+ ":" +:+ pretty i)) Hs) as [Hs' Hmem].
  split; simpl; [done|]. intros pos.
  rewrite Hmem, dom_insert_L, elem_of_union, elem_of_singleton, Hpos. done.
Qed.

Lemma add_node_wf node r : ring_wf r → ring_wf (add_node _hash node r).
Proof.
  unfold add_node. generalize (seq 0 (Z.to_nat (replicas r))). intros idxs.
  revert r. induction idxs as [|i idxs IH]; intros r Hwf; simpl; [done|].
  apply IH. by apply add_replica_wf.
Qed.

(** Every ring the constructor builds is well formed. *)
Lemma new_ring_wf nodes R : ring_wf (new_ring _hash nodes R).
Proof.
  unfold new_ring.
  assert (Hinit : ring_wf {| replicas := R; ring := ∅; sorted_keys := [] |}).
  { split; simpl; [constructor|]. intros pos. rewrite dom_empty_L.
    split; [by intros ?%not_elem_of_nil|by intros ?%not_elem_of_empty]. }
  revert Hinit. generalize {| replicas := R; ring := ∅; sorted_keys := [] |}.
  induction nodes as [|node nodes IH]; intros r Hwf; simpl; [done|].
  apply IH. by apply add_node_wf.
Qed.

Lemma py_remove_sorted a x :
  StronglySorted Z.le a → StronglySorted Z.le (py_remove x a).
Proof.
  induction 1 as [|y a Hs IH Hall]; simpl; [constructor|].
  destruct (decide (x = y)); [done|]. constructor; [done|].
  rewrite Forall_forall in *. intros z Hz. apply Hall.
  by apply elem_of_py_remove_sub in Hz.
Qed.

Lemma remove_position_wf key r :
  ring_wf r → NoDup (sorted_keys r) → key ∈ dom (ring r) →
  ∃ r', remove_position key r = (Return (), r') ∧ ring_wf r' ∧
        NoDup (sorted_keys r') ∧ ring r' = delete key (ring r).
Proof.
  intros [Hs Hpos] Hnd Hkey. unfold remove_position.
  rewrite decide_True by by apply Hpos.
  destruct (NoDup_py_remove key _ Hnd) as [Hnd' Hout].
  eexists. split; [done|]. split; [|done]. split; simpl.
  - by apply py_remove_sorted.
  - intros pos. rewrite dom_delete_L, elem_of_difference, elem_of_singleton, <- Hpos.
    destruct (decide (pos = key)) as [->|Hne]; [tauto|].
    rewrite elem_of_py_remove_ne by done. tauto.
Qed.

Lemma remove_positions_wf keys r :
  ring_wf r → NoDup (sorted_keys r) → NoDup keys →
  (∀ key, key ∈ keys → key ∈ dom (ring r)) →
  ∃ r', remove_positions keys r = (Return (), r') ∧ ring_wf r' ∧
        NoDup (sorted_keys r') ∧ dom (ring r') = dom (ring r) ∖ list_to_set keys.
Proof.
  revert r. induction keys as [|key keys IH]; intros r Hwf Hnd Hkeys Hin; simpl.
  - exists r. repeat split; try done; try apply Hwf.
    apply set_eq. intros pos. rewrite elem_of_difference.
    split; [|tauto]. intros Hp. split; [done|]. apply not_elem_of_empty.
  - apply NoDup_cons in Hkeys as [Hfresh Hkeys].
    destruct (remove_position_wf key r Hwf Hnd) as (r1 & -> & Hwf1 & Hnd1 & Hring1).
    { apply Hin. by left. }
    destruct (IH r1 Hwf1 Hnd1 Hkeys) as (r2 & -> & Hwf2 & Hnd2 & Hdom2).
    { intros k Hk. rewrite Hring1, dom_delete_L, elem_of_difference, elem_of_singleton.
      split; [apply Hin; by right|]. by intros ->. }
    exists r2. repeat split; try done; try apply Hwf2.
    rewrite Hdom2, Hring1, dom_delete_L. apply set_eq. intros pos.
    rewrite !elem_of_difference, elem_of_union, !elem_of_singleton. tauto.
Qed.

(** On a well-formed ring without repeated positions [remove_node] returns
    and leaves such a ring, without the positions of [node]. *)
Lemma remove_node_wf node r :
  ring_wf r → NoDup (sorted_keys r) →
  ∃ r', remove_node node r = (Return (), r') ∧ ring_wf r' ∧
        NoDup (sorted_keys r') ∧
        ∀ pos, pos ∈ dom (ring r') ↔
               ∃ label, ring r !! pos = Some label ∧ label ≠ node.
Proof.
  intros Hwf Hnd. unfold remove_node.
  assert (Hkeys : ∀ key, key ∈ keys_to_remove node r ↔ ring r !! key = Some node).
  { intros key. unfold keys_to_remove. rewrite list_elem_of_fmap. split.
    - intros ([k n] & -> & Hkn). apply elem_of_map_to_list in Hkn.
      apply map_lookup_filter_Some in Hkn as [Hk Hn]. simpl in *. by subst.
    - intros Hk. exists (key, node). split; [done|].
      apply elem_of_map_to_list. by apply map_lookup_filter_Some. }
  destruct (remove_positions_wf (keys_to_remove node r) r Hwf Hnd)
    as (r' & E & Hwf' & Hnd' & Hdom).
  - apply NoDup_fst_map_to_list.
  - intros key Hk. apply Hkeys in Hk. apply elem_of_dom. eauto.
  - exists r'. repeat split; try done; try apply Hwf'.
    + rewrite Hdom, elem_of_difference, elem_of_list_to_set, Hkeys, elem_of_dom.
      intros [[label Hl] Hn]. exists label. split; [done|]. by intros ->.
    + intros (label & Hl & Hn). rewrite Hdom, elem_of_difference,
        elem_of_list_to_set, Hkeys, elem_of_dom. split; [eauto|congruence].
Qed.

Lemma insort_nodup a x : StronglySorted Z.le a → NoDup a → x ∉ a → NoDup (insort a x).
Proof.
  intros Hs Hnd Hx. unfold insort.
  rewrite <- (take_drop (bisect a x) a) in Hnd, Hx.
  apply NoDup_app in Hnd as (Hnd1 & Hcross & Hnd2).
  apply not_elem_of_app in Hx as [Hx1 Hx2].
  apply NoDup_app. split; [done|]. split.
  - intros y Hy [->|Hy']%elem_of_cons; [done|]. by eapply Hcross.
  - by constructor.
Qed.

Lemma add_replicas_nodup node idxs r :
  ring_wf r → NoDup (sorted_keys r) →
  NoDup ((λ i : nat, _hash (node +:+ ":" +:+ pretty i)) <$> idxs) →
  (∀ pos, pos ∈ (λ i : nat, _hash (node +:+ ":" +:+ pretty i)) <$> idxs →
          pos ∉ dom (ring r)) →
  NoDup (sorted_keys (foldl (add_replica _hash node) r idxs)).
Proof.
  revert r. induction idxs as [|i idxs IH]; intros r Hwf Hnd Hpos Hfresh; simpl;
    [done|].
  simpl in Hpos. apply NoDup_cons in Hpos as [Hi Hpos].
  apply IH; [by apply add_replica_wf| |done|].
  - simpl. apply insort_nodup; [apply Hwf|done|].
    rewrite (wf_positions _ Hwf). apply Hfresh. by left.
  - intros pos Hin. simpl. rewrite dom_insert_L.
    intros [Heq|Hdom]%elem_of_union.
    + apply elem_of_singleton in Heq as ->. done.
    + revert Hdom. apply Hfresh. by right.
Qed.

(** Every ring built without a repeated position is well formed. *)
Lemma ring_built_wf r : ring_built _hash r → ring_wf r ∧ NoDup (sorted_keys r).
Proof.
  induction 1 as [R|node r Hb [Hwf Hnd] Hpos Hfresh|node r Hb [Hwf Hnd]].
  - split; [|constructor]. split; simpl; [constructor|]. intros pos.
    rewrite dom_empty_L.
    split; [by intros ?%not_elem_of_nil|by intros ?%not_elem_of_empty].
  - split; [by apply add_node_wf|]. by apply add_replicas_nodup.
  - destruct (remove_node_wf node r Hwf Hnd) as (r' & -> & Hwf' & Hnd' & _).
    done.
Qed.

(** The lookup on a well-formed ring: [get_node(key)] returns absent when
    the ring holds no positions; otherwise it returns the label of the least
    position strictly greater than [H(key)], or the label of the least
    position of all when none is greater.  Rings that are not well-formed
    are reachable, see [ring_stale] below. *)
Theorem get_node_clockwise_successor (key : string) (r : ConsistentHashing)
    (Hwf : ring_wf r) :
  (ring r = ∅ → get_node _hash key r = Return None) ∧
  (ring r ≠ ∅ →
   ∃ pos label, get_node _hash key r = Return (Some label) ∧
                ring r !! pos = Some label ∧
                successor (_hash key) pos r).
Proof.
  destruct Hwf as [Hs Hpos]. unfold get_node. split.
  - intros Hemp. by rewrite decide_True.
  - intros Hne. rewrite decide_False by done.
    destruct (bisect_spec (sorted_keys r) (_hash key) Hs) as (Hlen & Hlow & Hhigh).
    set (a := sorted_keys r) in *. set (h := _hash key) in *.
    assert (Hlabel : ∀ pos, pos ∈ a → ∃ label, ring r !! pos = Some label).
    { intros pos Hin. apply Hpos in Hin. by apply elem_of_dom in Hin. }
    assert (Hidx : ∀ q, q ∈ dom (ring r) → ∃ j, a !! j = Some q).
    { intros q Hq. apply Hpos in Hq. by apply list_elem_of_lookup_1. }
    destruct (decide (bisect a h = length a)) as [Hend|Hin].
    + (* past the end: wrap to index 0 *)
      destruct a as [|p0 a'] eqn:Ea.
      { destruct Hne. apply dom_empty_inv_L. apply set_eq. intros q.
        rewrite <- Hpos. split; [by intros ?%not_elem_of_nil|by intros ?%not_elem_of_empty]. }
      simpl. destruct (Hlabel p0) as [label Hl]; [by left|].
      rewrite Hl. exists p0, label. split; [done|]. split; [done|].
      split; [apply elem_of_dom; eauto|]. right. split.
      * intros q Hq. destruct (Hidx q Hq) as [j Hj].
        eapply Hlow; [|done]. apply lookup_lt_Some in Hj. lia.
      * intros q Hq. destruct (Hidx q Hq) as [j Hj].
        eapply (sorted_lookup_le (p0 :: a') 0 j); [done|lia|done|done].
    + (* the position at the index found *)
      destruct (a !! bisect a h) as [p|] eqn:Ep.
      2:{ apply lookup_ge_None in Ep. lia. }
      destruct (Hlabel p) as [label Hl]; [by eapply list_elem_of_lookup_2|].
      rewrite Hl. exists p, label. split; [done|]. split; [done|].
      split; [apply elem_of_dom; eauto|]. left. split.
      * eapply Hhigh; [|done]. lia.
      * intros q Hq Hhq. destruct (Hidx q Hq) as [j Hj].
        destruct (decide (j < bisect a h)%nat) as [Hj'|Hj'].
        -- pose proof (Hlow j q Hj' Hj). lia.
        -- eapply (sorted_lookup_le a (bisect a h) j); [done|lia|done|done].
Qed.

End ring_facts.

Section ring_examples.
Import Ring RingExamples.

Lemma get_node_clockwise_successor_witness :
  (ring two_positions = ∅ → get_node toy_hash "abc" two_positions = Return None) ∧
  (ring two_positions ≠ ∅ →
   ∃ pos label, get_node toy_hash "abc" two_positions = Return (Some label) ∧
                ring two_positions !! pos = Some label ∧
                successor (toy_hash "abc") pos two_positions).
Proof.
  apply (get_node_clockwise_successor toy_hash "abc" two_positions).
  split; simpl.
  - repeat constructor; lia.
  - intros pos. rewrite dom_insert_L, dom_singleton_L.
    rewrite !elem_of_cons, elem_of_union, !elem_of_singleton.
    split; [intros [?|[?|?%not_elem_of_nil]]|intros [?|?]]; tauto.
Defined.

End ring_examples.

(* ================================================================== *)
(** * Further properties of the code *)

(** ** The eviction order of LRU *)

Section lru_order.
Import Policy.
Context {K : Type} `{Countable K}.
Implicit Types (p : LRUPolicy K) (k : K) (ks : list K).

Lemma run_snoc `{EvictionPolicy K P} (cs : list (call K)) (c : call K) (p : P) :
  run (cs ++ [c]) p = exec c (run cs p).
Proof. unfold run. by rewrite foldl_app. Qed.

Lemma remove_dups_snoc ks k :
  remove_dups (ks ++ [k]) = py_remove k (remove_dups ks) ++ [k].
Proof.
  induction ks as [|x ks IH]; simpl; [done|].
  rewrite IH.
  destruct (decide_rel elem_of x (ks ++ [k])) as [H1|H1],
           (decide_rel elem_of x ks) as [H2|H2]; simpl.
  - done.
  - apply elem_of_app in H1 as [?|Hxk%list_elem_of_singleton]; [done|].
    subst x. rewrite decide_True by done. rewrite py_remove_notin; [done|].
    by rewrite elem_of_remove_dups.
  - destruct H1. apply elem_of_app. by left.
  - rewrite decide_False; [done|]. intros ->.
    apply H1, elem_of_app. right. by left.
Qed.

(** X1.  After any sequence of [on_access] calls on a new LRU policy,
    [order] lists the distinct keys by the time of their last access, the
    oldest first; that first key is what [evict] returns. *)
Theorem lru_order_by_last_access (ks : list K) :
  order (run (OnAccess <$> ks) lru_init) = remove_dups ks ∧
  (lru_evict (run (OnAccess <$> ks) lru_init)).1 = head (remove_dups ks).
Proof.
  assert (Horder : order (run (OnAccess <$> ks) lru_init) = remove_dups ks).
  { induction ks as [|k ks IH] using rev_ind; [done|].
    unfold run in *. rewrite fmap_app, foldl_app. simpl.
    rewrite IH, remove_dups_snoc.
    destruct (decide (k ∈ remove_dups ks)) as [Hin|Hin]; [done|].
    by rewrite py_remove_notin. }
  split; [done|]. unfold lru_evict. rewrite Horder.
  by destruct (remove_dups ks).
Qed.

(** X2.  In a reachable LRU state that holds a key other than [k], the
    [evict] that follows [on_access(k)] returns another key and leaves [k]
    in the policy. *)
Theorem lru_touched_key_survives (p : LRUPolicy K) (k x : K)
    (Hreach : lru_reachable p) (Hx : x ∈ order p) (Hne : x ≠ k) :
  ∃ v p', lru_evict (lru_on_access k p) = (Some v, p') ∧ v ≠ k ∧ k ∈ order p'.
Proof.
  pose proof (lru_reachable_nodup p Hreach) as Hnd.
  destruct (lru_on_access_order k p Hnd) as (l & Hl & Hk & _ & Hmem).
  unfold lru_evict. rewrite Hl.
  destruct l as [|v l]; simpl.
  - assert (Hin : x ∈ ([] : list K)) by (apply Hmem; done).
    by apply not_elem_of_nil in Hin.
  - eexists _, _. split; [done|]. simpl. split.
    + intros ->. apply Hk. by left.
    + apply elem_of_app. right. by left.
Qed.

End lru_order.

(** ** Frequencies and victims of LFU *)

Section lfu_more.
Import Policy.
Context {K : Type} `{Countable K}.
Implicit Types (p : LFUPolicy K) (k : K) (ks : list K).

Lemma accesses_driven ks : lfu_driven (run (OnAccess <$> ks) (lfu_init (K:=K))).
Proof.
  induction ks as [|k ks IH] using rev_ind; [apply driven_init|].
  unfold run in *. rewrite fmap_app, foldl_app. simpl. by apply driven_access.
Qed.

(** X3.  After any sequence of [on_access] calls on a new LFU policy,
    [key_freq] holds for every key the number of calls made for it, and no
    entry for a key never accessed. *)
Theorem lfu_counts_accesses (ks : list K) (k : K) :
  key_freq (run (OnAccess <$> ks) lfu_init) !! k =
  match length (filter (λ x, x = k) ks) with
  | O => None
  | S n => Some (Z.of_nat (S n))
  end.
Proof.
  induction ks as [|k' ks IH] using rev_ind; [done|].
  pose proof (lfu_driven_inv _ (accesses_driven ks)) as [Hwf _].
  destruct (lfu_on_access_wf k' _ Hwf) as (p' & E & _ & Hkf).
  unfold run in *. rewrite fmap_app, foldl_app. simpl. rewrite E. simpl.
  rewrite Hkf, filter_app, length_app.
  destruct (decide (k' = k)) as [->|Hne].
  - rewrite lookup_insert_eq, IH, filter_cons_True by done. simpl.
    destruct (length (filter (λ x, x = k) ks)) as [|n]; simpl; f_equal; lia.
  - rewrite lookup_insert_ne, IH, filter_cons_False by done. simpl.
    by rewrite Nat.add_0_r.
Qed.

(** X4.  In a state reached the way the node drives the policy and holding
    some key, [evict] returns the first key of the bucket of [min_freq]; no
    tracked key has a lower frequency than that key, and it is the one key
    that [key_freq] loses. *)
Theorem lfu_evicts_least_frequent (p : LFUPolicy K)
    (Hd : lfu_driven p) (Hne : key_freq p ≠ ∅) :
  ∃ v rest p',
    lfu_evict p = (Return (Some v), p') ∧
    bucket (freq_keys p) (min_freq p) = v :: rest ∧
    key_freq p !! v = Some (min_freq p) ∧
    (∀ k f, key_freq p !! k = Some f → min_freq p ≤ f) ∧
    key_freq p' = delete v (key_freq p).
Proof.
  destruct (lfu_driven_inv p Hd) as [[Hbij Hnd Hnonempty Hpos] Hmin].
  destruct (Hmin Hne) as [[k0 Hk0] Hlow].
  apply Hbij in Hk0. unfold lfu_evict. rewrite decide_False by done.
  destruct (bucket (freq_keys p) (min_freq p)) as [|v rest] eqn:Eb;
    [by apply not_elem_of_nil in Hk0|].
  assert (Hv : key_freq p !! v = Some (min_freq p)).
  { apply Hbij. rewrite Eb. by left. }
  rewrite Hv. by eexists _, _, _.
Qed.

(** X5.  In every state that calls of [on_access] and [evict] can reach,
    also through calls of [evict] that raised, [on_access] returns normally
    and the key is tracked afterwards. *)
Theorem lfu_on_access_never_raises (p : LFUPolicy K) (k : K)
    (Hreach : lfu_reachable p) :
  ∃ p', lfu_on_access k p = (Return (), p') ∧ is_Some (key_freq p' !! k).
Proof.
  pose proof (lfu_reachable_filed p Hreach) as Hf.
  destruct (lfu_on_access_returns k p Hf) as (p' & E & Hk).
  exists p'. split; [done|]. by rewrite Hk.
Qed.

(** X6.  When the bucket of [min_freq] holds a single key and the policy
    tracks another key as well, [evict] returns the single key, and an
    [evict] directly after it raises [KeyError]: [min_freq] still names the
    bucket that is gone.  That second call evicts nothing and leaves an empty
    bucket behind. *)
Theorem lfu_second_evict_raises (p : LFUPolicy K) (v k : K)
    (Hd : lfu_driven p)
    (Hsingle : bucket (freq_keys p) (min_freq p) = [v])
    (Hother : k ≠ v ∧ is_Some (key_freq p !! k)) :
  ∃ p1 p2,
    lfu_evict p = (Return (Some v), p1) ∧
    lfu_evict p1 = (Raise KeyError, p2) ∧
    key_freq p2 = delete v (key_freq p) ∧
    freq_keys p2 !! min_freq p = Some [].
Proof.
  destruct (lfu_driven_inv p Hd) as [[Hbij Hnd Hnonempty Hpos] Hmin].
  destruct Hother as [Hkv [f Hk]].
  assert (Hne : key_freq p ≠ ∅).
  { intros Heq. by rewrite Heq, lookup_empty in Hk. }
  assert (Hv : key_freq p !! v = Some (min_freq p)).
  { apply Hbij. rewrite Hsingle. by left. }
  unfold lfu_evict at 1. rewrite decide_False by done.
  rewrite Hsingle, Hv. eexists _, _. split; [done|].
  unfold lfu_evict. simpl. rewrite decide_False.
  - rewrite bucket_delete, decide_True by done. split; [done|]. simpl.
    split; [done|]. by rewrite lookup_insert_eq.
  - intros Heq. apply (f_equal (λ m, m !! k)) in Heq.
    rewrite lookup_delete_ne, lookup_empty in Heq by done. congruence.
Qed.

End lfu_more.

(** ** One call of [do], one [get], one [put] *)

Section alone.
Import Coalescer.
Context {W : Type}.

Lemma do_leader_closed key (fn : thunk W) c (w : W) :
  active_requests c !! key = None →
  do key fn (c, w) = Some ((fn w).1, (window_closed key (fn w).1 c, (fn w).2)).
Proof.
  intros Hfree. unfold do. simpl. rewrite Hfree. simpl.
  destruct (fn w) as [r w']. simpl. unfold window_closed.
  assert (Hev : <[length (events c) := true]> (events c ++ [false])
                = events c ++ [true]).
  { rewrite insert_app_r_alt by lia. by rewrite Nat.sub_diag. }
  destruct r; simpl; rewrite Hev, delete_insert_eq; done.
Qed.

(** X7.  A call of [do(key, fn)] that finds no record for [key] and runs
    undisturbed calls [fn] once on the state it finds and returns or raises
    what [fn] did.  Afterwards the outcome is filed under [key] (a value in
    [results], an error in [errors]), there is no record for [key], and the
    records of other keys are as before. *)
Theorem do_alone_files_outcome (key : string) (fn : thunk W)
    (c : RequestCoalescer) (w : W)
    (Hfree : active_requests c !! key = None) :
  ∃ c', do key fn (c, w) = Some ((fn w).1, (c', (fn w).2)) ∧
        active_requests c' = active_requests c ∧
        match (fn w).1 with
        | Return v => results c' !! key = Some v ∧ errors c' = errors c
        | Raise e => errors c' !! key = Some e ∧ results c' = results c
        end.
Proof.
  exists (window_closed key (fn w).1 c).
  split; [by apply do_leader_closed|]. split.
  - simpl. by apply delete_id.
  - destruct (fn w).1; simpl; by rewrite lookup_insert_eq.
Qed.

End alone.

Section node_more.
Import Policy Contract Store Writer Coalescer Node.
Context {P DB : Type} `{!EvictionPolicy string P} `{!Resident string P}
  `{!PolicyLaws string P} `{!Database DB}.
Implicit Types (n : RobustCache P DB) (c : RequestCoalescer) (key value : string).

Lemma get_hit_ok key value n :
  node_ok n → storage n !! key = Some value →
  ∃ p', get_hit key n = Some (Return (Some value), set_eviction p' n) ∧
        node_ok (set_eviction p' n).
Proof.
  intros (Hrest & Hagree & Hcap & Hpos & Hempty) Hk. unfold get_hit. rewrite Hk.
  destruct (on_access_at_rest key _ Hrest) as (p2 & -> & Hrest2 & Hres2).
  exists p2. split; [done|].
  unfold node_ok, policy_agrees, within_capacity in *; simpl.
  repeat split; try done. rewrite Hres2, <- Hagree.
  assert (Hin : key ∈ dom (storage n)) by (apply elem_of_dom; eauto).
  apply set_eq. intros x. rewrite elem_of_union, elem_of_singleton.
  split; [by right|]. by intros [->|?].
Qed.

Lemma put_returns key value n n' :
  key ≠ ""%string → node_ok n → put key value n = (Return (), n') →
  node_ok n' ∧ storage n' !! key = Some value.
Proof.
  intros Hkey Hok. unfold put. destruct (writer n) as [wr|].
  - destruct (writer_write key value wr (database n)) as [[[]|e] [wr' d']];
      [|done].
    destruct (put_internal_ok key value
                (set_database d' (set_writer (Some wr') n)) Hkey)
      as (m & -> & Hok' & _ & Hv); [by apply (node_ok_frame n)|].
    by intros [= <-].
  - destruct (put_internal_ok key value n Hkey Hok) as (m & -> & Hok' & _ & Hv).
    by intros [= <-].
Qed.

(** X8.  On a node in its invariant, a [put(key, value)] with a truthy key
    that returns normally is seen by the next [get(key)]: the [get] is a hit,
    returns [value], and changes neither storage nor the coalescer. *)
Theorem put_then_get (n n' : RobustCache P DB) (key value : string)
    (c : RequestCoalescer)
    (Hkey : key ≠ ""%string) (Hok : node_ok n)
    (Hput : put key value n = (Return (), n')) :
  ∃ n'', get key (c, n') = Some (Return (Some value), (c, n'')) ∧
         storage n'' = storage n'.
Proof.
  destruct (put_returns key value n n' Hkey Hok Hput) as [Hok' Hv].
  destruct (get_hit_ok key value n' Hok' Hv) as (p' & Hhit & _).
  unfold get. simpl. rewrite Hhit. by eexists.
Qed.

(** X9.  Read-through: a [get] that misses on a node with a loader, with no
    load for the key in flight, returns the value the database holds, stores
    it under the key and files it in the coalescer; the [get] after it is a
    hit that returns the same value without a call to the database. *)
Theorem get_miss_loads_and_caches (n : RobustCache P DB) (key value : string)
    (c : RequestCoalescer) (d' : DB)
    (Hkey : key ≠ ""%string) (Hok : node_ok n)
    (Hmiss : storage n !! key = None) (Hloader : loader n = true)
    (Hfree : active_requests c !! key = None)
    (Hdb : db_get (database n) key = (Return (Some value), d')) :
  ∃ c' n',
    get key (c, n) = Some (Return (Some value), (c', n')) ∧
    storage n' !! key = Some value ∧ database n' = d' ∧
    results c' !! key = Some (Some value) ∧
    ∃ n'', get key (c', n') = Some (Return (Some value), (c', n'')) ∧
           database n'' = d'.
Proof.
  destruct (put_internal_ok key value (set_database d' n) Hkey)
    as (m & Hput & Hok' & (_ & _ & _ & Hd) & Hv); [by apply (node_ok_frame n)|].
  assert (Hload : _load_from_source key n = (Return (Some value), m)).
  { unfold _load_from_source. by rewrite Hdb, Hput. }
  exists (window_closed key (Return (Some value)) c), m.
  assert (Hget : get key (c, n) =
    Some (Return (Some value), (window_closed key (Return (Some value)) c, m))).
  { unfold get, get_hit. simpl. rewrite Hmiss, Hloader.
    rewrite do_leader_closed by done. by rewrite Hload. }
  split; [done|]. split; [done|]. split; [done|].
  split; [simpl; by rewrite lookup_insert_eq|].
  destruct (get_hit_ok key value m Hok' Hv) as (p' & Hhit & _).
  exists (set_eviction p' m). unfold get. simpl. rewrite Hhit. done.
Qed.

(** X10.  A [get] that misses and finds the key absent from the database
    returns absent and caches nothing: storage and policy are as before, so
    the next [get] asks the database again.  On a node without a loader a
    miss returns absent and changes nothing at all. *)
Theorem get_absent_is_not_cached (n : RobustCache P DB) (key : string)
    (c : RequestCoalescer)
    (Hmiss : storage n !! key = None)
    (Hfree : active_requests c !! key = None) :
  (loader n = false → get key (c, n) = Some (Return None, (c, n))) ∧
  (∀ d', loader n = true → db_get (database n) key = (Return None, d') →
     get key (c, n)
     = Some (Return None, (window_closed key (Return None) c, set_database d' n))).
Proof.
  unfold get, get_hit. simpl. rewrite Hmiss. split.
  - by intros ->.
  - intros d' -> Hdb. rewrite do_leader_closed by done.
    unfold _load_from_source. by rewrite Hdb.
Qed.

(** X11.  When the database raises during the load of a miss, [get] raises
    the same error, storage and policy stay as they were, and the error is
    filed under the key in the coalescer. *)
Theorem get_load_error_propagates (n : RobustCache P DB) (key : string)
    (c : RequestCoalescer) (e : exn) (d' : DB)
    (Hmiss : storage n !! key = None) (Hloader : loader n = true)
    (Hfree : active_requests c !! key = None)
    (Hdb : db_get (database n) key = (Raise e, d')) :
  ∃ c', get key (c, n) = Some (Raise e, (c', set_database d' n)) ∧
        errors c' !! key = Some e ∧ results c' = results c.
Proof.
  exists (window_closed key (Raise e) c). split.
  - unfold get, get_hit. simpl. rewrite Hmiss, Hloader.
    rewrite do_leader_closed by done.
    unfold _load_from_source. by rewrite Hdb.
  - simpl. by rewrite lookup_insert_eq.
Qed.

(** X12.  Inserting a key that is already resident evicts nothing: the
    value is replaced, every other entry stays, and the policy tracks the
    same keys as before. *)
Theorem put_resident_key_evicts_nothing (n : RobustCache P DB)
    (key value old : string)
    (Hok : node_ok n) (Hres : storage n !! key = Some old) :
  ∃ n', _put_internal key value n = (Return (), n') ∧
        storage n' = <[key := value]> (storage n) ∧
        dom (storage n') = dom (storage n) ∧
        resident (eviction n') = resident (eviction n).
Proof.
  destruct Hok as (Hrest & Hagree & Hcap & Hpos & Hempty).
  unfold policy_agrees in Hagree.
  assert (Hin : key ∈ dom (storage n)) by (apply elem_of_dom; eauto).
  unfold _put_internal, make_room. rewrite decide_False.
  2:{ intros [Hnone _]. congruence. }
  simpl. destruct (on_access_at_rest key _ Hrest) as (p2 & -> & _ & Hres2).
  eexists. split; [done|]. simpl. split; [done|]. split.
  - rewrite dom_insert_L. apply set_eq. intros x.
    rewrite elem_of_union, elem_of_singleton. split; [by intros [->|?]|by right].
  - rewrite Hres2, <- Hagree. apply set_eq. intros x.
    rewrite elem_of_union, elem_of_singleton. split; [by intros [->|?]|by right].
Qed.

(** X13.  A [put] hands the write to the writer before it touches the
    cache.  With the write-back writer it does not call the database: it
    appends the order [(key, value)] to the queue, updates the cache and
    returns.  With the write-through writer, a [put] whose [db.set] returns
    leaves the database as that [set] left it and the value in storage. *)
Theorem put_goes_through_writer (n : RobustCache P DB) (key value : string)
    (Hkey : key ≠ ""%string) (Hok : node_ok n) :
  (∀ w, writer n = Some (WriteBack w) →
     ∃ n', put key value n = (Return (), n') ∧
           writer n' = Some (WriteBack {| queue := queue w ++ [Order key value];
                                          worker_alive := worker_alive w |}) ∧
           database n' = database n ∧
           storage n' !! key = Some value) ∧
  (∀ d', writer n = Some WriteThrough →
     db_set (database n) key value = (Return (), d') →
     ∃ n', put key value n = (Return (), n') ∧
           database n' = d' ∧ storage n' !! key = Some value).
Proof.
  split.
  - intros w Hwriter. unfold put. rewrite Hwriter. simpl.
    destruct (put_internal_ok key value
      (set_database (database n)
         (set_writer (Some (WriteBack (wb_write key value w))) n)) Hkey)
      as (m & -> & _ & (_ & _ & Hw & Hd) & Hv); [by apply (node_ok_frame n)|].
    exists m. by rewrite Hw, Hd.
  - intros d' Hwriter Hset.
    unfold put. rewrite Hwriter. simpl. unfold wt_write. rewrite Hset.
    destruct (put_internal_ok key value
      (set_database d' (set_writer (Some WriteThrough) n)) Hkey)
      as (m & -> & _ & (_ & _ & _ & Hd) & Hv); [by apply (node_ok_frame n)|].
    exists m. by rewrite Hd.
Qed.

End node_more.

Section lru_node.
Import Policy Contract Store Writer Coalescer Node.
Context {DB : Type} `{!Database DB}.
Implicit Types (n : RobustCache (LRUPolicy string) DB) (key value : string).

(** X14.  On a full LRU node in its invariant, inserting a key that is not
    resident removes exactly the entry of the least recently used key, the
    first one of [order], and the new key becomes the most recently used
    one. *)
Theorem lru_put_evicts_oldest (n : RobustCache (LRUPolicy string) DB)
    (key value victim : string) (rest : list string)
    (Hok : node_ok n) (Hkey : key ≠ ""%string)
    (Hnew : storage n !! key = None)
    (Hfull : capacity n ≤ Z.of_nat (size (storage n)))
    (Horder : order (eviction n) = victim :: rest) :
  ∃ n', _put_internal key value n = (Return (), n') ∧
        storage n' = <[key := value]> (delete victim (storage n)) ∧
        order (eviction n') = rest ++ [key].
Proof.
  destruct Hok as (Hrest & Hagree & Hcap & Hpos & Hempty).
  unfold policy_agrees, resident, lru_resident in Hagree. simpl in Hrest.
  assert (Hv : victim ∈ dom (storage n)).
  { rewrite Hagree, Horder. apply elem_of_list_to_set. by left. }
  assert (Hvne : victim ≠ ""%string) by (intros ->; done).
  assert (Hk : key ∉ rest).
  { intros Hin. apply not_elem_of_dom in Hnew. apply Hnew.
    rewrite Hagree, Horder. apply elem_of_list_to_set. by right. }
  apply elem_of_dom in Hv as [x Hx].
  unfold _put_internal, make_room. rewrite decide_True by done.
  simpl. unfold lru_evict. rewrite Horder. simpl.
  apply truthy_nonempty in Hvne as ->. rewrite Hx. simpl.
  unfold lru_on_access. simpl. rewrite decide_False by done.
  by eexists.
Qed.

End lru_node.

(** ** The coalescer under every schedule *)

Section coalescer_safety.
Import Sched Coalescer.
Context {W : Type}.
Implicit Types (pc : do_pc W) (ts : list (do_pc W)) (c : RequestCoalescer)
  (w : W) (key : string) (t : nat).

Lemma lookup_stepped ts t pc' t0 pc0 :
  <[t := pc']> ts !! t0 = Some pc0 →
  (t0 = t ∧ pc0 = pc') ∨ (t0 ≠ t ∧ ts !! t0 = Some pc0).
Proof.
  destruct (decide (t0 = t)) as [->|Hne].
  - intros Hl. left. split; [done|].
    assert (Hlt : (t < length ts)%nat).
    { apply lookup_lt_Some in Hl. by rewrite length_insert in Hl. }
    rewrite list_lookup_insert_eq in Hl by done. congruence.
  - rewrite list_lookup_insert_ne by done. by right.
Qed.

Lemma lookup_unstepped ts t pc' t0 pc0 :
  t0 ≠ t → ts !! t0 = Some pc0 → <[t := pc']> ts !! t0 = Some pc0.
Proof. intros Hne. by rewrite list_lookup_insert_ne. Qed.

Lemma lookup_self ts t pc pc' :
  ts !! t = Some pc → <[t := pc']> ts !! t = Some pc'.
Proof. intros Hl. apply list_lookup_insert_eq. by eapply lookup_lt_Some. Qed.

Lemma leads_cases key pc :
  leads key pc →
  (∃ event, before_set key event pc) ∨ (∃ r, pc = AtCleanup key r).
Proof. destruct pc; simpl; try done; intros ->; eauto. Qed.

Lemma before_set_leads key event pc : before_set key event pc → leads key pc.
Proof. destruct pc; simpl; try done; by intros [-> _]. Qed.

Lemma leader_has_record ts c t pc key :
  coalescer_inv ts c → ts !! t = Some pc → leads key pc →
  is_Some (active_requests c !! key).
Proof.
  intros Hinv Ht [[event Hb]|[r ->]]%leads_cases.
  - eexists. by eapply inv_leader_record.
  - destruct (inv_cleanup_record _ _ Hinv _ _ _ Ht) as (event & Ha & _). eauto.
Qed.

Lemma keep_thread ts t pc pc' t0 pc0 :
  ts !! t = Some pc → ts !! t0 = Some pc0 → pc0 ≠ pc →
  <[t := pc']> ts !! t0 = Some pc0.
Proof.
  intros Ht Ht0 Hne. apply lookup_unstepped; [|done]. intros ->. congruence.
Qed.

(** A step of a thread that is no leader before or after it, does not start
    to wait, and leaves the coalescer's records and events alone. *)
Lemma coalescer_inv_idle ts c c' t pc pc' :
  coalescer_inv ts c → ts !! t = Some pc →
  (∀ key, ¬ leads key pc) → (∀ key, ¬ leads key pc') →
  (∀ key event, pc' ≠ AtWait key event) →
  active_requests c' = active_requests c → events c' = events c →
  coalescer_inv (<[t := pc']> ts) c'.
Proof.
  intros [I1 I2 I3 I4 I5 I6] Ht Hpc Hpc' Hw Ha He.
  split; rewrite ?Ha, ?He.
  - intros t0 pc0 k e [[-> ->]|[Hne Hl]]%lookup_stepped Hb.
    + by apply before_set_leads, Hpc' in Hb.
    + by eapply I1.
  - intros t0 k r [[-> Heq]|[Hne Hl]]%lookup_stepped.
    + destruct (Hpc' k). by rewrite <- Heq.
    + by eapply I2.
  - intros t1 t2 pc1 pc2 k [[-> ->]|[Hne1 Hl1]]%lookup_stepped
      [[-> ->]|[Hne2 Hl2]]%lookup_stepped H1 H2; try done.
    + by apply Hpc' in H1.
    + by apply Hpc' in H2.
    + by eapply I3.
  - intros k e Hk. destruct (I4 k e Hk) as (t0 & pc0 & Hl0 & Hlead).
    exists t0, pc0. split; [|done]. eapply keep_thread; [done..|].
    intros ->. by apply Hpc in Hlead.
  - intros t0 k e [[-> Heq]|[Hne Hl]]%lookup_stepped.
    + by destruct (Hw k e).
    + destruct (I5 _ _ _ Hl) as [Hset|(t' & pc0 & Hl' & Hb)]; [by left|].
      right. exists t', pc0. split; [|done]. eapply keep_thread; [done..|].
      intros ->. by apply before_set_leads, Hpc in Hb.
  - done.
Qed.

(** A step that keeps a leader on its way to [event.set()] and leaves the
    records and events alone. *)
Lemma coalescer_inv_leader ts c c' t pc pc' key event :
  coalescer_inv ts c → ts !! t = Some pc →
  before_set key event pc → before_set key event pc' →
  active_requests c' = active_requests c → events c' = events c →
  coalescer_inv (<[t := pc']> ts) c'.
Proof.
  intros [I1 I2 I3 I4 I5 I6] Ht Hpc Hpc' Ha He.
  assert (Hb' : ∀ k e, before_set k e pc' → before_set k e pc).
  { intros k e Hb. destruct pc'; simpl in *; try done;
      destruct Hb as [<- <-]; destruct Hpc' as [-> ->]; done. }
  assert (Hl' : ∀ k, leads k pc' → leads k pc).
  { intros k Hk. apply before_set_leads in Hpc, Hpc'.
    destruct pc'; simpl in *; try done; by subst. }
  split; rewrite ?Ha, ?He.
  - intros t0 pc0 k e [[-> ->]|[Hne Hl]]%lookup_stepped Hb.
    + eapply I1; [done|]. by apply Hb'.
    + by eapply I1.
  - intros t0 k r [[-> Heq]|[Hne Hl]]%lookup_stepped.
    + by rewrite <- Heq in Hpc'.
    + by eapply I2.
  - intros t1 t2 pc1 pc2 k [[-> ->]|[Hne1 Hl1]]%lookup_stepped
      [[-> ->]|[Hne2 Hl2]]%lookup_stepped H1 H2; try done.
    + eapply (I3 t t2); eauto.
    + eapply (I3 t1 t); eauto.
    + by eapply I3.
  - intros k e Hk. destruct (I4 k e Hk) as (t0 & pc0 & Hl0 & Hlead).
    destruct (decide (t0 = t)) as [->|Hne].
    + exists t, pc'. split; [by eapply lookup_self|].
      rewrite Ht in Hl0. injection Hl0 as <-.
      apply before_set_leads in Hpc, Hpc'.
      destruct pc; simpl in *; try done; destruct pc'; simpl in *; try done;
        congruence.
    + exists t0, pc0. split; [|done]. by apply lookup_unstepped.
  - intros t0 k e [[-> Heq]|[Hne Hl]]%lookup_stepped.
    + subst pc'. done.
    + destruct (I5 _ _ _ Hl) as [Hset|(t' & pc0 & Hl'' & Hb)]; [by left|].
      right. destruct (decide (t' = t)) as [->|Hne'].
      * exists t, pc'. split; [by eapply lookup_self|].
        rewrite Ht in Hl''. injection Hl'' as <-.
        destruct pc; simpl in *; try done; destruct Hb as [<- <-];
          destruct Hpc as [<- <-]; done.
      * exists t', pc0. split; [|done]. by apply lookup_unstepped.
  - done.
Qed.

Lemma event_stays_set (evs : list bool) (ev e : nat) :
  evs !! e = Some true → <[ev := true]> evs !! e = Some true.
Proof.
  intros He. destruct (decide (e = ev)) as [->|Hne].
  - apply list_lookup_insert_eq. by eapply lookup_lt_Some.
  - by rewrite list_lookup_insert_ne.
Qed.

Lemma coalescer_inv_step ts c w t pc pc' c' w' :
  coalescer_inv ts c → ts !! t = Some pc →
  do_step pc (c, w) = Some (pc', (c', w')) →
  coalescer_inv (<[t := pc']> ts) c'.
Proof.
  intros Hinv Ht Hstep.
  destruct pc as [key fn|key event|key|key|key event fn|key event r|key event r|key r|r];
    simpl in Hstep.
  - (* AtLock *)
    pose proof Hinv as [I1 I2 I3 I4 I5 I6].
    destruct (active_requests c !! key) as [event|] eqn:Ea.
    + (* a record is there: the thread waits *)
      injection Hstep as <- <- <-. split.
      * intros t0 pc0 k e [[-> ->]|[Hne Hl]]%lookup_stepped Hb; [done|].
        by eapply I1.
      * intros t0 k r [[-> ?]|[Hne Hl]]%lookup_stepped; [done|]. by eapply I2.
      * intros t1 t2 pc1 pc2 k [[-> ->]|[Hne1 Hl1]]%lookup_stepped
          [[-> ->]|[Hne2 Hl2]]%lookup_stepped H1 H2; try done.
        by eapply I3.
      * intros k e Hk. destruct (I4 k e Hk) as (t0 & pc0 & Hl0 & Hlead).
        exists t0, pc0. split; [|done]. eapply keep_thread; [done..|].
        by intros ->.
      * intros t0 k e [[-> Heq]|[Hne Hl]]%lookup_stepped.
        -- injection Heq as <- <-.
           destruct (I4 _ _ Ea) as (t1 & pc1 & Hl1 & Hlead).
           apply leads_cases in Hlead as [[e1 Hb]|[r ->]].
           ++ right. exists t1, pc1. split.
              ** eapply keep_thread; [done..|]. by intros ->.
              ** pose proof (I1 _ _ _ _ Hl1 Hb) as Hrec.
                 rewrite Ea in Hrec. by injection Hrec as <-.
           ++ left. destruct (I2 _ _ _ Hl1) as (e1 & Hrec & Hset).
              rewrite Ea in Hrec. by injection Hrec as <-.
        -- destruct (I5 _ _ _ Hl) as [Hset|(t' & pc0 & Hl' & Hb)]; [by left|].
           right. exists t', pc0. split; [|done].
           eapply keep_thread; [done..|]. by intros ->.
      * done.
    + (* no record: the thread installs one and leads *)
      injection Hstep as <- <- <-.
      assert (Hnolead : ∀ t0 pc0, ts !! t0 = Some pc0 → ¬ leads key pc0).
      { intros t0 pc0 Hl0 Hlead.
        destruct (leader_has_record _ _ _ _ _ Hinv Hl0 Hlead) as [e He].
        congruence. }
      split; simpl.
      * intros t0 pc0 k e [[-> ->]|[Hne Hl]]%lookup_stepped Hb.
        -- destruct Hb as [<- <-]. by rewrite lookup_insert_eq.
        -- rewrite lookup_insert_ne; [by eapply I1|].
           intros <-. apply before_set_leads in Hb. by eapply Hnolead.
      * intros t0 k r [[-> ?]|[Hne Hl]]%lookup_stepped; [done|].
        destruct (I2 _ _ _ Hl) as (e & Hrec & Hset). exists e. split.
        -- rewrite lookup_insert_ne; [done|]. intros <-.
           eapply Hnolead; [done|]. by simpl.
        -- rewrite lookup_app_l; [done|]. by eapply lookup_lt_Some.
      * intros t1 t2 pc1 pc2 k [[-> ->]|[Hne1 Hl1]]%lookup_stepped
          [[-> ->]|[Hne2 Hl2]]%lookup_stepped H1 H2; try done.
        -- simpl in H1. subst k. by destruct (Hnolead _ _ Hl2).
        -- simpl in H2. subst k. by destruct (Hnolead _ _ Hl1).
        -- by eapply I3.
      * intros k e. destruct (decide (k = key)) as [->|Hk].
        -- intros _. exists t, (AtCall key (length (events c)) fn).
           split; [by eapply lookup_self|done].
        -- rewrite lookup_insert_ne by done. intros Hrec.
           destruct (I4 k e Hrec) as (t0 & pc0 & Hl0 & Hlead).
           exists t0, pc0. split; [|done]. eapply keep_thread; [done..|].
           by intros ->.
      * intros t0 k e [[-> ?]|[Hne Hl]]%lookup_stepped; [done|].
        destruct (I5 _ _ _ Hl) as [Hset|(t' & pc0 & Hl' & Hb)].
        -- left. rewrite lookup_app_l; [done|]. by eapply lookup_lt_Some.
        -- right. exists t', pc0. split; [|done].
           eapply keep_thread; [done..|]. by intros ->.
      * intros k e. rewrite length_app. simpl.
        destruct (decide (k = key)) as [->|Hk].
        -- rewrite lookup_insert_eq. intros [= <-]. lia.
        -- rewrite lookup_insert_ne by done. intros Hrec.
           specialize (I6 _ _ Hrec). lia.
  - (* AtWait *)
    destruct (events c !! event) as [[]|] eqn:Ee; [|done..].
    injection Hstep as <- <- <-.
    eapply coalescer_inv_idle; [done|done|simpl; intros; tauto|simpl; intros; tauto|intros; discriminate|done|done].
  - (* AtCheck *)
    destruct (errors c !! key); injection Hstep as <- <- <-;
      (eapply coalescer_inv_idle; [done|done|simpl; intros; tauto|simpl; intros; tauto|intros; discriminate|done|done]).
  - (* AtRead *)
    injection Hstep as <- <- <-.
    eapply coalescer_inv_idle; [done|done|simpl; intros; tauto|simpl; intros; tauto|intros; discriminate|done|done].
  - (* AtCall *)
    destruct (fn w) as [r w1]. injection Hstep as <- <- <-.
    by eapply (coalescer_inv_leader _ _ _ _ _ _ key event).
  - (* AtStore *)
    injection Hstep as <- <- <-.
    eapply (coalescer_inv_leader _ _ _ _ _ _ key event); try done;
      by destruct r.
  - (* AtSet *)
    pose proof Hinv as [I1 I2 I3 I4 I5 I6].
    injection Hstep as <- <- <-.
    assert (Hrec : active_requests c !! key = Some event).
    { eapply I1; [done|]. by simpl. }
    pose proof (I6 _ _ Hrec) as Hlt.
    split; simpl.
    + intros t0 pc0 k e [[-> ->]|[Hne Hl]]%lookup_stepped Hb; [done|].
      by eapply I1.
    + intros t0 k r0 [[-> Heq]|[Hne Hl]]%lookup_stepped.
      * injection Heq as -> ->. exists event. split; [done|].
        by apply list_lookup_insert_eq.
      * destruct (I2 _ _ _ Hl) as (e & Hrec0 & Hset). exists e.
        split; [done|]. by apply event_stays_set.
    + intros t1 t2 pc1 pc2 k [[-> ->]|[Hne1 Hl1]]%lookup_stepped
        [[-> ->]|[Hne2 Hl2]]%lookup_stepped H1 H2; try done.
      * by eapply (I3 t t2 (AtSet key event r)).
      * by eapply (I3 t1 t _ (AtSet key event r)).
      * by eapply I3.
    + intros k e Hk. destruct (I4 k e Hk) as (t0 & pc0 & Hl0 & Hlead).
      destruct (decide (t0 = t)) as [->|Hne].
      * exists t, (AtCleanup key r). split; [by eapply lookup_self|].
        rewrite Ht in Hl0. by injection Hl0 as <-.
      * exists t0, pc0. split; [|done]. by apply lookup_unstepped.
    + intros t0 k e [[-> ?]|[Hne Hl]]%lookup_stepped; [done|].
      destruct (I5 _ _ _ Hl) as [Hset|(t' & pc0 & Hl' & Hb)].
      * left. by apply event_stays_set.
      * destruct (decide (t' = t)) as [->|Hne'].
        -- left. rewrite Ht in Hl'. injection Hl' as <-.
           destruct Hb as [<- <-]. by apply list_lookup_insert_eq.
        -- right. exists t', pc0. split; [|done]. by apply lookup_unstepped.
    + intros k e Hk. rewrite length_insert. by eapply I6.
  - (* AtCleanup *)
    pose proof Hinv as [I1 I2 I3 I4 I5 I6].
    injection Hstep as <- <- <-.
    assert (Hmine : ∀ t0 pc0, t0 ≠ t → ts !! t0 = Some pc0 → ¬ leads key pc0).
    { intros t0 pc0 Hne Hl0 Hlead. apply Hne.
      by eapply (I3 t0 t pc0 (AtCleanup key r) key). }
    split; simpl.
    + intros t0 pc0 k e [[-> ->]|[Hne Hl]]%lookup_stepped Hb; [done|].
      rewrite lookup_delete_ne; [by eapply I1|].
      intros <-. apply before_set_leads in Hb. by eapply Hmine.
    + intros t0 k r0 [[-> ?]|[Hne Hl]]%lookup_stepped; [done|].
      destruct (I2 _ _ _ Hl) as (e & Hrec0 & Hset). exists e.
      split; [|done]. rewrite lookup_delete_ne; [done|].
      intros <-. eapply Hmine; [done..|]. by simpl.
    + intros t1 t2 pc1 pc2 k [[-> ->]|[Hne1 Hl1]]%lookup_stepped
        [[-> ->]|[Hne2 Hl2]]%lookup_stepped H1 H2; try done.
      by eapply I3.
    + intros k e [Hk Hrec]%lookup_delete_Some.
      destruct (I4 k e Hrec) as (t0 & pc0 & Hl0 & Hlead).
      exists t0, pc0. split; [|done]. eapply keep_thread; [done..|].
      intros ->. by simpl in Hlead.
    + intros t0 k e [[-> ?]|[Hne Hl]]%lookup_stepped; [done|].
      destruct (I5 _ _ _ Hl) as [Hset|(t' & pc0 & Hl' & Hb)]; [by left|].
      right. exists t', pc0. split; [|done]. eapply keep_thread; [done..|].
      by intros ->.
    + intros k e [Hk Hrec]%lookup_delete_Some. by eapply I6.
  - done.
Qed.

Lemma coalescer_inv_entry ts c :
  at_entry ts → active_requests c = ∅ → coalescer_inv ts c.
Proof.
  intros Hentry Hidle. split.
  - intros t pc k e Hl Hb. destruct (Hentry _ _ Hl) as (? & ? & ->). done.
  - intros t k r Hl. destruct (Hentry _ _ Hl) as (? & ? & ?). done.
  - intros t1 t2 pc1 pc2 k Hl1 _ H1. destruct (Hentry _ _ Hl1) as (? & ? & ->).
    done.
  - intros k e. by rewrite Hidle, lookup_empty.
  - intros t k e Hl. destruct (Hentry _ _ Hl) as (? & ? & ?). done.
  - intros k e. by rewrite Hidle, lookup_empty.
Qed.

Lemma coalescer_inv_run schedule ts c w ts' c' w' :
  coalescer_inv ts c →
  sched_run do_step schedule (ts, (c, w)) = Some (ts', (c', w')) →
  coalescer_inv ts' c'.
Proof.
  revert ts c w. induction schedule as [|t schedule IH]; intros ts c w Hinv; simpl.
  - by intros [= <- <- <-].
  - unfold sched_step. simpl.
    destruct (ts !! t) as [pc|] eqn:Ht; [|done].
    destruct (do_step pc (c, w)) as [[pc1 [c1 w1]]|] eqn:Es; [|done].
    apply IH. by eapply coalescer_inv_step.
Qed.

(** X15.  Start with every thread about to call [do] and no record in the
    coalescer.  Under every schedule, at every moment, at most one thread
    leads a window for a given key: between the installation of a record
    and its removal no second thread can run a thunk for that key. *)
Theorem one_leader_per_key (schedule : list nat) (ts ts' : list (do_pc W))
    (c c' : RequestCoalescer) (w w' : W) (t1 t2 : nat) (pc1 pc2 : do_pc W)
    (key : string)
    (Hentry : at_entry ts) (Hidle : active_requests c = ∅)
    (Hrun : sched_run do_step schedule (ts, (c, w)) = Some (ts', (c', w')))
    (H1 : ts' !! t1 = Some pc1) (H2 : ts' !! t2 = Some pc2)
    (Hl1 : leads key pc1) (Hl2 : leads key pc2) :
  t1 = t2.
Proof.
  pose proof (coalescer_inv_run _ _ _ _ _ _ _
                (coalescer_inv_entry _ _ Hentry Hidle) Hrun) as Hinv.
  by eapply (inv_one_leader _ _ Hinv t1 t2).
Qed.

(** X16.  Under every schedule from such a start, a key has a record in
    [active_requests] exactly while some thread leads a window for it. *)
Theorem record_iff_in_flight (schedule : list nat) (ts ts' : list (do_pc W))
    (c c' : RequestCoalescer) (w w' : W) (key : string)
    (Hentry : at_entry ts) (Hidle : active_requests c = ∅)
    (Hrun : sched_run do_step schedule (ts, (c, w)) = Some (ts', (c', w'))) :
  is_Some (active_requests c' !! key) ↔
  ∃ t pc, ts' !! t = Some pc ∧ leads key pc.
Proof.
  pose proof (coalescer_inv_run _ _ _ _ _ _ _
                (coalescer_inv_entry _ _ Hentry Hidle) Hrun) as Hinv.
  split.
  - intros [event Hrec]. by eapply inv_record_leader.
  - intros (t & pc & Hl & Hlead). by eapply leader_has_record.
Qed.

(** X17.  Under every schedule from such a start, a follower that waits is
    not left behind: either the event it waits for is set, or the leader of
    its window is still on the way to [event.set()] and can take its next
    step. *)
Theorem waiter_is_not_orphaned (schedule : list nat) (ts ts' : list (do_pc W))
    (c c' : RequestCoalescer) (w w' : W) (t : nat) (key : string) (event : nat)
    (Hentry : at_entry ts) (Hidle : active_requests c = ∅)
    (Hrun : sched_run do_step schedule (ts, (c, w)) = Some (ts', (c', w')))
    (Hwait : ts' !! t = Some (AtWait key event)) :
  events c' !! event = Some true ∨
  ∃ t' pc, ts' !! t' = Some pc ∧ before_set key event pc ∧
           is_Some (do_step pc (c', w')).
Proof.
  pose proof (coalescer_inv_run _ _ _ _ _ _ _
                (coalescer_inv_entry _ _ Hentry Hidle) Hrun) as Hinv.
  destruct (inv_waiter _ _ Hinv _ _ _ Hwait) as [Hset|(t' & pc & Hl & Hb)];
    [by left|].
  right. exists t', pc. split; [done|]. split; [done|].
  destruct pc; simpl in *; try done. by destruct (fn w').
Qed.

Lemma do_step_keeps_outcomes pc c w pc' c' w' key :
  do_step pc (c, w) = Some (pc', (c', w')) →
  (is_Some (results c !! key) → is_Some (results c' !! key)) ∧
  (is_Some (errors c !! key) → is_Some (errors c' !! key)).
Proof.
  destruct pc as [k fn|k event|k|k|k event fn|k event r|k event r|k r|r];
    simpl; try done.
  - destruct (active_requests c !! k); by intros [= <- <- <-].
  - destruct (events c !! event) as [[]|]; try done. by intros [= <- <- <-].
  - destruct (errors c !! k); by intros [= <- <- <-].
  - by intros [= <- <- <-].
  - destruct (fn w). by intros [= <- <- <-].
  - intros [= <- <- <-]. destruct r as [v|e]; simpl; split; try done.
    + intros Hs. destruct (decide (k = key)) as [->|Hne].
      * rewrite lookup_insert_eq. eauto.
      * by rewrite lookup_insert_ne.
    + intros Hs. destruct (decide (k = key)) as [->|Hne].
      * rewrite lookup_insert_eq. eauto.
      * by rewrite lookup_insert_ne.
  - by intros [= <- <- <-].
  - by intros [= <- <- <-].
Qed.

(** X18.  Under no schedule does the coalescer drop what it has filed: a key
    with an entry in [results] or in [errors] has one for good. *)
Theorem outcomes_are_never_removed (schedule : list nat)
    (ts ts' : list (do_pc W)) (c c' : RequestCoalescer) (w w' : W) (key : string)
    (Hrun : sched_run do_step schedule (ts, (c, w)) = Some (ts', (c', w'))) :
  (is_Some (results c !! key) → is_Some (results c' !! key)) ∧
  (is_Some (errors c !! key) → is_Some (errors c' !! key)).
Proof.
  revert ts c w Hrun.
  induction schedule as [|t schedule IH]; intros ts c w; simpl.
  - by intros [= <- <- <-].
  - unfold sched_step. simpl.
    destruct (ts !! t) as [pc|] eqn:Ht; [|done].
    destruct (do_step pc (c, w)) as [[pc1 [c1 w1]]|] eqn:Es; [|done].
    intros Hrun. destruct (do_step_keeps_outcomes _ _ _ _ _ _ key Es) as [Hr He].
    destruct (IH _ _ _ Hrun) as [Hr' He']. split; eauto.
Qed.

End coalescer_safety.

(** ** The write-back worker at every moment *)

Section write_back_more.
Import Store Writer.
Context {DB : Type} `{Database DB}.
Implicit Types (tr : list event) (s : wb_state DB) (q : list item) (d : DB).

Lemma writes_of_accepted tr : ∃ later, writes_of tr = accepted tr ++ later.
Proof.
  induction tr as [|e tr [later IH]]; [by exists []|].
  destruct e; simpl; rewrite ?IH; eauto.
Qed.

(** X19.  At every moment of every interleaving, the database holds what
    handing it a prefix of the [write] calls made so far, in call order,
    produces: the worker never reorders, repeats or invents a write. *)
Theorem database_holds_prefix_of_writes (tr : list event) (d0 : DB)
    (s : wb_state DB)
    (Hrun : wb_run tr (wb_start d0) = Some s) :
  ∃ done rest, writes_of tr = done ++ rest ∧ store s = deliver done d0.
Proof.
  pose proof (wb_inv_run _ _ _ Hrun) as Hinv. unfold wb_inv in Hinv.
  destruct (writes_of_accepted tr) as [later Hlater].
  destruct (worker_alive (wb s)).
  - destruct Hinv as [(done & Hstore & Hacc) _].
    exists done, (before_stop (queue (wb s)) ++ later).
    split; [|done]. by rewrite Hlater, <- Hacc, <- app_assoc.
  - destruct Hinv as [Hstore _]. by exists (accepted tr), later.
Qed.

Lemma wb_step_dead e s s' :
  worker_alive (wb s) = false → wb_step e s = Some s' →
  worker_alive (wb s') = false ∧ store s' = store s.
Proof.
  intros Hdead. destruct s as [[q alive] d n]. simpl in Hdead. subst alive.
  destruct e; simpl; try by intros [= <-].
  destruct n; [done|]. by intros [= <-].
Qed.

(** X20.  Once the worker has exited nothing reaches the database any more:
    whatever the callers do afterwards, also further [write] calls, the
    database stays as the worker left it. *)
Theorem nothing_written_after_worker_exit (tr : list event)
    (s s' : wb_state DB)
    (Hdead : worker_alive (wb s) = false)
    (Hrun : wb_run tr s = Some s') :
  store s' = store s ∧ worker_alive (wb s') = false.
Proof.
  revert s Hdead Hrun. induction tr as [|e tr IH]; intros s Hdead; simpl.
  - by intros [= <-].
  - destruct (wb_step e s) as [s1|] eqn:E; [|done].
    destruct (wb_step_dead e s s1 Hdead E) as [Hdead1 Hstore1].
    intros Hrun. destruct (IH s1 Hdead1 Hrun) as [Hstore Hd].
    split; [congruence|done].
Qed.

Lemma pending_close_called tr d0 s :
  wb_run tr (wb_start d0) = Some s → has_close tr = false → pending_close s = 0%nat.
Proof.
  revert s. induction tr as [|e tr IH] using rev_ind; intros s.
  - by intros [= <-].
  - intros (s1 & Hrun & Hstep)%wb_run_snoc. rewrite has_close_app.
    intros [Hc He]%orb_false_elim. specialize (IH s1 Hrun Hc).
    destruct s1 as [[q alive] d n]. simpl in IH. subst n.
    destruct e; simpl in *; try done; try by injection Hstep as <-.
    unfold _flusher_step in Hstep. simpl in Hstep.
    destruct alive; [|done]. destruct q as [|[]]; try done;
      by injection Hstep as <-.
Qed.

Lemma worker_drains q d n :
  has_stop q = true →
  ∃ k s', (k ≤ length q)%nat ∧
    wb_run (replicate k EvWorker)
      {| wb := {| queue := q; worker_alive := true |}; store := d;
         pending_close := n |} = Some s' ∧
    worker_alive (wb s') = false ∧ pending_close s' = n.
Proof.
  revert d. induction q as [|i q IH]; intros d; [done|].
  destruct i as [key value|]; simpl.
  - intros Hs. destruct (IH (snd (db_set d key value)) Hs)
      as (k & s' & Hk & Hrun & Hdead & Hn).
    exists (S k), s'. split; [lia|]. done.
  - intros _. exists 1%nat. eexists. split; [lia|]. done.
Qed.

(** X21.  A [close()] that waits in [join()] is never stuck: the worker,
    left to run, reaches the sentinel within as many steps as the queue is
    long and exits, and [close()] returns. *)
Theorem close_can_return (tr : list event) (d0 : DB) (s : wb_state DB)
    (Hrun : wb_run tr (wb_start d0) = Some s)
    (Hpending : pending_close s ≠ 0%nat) :
  ∃ k s', (k ≤ length (queue (wb s)))%nat ∧
          wb_run (replicate k EvWorker ++ [EvCloseReturn]) s = Some s'.
Proof.
  pose proof (wb_inv_run _ _ _ Hrun) as Hinv.
  assert (Hclose : has_close tr = true).
  { destruct (has_close tr) eqn:E; [done|].
    by pose proof (pending_close_called _ _ _ Hrun E). }
  unfold wb_inv in Hinv. destruct s as [[q alive] d n]. simpl in *.
  destruct n as [|n]; [done|]. destruct alive.
  - destruct Hinv as [_ Hstop]. rewrite Hclose in Hstop.
    destruct (worker_drains q d (S n) Hstop) as (k & s1 & Hk & Hdrain & Hdead & Hn).
    exists k. rewrite wb_run_app, Hdrain. simpl.
    rewrite Hn, Hdead. eauto.
  - exists 0%nat. simpl. eauto with lia.
Qed.

End write_back_more.

(** ** The ring under [add_node] and [remove_node] *)

Section ring_more.
Import Ring.
Context (_hash : string → Z).
Implicit Types (r : ConsistentHashing) (a : list Z) (x pos : Z) (node : string).

Lemma add_replica_listed node r i : listed r → listed (add_replica _hash node r i).
Proof.
  intros [Hs Hin]. destruct (insort_spec (sorted_keys r)
    (_hash (node +:+ ":" +:+ pretty i)) Hs) as [Hs' Hmem].
  split; simpl; [done|]. intros pos.
  rewrite Hmem, dom_insert_L, elem_of_union, elem_of_singleton.
  intros [->|Hp]; [by left|right; by apply Hin].
Qed.

Lemma add_node_listed node r : listed r → listed (add_node _hash node r).
Proof.
  unfold add_node. generalize (seq 0 (Z.to_nat (replicas r))). intros idxs.
  revert r. induction idxs as [|i idxs IH]; intros r Hl; simpl; [done|].
  apply IH. by apply add_replica_listed.
Qed.

Lemma remove_positions_listed keys r :
  listed r → NoDup keys → (∀ key, key ∈ keys → key ∈ dom (ring r)) →
  ∃ r', remove_positions keys r = (Return (), r') ∧ listed r'.
Proof.
  revert r. induction keys as [|key keys IH]; intros r Hl Hnd Hin; simpl.
  - by exists r.
  - apply NoDup_cons in Hnd as [Hfresh Hnd]. destruct Hl as [Hs Hlisted].
    unfold remove_position. rewrite decide_True by (apply Hlisted, Hin; by left).
    apply IH; [|done|].
    + split; simpl; [by apply py_remove_sorted|]. intros pos.
      rewrite dom_delete_L, elem_of_difference, elem_of_singleton.
      intros [Hp Hne]. apply elem_of_py_remove_ne; [done|]. by apply Hlisted.
    + intros k Hk. simpl.
      rewrite dom_delete_L, elem_of_difference, elem_of_singleton.
      split; [apply Hin; by right|]. by intros ->.
Qed.

Lemma keys_to_remove_spec node r key :
  key ∈ keys_to_remove node r ↔ ring r !! key = Some node.
Proof.
  unfold keys_to_remove. rewrite list_elem_of_fmap. split.
  - intros ([k n] & -> & Hkn). apply elem_of_map_to_list in Hkn.
    apply map_lookup_filter_Some in Hkn as [Hk Hn]. simpl in *. by subst.
  - intros Hk. exists (key, node). split; [done|].
    apply elem_of_map_to_list. by apply map_lookup_filter_Some.
Qed.

Lemma remove_node_listed node r :
  listed r → ∃ r', remove_node node r = (Return (), r') ∧ listed r'.
Proof.
  intros Hl. apply remove_positions_listed; [done| |].
  - apply NoDup_fst_map_to_list.
  - intros key Hk%keys_to_remove_spec. apply elem_of_dom. eauto.
Qed.

Lemma ring_reachable_listed r : ring_reachable _hash r → listed r.
Proof.
  induction 1 as [R|node r Hr IH|node r Hr IH].
  - split; simpl; [constructor|]. intros pos. by rewrite dom_empty_L.
  - by apply add_node_listed.
  - destruct (remove_node_listed node r IH) as (r' & -> & Hl). done.
Qed.

(** X22.  Every ring that calls of [add_node] and [remove_node] can reach,
    also with labels added twice, keeps [sorted_keys] ascending and lists in
    it every position of the map; no removal there finds its position
    missing from the list, so [remove_node] never raises. *)
Theorem reachable_ring_stays_sorted (r : ConsistentHashing) (node : string)
    (Hreach : ring_reachable _hash r) :
  StronglySorted Z.le (sorted_keys r) ∧
  (∀ pos, pos ∈ dom (ring r) → pos ∈ sorted_keys r) ∧
  (remove_node node r).1 = Return ().
Proof.
  destruct (ring_reachable_listed r Hreach) as [Hs Hin].
  split; [done|]. split; [done|].
  destruct (remove_node_listed node r (conj Hs Hin)) as (r' & -> & _). done.
Qed.

Lemma add_replicas_ring node idxs r pos :
  ring (foldl (add_replica _hash node) r idxs) !! pos =
  if decide (pos ∈ (λ i : nat, _hash (node +:+ ":" +:+ pretty i)) <$> idxs)
  then Some node else ring r !! pos.
Proof.
  revert r. induction idxs as [|i idxs IH]; intros r.
  - case_decide as Hin; [|done]. by apply not_elem_of_nil in Hin.
  - simpl. rewrite IH. simpl.
    case_decide as Hin; case_decide as Hin'; try done.
    + destruct Hin'. by right.
    + apply elem_of_cons in Hin' as [->|?]; [|done]. by rewrite lookup_insert_eq.
    + rewrite lookup_insert_ne; [done|]. intros <-. apply Hin'. by left.
Qed.

Lemma add_replicas_replicas node idxs r :
  replicas (foldl (add_replica _hash node) r idxs) = replicas r.
Proof. revert r. induction idxs as [|i idxs IH]; intros r; simpl; [done|]. by rewrite IH. Qed.

Lemma add_node_ring node r pos :
  ring (add_node _hash node r) !! pos =
  if decide (pos ∈ positions _hash node r) then Some node else ring r !! pos.
Proof. apply add_replicas_ring. Qed.

(** X23.  After [add_node(node)] each of the positions computed for [node]
    maps to [node], every other position maps to what it mapped to before,
    and the replica count is unchanged. *)
Theorem add_node_owns_its_positions (node : string) (r : ConsistentHashing)
    (pos : Z) :
  (pos ∈ positions _hash node r → ring (add_node _hash node r) !! pos = Some node) ∧
  (pos ∉ positions _hash node r →
   ring (add_node _hash node r) !! pos = ring r !! pos) ∧
  replicas (add_node _hash node r) = replicas r.
Proof.
  rewrite add_node_ring. split; [|split].
  - intros Hin. by rewrite decide_True.
  - intros Hout. by rewrite decide_False.
  - apply add_replicas_replicas.
Qed.

Lemma insort_perm a x : StronglySorted Z.le a → insort a x ≡ₚ x :: a.
Proof.
  intros _. unfold insort.
  transitivity (x :: (take (bisect a x) a ++ drop (bisect a x) a)).
  - symmetry. apply Permutation_middle.
  - by rewrite take_drop.
Qed.

Lemma py_remove_perm (x : Z) a : x ∈ a → a ≡ₚ x :: py_remove x a.
Proof.
  induction a as [|y a IH]; simpl; [by intros ?%not_elem_of_nil|].
  destruct (decide (x = y)) as [->|Hne]; [done|].
  intros [?|Hin]%elem_of_cons; [done|]. rewrite (IH Hin) at 1. apply Permutation_swap.
Qed.

Lemma add_replicas_sorted_keys node idxs r :
  listed r →
  sorted_keys (foldl (add_replica _hash node) r idxs) ≡ₚ
  ((λ i : nat, _hash (node +:+ ":" +:+ pretty i)) <$> idxs) ++ sorted_keys r.
Proof.
  revert r. induction idxs as [|i idxs IH]; intros r Hl; simpl; [done|].
  rewrite IH by by apply add_replica_listed. simpl.
  rewrite insort_perm by apply Hl. by rewrite Permutation_middle.
Qed.

Lemma remove_positions_result keys r :
  listed r → NoDup keys → (∀ key, key ∈ keys → key ∈ dom (ring r)) →
  ∃ r', remove_positions keys r = (Return (), r') ∧ listed r' ∧
        replicas r' = replicas r ∧
        (∀ pos, ring r' !! pos = if decide (pos ∈ keys) then None else ring r !! pos) ∧
        sorted_keys r ≡ₚ keys ++ sorted_keys r'.
Proof.
  revert r. induction keys as [|key keys IH]; intros r Hl Hnd Hin; simpl.
  - exists r. split; [done|]. split; [done|]. split; [done|]. split; [|done].
    by intros pos.
  - apply NoDup_cons in Hnd as [Hfresh Hnd]. destruct Hl as [Hs Hlisted].
    assert (Hkey : key ∈ sorted_keys r) by (apply Hlisted, Hin; by left).
    unfold remove_position. rewrite decide_True by done.
    edestruct IH as (r' & -> & Hl' & Hrep & Hring & Hperm); [| done | |].
    + split; simpl; [by apply py_remove_sorted|]. intros pos.
      rewrite dom_delete_L, elem_of_difference, elem_of_singleton.
      intros [Hp Hne]. apply elem_of_py_remove_ne; [done|]. by apply Hlisted.
    + intros k Hk. simpl.
      rewrite dom_delete_L, elem_of_difference, elem_of_singleton.
      split; [apply Hin; by right|]. by intros ->.
    + exists r'. split; [done|]. split; [done|]. split; [done|]. split.
      * intros pos. rewrite Hring. simpl.
        case_decide as Hk; case_decide as Hk'; try done.
        -- destruct Hk'. by right.
        -- apply elem_of_cons in Hk' as [->|?]; [|done].
           by rewrite lookup_delete_eq.
        -- rewrite lookup_delete_ne; [done|]. intros <-. apply Hk'. by left.
      * simpl in Hperm. rewrite (py_remove_perm key (sorted_keys r) Hkey).
        by rewrite Hperm.
Qed.

(** X24.  On a well-formed ring that has no position of [node] yet,
    [remove_node(node)] undoes [add_node(node)]: when the new positions are
    distinct and collide with no position of the ring, the ring is back to
    what it was, map and list. *)
Theorem remove_after_add_restores (node : string) (r : ConsistentHashing)
    (Hwf : ring_wf r)
    (Hnew : ∀ pos, ring r !! pos ≠ Some node)
    (Hnd : NoDup (positions _hash node r))
    (Hfresh : ∀ pos, pos ∈ positions _hash node r → pos ∉ dom (ring r)) :
  remove_node node (add_node _hash node r) = (Return (), r).
Proof.
  assert (Hl : listed r) by (split; [apply Hwf|]; intros pos; apply Hwf).
  pose proof (add_node_listed node r Hl) as Hl1.
  assert (Hkeys : ∀ pos, pos ∈ keys_to_remove node (add_node _hash node r)
                         ↔ pos ∈ positions _hash node r).
  { intros pos. rewrite keys_to_remove_spec, add_node_ring.
    case_decide; [done|]. split; [by intros ?%Hnew|done]. }
  unfold remove_node.
  destruct (remove_positions_result (keys_to_remove node (add_node _hash node r))
              (add_node _hash node r) Hl1)
    as (r' & -> & [Hs' _] & Hrep & Hring & Hperm).
  { apply NoDup_fst_map_to_list. }
  { intros key Hk%keys_to_remove_spec. apply elem_of_dom. eauto. }
  assert (HR : replicas r' = replicas r).
  { rewrite Hrep. apply add_replicas_replicas. }
  assert (Hm : ring r' = ring r).
  { apply map_eq. intros pos. rewrite Hring, add_node_ring.
    case_decide as Hk.
    - apply Hkeys in Hk. symmetry. apply not_elem_of_dom. by apply Hfresh.
    - case_decide as Hp; [|done]. by apply Hkeys in Hp. }
  assert (Ha : sorted_keys r' = sorted_keys r).
  { apply (StronglySorted_unique Z.le); [done|apply Hwf|].
    apply (Permutation_app_inv_l (positions _hash node r)).
    transitivity (sorted_keys (add_node _hash node r)).
    - rewrite Hperm. apply Permutation_app_tail.
      apply NoDup_Permutation; [done|apply NoDup_fst_map_to_list|].
      intros pos. by rewrite Hkeys.
    - by apply add_replicas_sorted_keys. }
  clear -HR Hm Ha. destruct r, r'. simpl in *. by subst.
Qed.

(** Where [get_node] lands on a well-formed ring that holds a position. *)
Lemma get_node_lands key r :
  ring_wf r → ring r ≠ ∅ →
  ∃ pos label, get_node _hash key r = Return (Some label) ∧
               ring r !! pos = Some label ∧ successor (_hash key) pos r.
Proof.
  intros [Hs Hpos] Hne. unfold get_node. rewrite decide_False by done.
  destruct (bisect_spec (sorted_keys r) (_hash key) Hs) as (Hlen & Hlow & Hhigh).
  set (a := sorted_keys r) in *. set (h := _hash key) in *.
  assert (Hlabel : ∀ pos, pos ∈ a → ∃ label, ring r !! pos = Some label).
  { intros pos Hin. apply Hpos in Hin. by apply elem_of_dom in Hin. }
  assert (Hidx : ∀ q, q ∈ dom (ring r) → ∃ j, a !! j = Some q).
  { intros q Hq. apply Hpos in Hq. by apply list_elem_of_lookup_1. }
  destruct (decide (bisect a h = length a)) as [Hend|Hin].
  - destruct a as [|p0 a'] eqn:Ea.
    { destruct Hne. apply dom_empty_inv_L. apply set_eq. intros q.
      rewrite <- Hpos. split; [by intros ?%not_elem_of_nil|by intros ?%not_elem_of_empty]. }
    simpl. destruct (Hlabel p0) as [label Hl]; [by left|].
    rewrite Hl. exists p0, label. split; [done|]. split; [done|].
    split; [apply elem_of_dom; eauto|]. right. split.
    + intros q Hq. destruct (Hidx q Hq) as [j Hj].
      eapply Hlow; [|done]. apply lookup_lt_Some in Hj. lia.
    + intros q Hq. destruct (Hidx q Hq) as [j Hj].
      eapply (sorted_lookup_le (p0 :: a') 0 j); [done|lia|done|done].
  - destruct (a !! bisect a h) as [p|] eqn:Ep.
    2:{ apply lookup_ge_None in Ep. lia. }
    destruct (Hlabel p) as [label Hl]; [by eapply list_elem_of_lookup_2|].
    rewrite Hl. exists p, label. split; [done|]. split; [done|].
    split; [apply elem_of_dom; eauto|]. left. split.
    + eapply Hhigh; [|done]. lia.
    + intros q Hq Hhq. destruct (Hidx q Hq) as [j Hj].
      destruct (decide (j < bisect a h)%nat) as [Hj'|Hj'].
      * pose proof (Hlow j q Hj' Hj). lia.
      * eapply (sorted_lookup_le a (bisect a h) j); [done|lia|done|done].
Qed.

Lemma successor_unique h pos1 pos2 r :
  successor h pos1 r → successor h pos2 r → pos1 = pos2.
Proof.
  intros [Hin1 [[Hgt1 Hleast1]|[Hall1 Hmin1]]] [Hin2 [[Hgt2 Hleast2]|[Hall2 Hmin2]]].
  - pose proof (Hleast1 _ Hin2 Hgt2). pose proof (Hleast2 _ Hin1 Hgt1). lia.
  - pose proof (Hall2 _ Hin1). lia.
  - pose proof (Hall1 _ Hin2). lia.
  - pose proof (Hmin1 _ Hin2). pose proof (Hmin2 _ Hin1). lia.
Qed.

(** The landing position of a larger ring, when it lies in a smaller one,
    is the landing position there. *)
Lemma successor_restrict h pos r r' :
  (∀ q, q ∈ dom (ring r) → q ∈ dom (ring r')) →
  successor h pos r' → pos ∈ dom (ring r) → successor h pos r.
Proof.
  intros Hsub [_ [[Hgt Hleast]|[Hall Hmin]]] Hin; (split; [done|]).
  - left. split; [done|]. intros q Hq. by apply Hleast, Hsub.
  - right. split; intros q Hq; [by apply Hall, Hsub|by apply Hmin, Hsub].
Qed.

Lemma new_ring_snoc nodes node R :
  new_ring _hash (nodes ++ [node]) R = add_node _hash node (new_ring _hash nodes R).
Proof. unfold new_ring. by rewrite foldl_app. Qed.

Lemma new_ring_replicas nodes R : replicas (new_ring _hash nodes R) = R.
Proof.
  induction nodes as [|node nodes IH] using rev_ind; [done|].
  rewrite new_ring_snoc. unfold add_node. by rewrite add_replicas_replicas.
Qed.

Lemma new_ring_labels nodes R pos label :
  ring (new_ring _hash nodes R) !! pos = Some label → label ∈ nodes.
Proof.
  induction nodes as [|node nodes IH] using rev_ind; [done|].
  rewrite new_ring_snoc, add_node_ring. rewrite elem_of_app.
  case_decide.
  - intros [= <-]. right. by left.
  - intros Hl. left. by apply IH.
Qed.

Lemma new_ring_nonempty nodes R :
  nodes ≠ [] → 0 < R → ring (new_ring _hash nodes R) ≠ ∅.
Proof.
  intros Hnodes HR.
  destruct nodes as [|node nodes _] using rev_ind; [done|].
  intros Hemp.
  apply (f_equal (λ m, m !! _hash (node +:+ ":" +:+ pretty 0%nat))) in Hemp.
  rewrite new_ring_snoc, add_node_ring, lookup_empty in Hemp.
  rewrite decide_True in Hemp; [done|].
  unfold positions. rewrite new_ring_replicas.
  apply list_elem_of_fmap. exists 0%nat. split; [done|].
  apply elem_of_seq. lia.
Qed.

(** X25.  A ring built by the constructor routes every key to one of its
    labels, for every hash function; it answers absent exactly when it was
    given no label or a replica count of 0 or less. *)
Theorem new_ring_routes_to_its_nodes (nodes : list string) (R : Z)
    (key : string) :
  (nodes = [] ∨ R ≤ 0 → get_node _hash key (new_ring _hash nodes R) = Return None) ∧
  (nodes ≠ [] → 0 < R →
   ∃ label, label ∈ nodes ∧
            get_node _hash key (new_ring _hash nodes R) = Return (Some label)).
Proof.
  split.
  - intros Hnone. unfold get_node. rewrite decide_True; [done|].
    destruct Hnone as [->|HR]; [done|].
    induction nodes as [|node nodes IH] using rev_ind; [done|].
    rewrite new_ring_snoc. unfold add_node. rewrite new_ring_replicas.
    by replace (Z.to_nat R) with 0%nat by lia.
  - intros Hnodes HR.
    destruct (get_node_lands key _ (new_ring_wf _hash nodes R)
                (new_ring_nonempty nodes R Hnodes HR))
      as (pos & label & Hget & Hl & _).
    exists label. split; [|done]. by eapply new_ring_labels.
Qed.

(** X26.  Adding a node moves keys only to that node: on a well-formed
    ring that holds a position, the label of a key after [add_node(node)] is
    its label before, or [node]. *)
Theorem add_node_moves_keys_only_to_it (node key : string)
    (r : ConsistentHashing)
    (Hwf : ring_wf r) (Hne : ring r ≠ ∅) :
  ∃ label label',
    get_node _hash key r = Return (Some label) ∧
    get_node _hash key (add_node _hash node r) = Return (Some label') ∧
    (label' = label ∨ label' = node).
Proof.
  destruct (get_node_lands key r Hwf Hne) as (pos & label & Hget & Hl & Hsucc).
  assert (Hsub : ∀ q, q ∈ dom (ring r) → q ∈ dom (ring (add_node _hash node r))).
  { intros q [l Hq]%elem_of_dom. apply elem_of_dom. rewrite add_node_ring.
    case_decide; eauto. }
  assert (Hne' : ring (add_node _hash node r) ≠ ∅).
  { intros Hemp. destruct Hsucc as [Hin _]. apply Hsub in Hin.
    rewrite Hemp, dom_empty_L in Hin. by apply not_elem_of_empty in Hin. }
  destruct (get_node_lands key _ (add_node_wf _hash node r Hwf) Hne')
    as (pos' & label' & Hget' & Hl' & Hsucc').
  exists label, label'. split; [done|]. split; [done|].
  rewrite add_node_ring in Hl'. case_decide as Hp.
  - right. by injection Hl' as <-.
  - left. assert (Hin : pos' ∈ dom (ring r)) by (apply elem_of_dom; eauto).
    pose proof (successor_restrict _ _ _ _ Hsub Hsucc' Hin) as Hs.
    rewrite (successor_unique _ _ _ _ Hs Hsucc) in Hl'. congruence.
Qed.

(** X27.  Removing a node moves only the keys that were routed to it: on
    a well-formed ring without repeated positions, a key whose label is not
    [node] gets the same label after [remove_node(node)]. *)
Theorem remove_node_moves_only_its_keys (node key : string)
    (r r' : ConsistentHashing) (label : string)
    (Hwf : ring_wf r) (Hnd : NoDup (sorted_keys r))
    (Hrem : remove_node node r = (Return (), r'))
    (Hget : get_node _hash key r = Return (Some label))
    (Hkeep : label ≠ node) :
  get_node _hash key r' = Return (Some label).
Proof.
  destruct (remove_node_wf node r Hwf Hnd) as (r2 & Hrem2 & Hwf' & _ & Hdom).
  rewrite Hrem in Hrem2. injection Hrem2 as <-.
  assert (Hl : listed r) by (split; [apply Hwf|]; intros pos; apply Hwf).
  destruct (remove_positions_result (keys_to_remove node r) r Hl)
    as (r3 & Hrem3 & _ & _ & Hring & _).
  { apply NoDup_fst_map_to_list. }
  { intros k Hk%keys_to_remove_spec. apply elem_of_dom. eauto. }
  unfold remove_node in Hrem. rewrite Hrem in Hrem3. injection Hrem3 as <-.
  assert (Hne : ring r ≠ ∅).
  { intros Hemp. unfold get_node in Hget. by rewrite decide_True in Hget. }
  destruct (get_node_lands key r Hwf Hne) as (pos & l & Hget0 & Hpos & Hsucc).
  rewrite Hget in Hget0. injection Hget0 as <-.
  assert (Hpos' : ring r' !! pos = Some label).
  { rewrite Hring. case_decide as Hk; [|done].
    apply keys_to_remove_spec in Hk. congruence. }
  assert (Hsub : ∀ q, q ∈ dom (ring r') → q ∈ dom (ring r)).
  { intros q [lq Hq]%elem_of_dom. rewrite Hring in Hq. apply elem_of_dom.
    case_decide; eauto. done. }
  assert (Hne' : ring r' ≠ ∅).
  { intros Hemp. by rewrite Hemp, lookup_empty in Hpos'. }
  destruct (get_node_lands key r' Hwf' Hne') as (pos' & l' & Hget' & Hl' & Hsucc').
  assert (Hin : pos ∈ dom (ring r')) by (apply elem_of_dom; eauto).
  pose proof (successor_restrict _ _ _ _ Hsub Hsucc Hin) as Hs.
  rewrite (successor_unique _ _ _ _ Hsucc' Hs) in Hl'. congruence.
Qed.

End ring_more.

(** ** A label added twice and removed *)

Section ring_stale.
Import Ring.
Context (_hash : string → Z).

(** C8.  The claim fails on rings that the operations reach.  Take any
    hash function, a reachable ring in which the label [node] holds exactly
    the positions computed for it, without repeats, next to some other
    label, and a key that [get_node] routes to [node].  After
    [add_node(node)] once more and [remove_node(node)], the ring still holds
    a position, and [get_node] of that key raises [KeyError] where the claim
    has it return a label: [insort] has put each position of [node] into
    [sorted_keys] a second time and [list.remove] takes out one copy only, so
    the lookup lands on a position that the dictionary has lost. *)
Theorem get_node_raises_on_stale_position (node key : string)
    (r : ConsistentHashing)
    (Hreach : ring_reachable _hash r)
    (Hnd : NoDup (positions _hash node r))
    (Hexact : ∀ pos, ring r !! pos = Some node ↔ pos ∈ positions _hash node r)
    (Hroute : get_node _hash key r = Return (Some node))
    (Hother : ∃ pos label, ring r !! pos = Some label ∧ label ≠ node) :
  ∃ r', remove_node node (add_node _hash node r) = (Return (), r') ∧
        ring_reachable _hash r' ∧ ring r' ≠ ∅ ∧
        sorted_keys r' = sorted_keys r ∧
        get_node _hash key r' = Raise KeyError.
Proof.
  pose proof (ring_reachable_listed _hash r Hreach) as Hl.
  pose proof (add_node_listed _hash node r Hl) as Hl1.
  assert (Hkeys : ∀ pos, pos ∈ keys_to_remove node (add_node _hash node r)
                         ↔ pos ∈ positions _hash node r).
  { intros pos. rewrite keys_to_remove_spec, add_node_ring.
    case_decide; [done|]. by rewrite Hexact. }
  destruct (remove_positions_result
              (keys_to_remove node (add_node _hash node r))
              (add_node _hash node r) Hl1)
    as (r' & Hrem & [Hs' _] & _ & Hring & Hperm).
  { apply NoDup_fst_map_to_list. }
  { intros k Hk%keys_to_remove_spec. apply elem_of_dom. eauto. }
  exists r'. split; [done|]. split.
  { replace r' with (snd (remove_node node (add_node _hash node r))).
    - apply reach_remove, reach_add, Hreach.
    - unfold remove_node. by rewrite Hrem. }
  assert (Ha : sorted_keys r' = sorted_keys r).
  { apply (StronglySorted_unique Z.le); [done|apply Hl|].
    apply (Permutation_app_inv_l (positions _hash node r)).
    transitivity (sorted_keys (add_node _hash node r)).
    - rewrite Hperm. apply Permutation_app_tail.
      apply NoDup_Permutation; [done|apply NoDup_fst_map_to_list|].
      intros pos. by rewrite Hkeys.
    - by apply add_replicas_sorted_keys. }
  assert (Hne : ring r' ≠ ∅).
  { destruct Hother as (pos & label & Hpos & Hlab). intros Hemp.
    apply (f_equal (λ m, m !! pos)) in Hemp.
    rewrite Hring, lookup_empty in Hemp.
    case_decide as Hk.
    - apply Hkeys, Hexact in Hk. congruence.
    - rewrite add_node_ring in Hemp. case_decide as Hp; [|congruence].
      apply Hexact in Hp. congruence. }
  split; [done|]. split; [done|].
  unfold get_node in *. rewrite decide_False by done. rewrite Ha.
  case_decide as He; [done|].
  destruct (sorted_keys r !! _) as [p|]; [|done].
  destruct (ring r !! p) as [label|] eqn:Ep; [|done].
  injection Hroute as ->.
  rewrite Hring, decide_True; [done|]. by apply Hkeys, Hexact.
Qed.

End ring_stale.

Section ring_stale_example.
Import Ring RingExamples.

Lemma ring_a_bb_map : ring ring_a_bb = {[ 30 := "A"%string; 40 := "BB"%string ]}.
Proof. by vm_compute. Qed.

Lemma get_node_raises_on_stale_position_witness :
  ∃ r', remove_node "A" (add_node toy_hash "A" ring_a_bb) = (Return (), r') ∧
        ring_reachable toy_hash r' ∧ ring r' ≠ ∅ ∧
        sorted_keys r' = sorted_keys ring_a_bb ∧
        get_node toy_hash "a" r' = Raise KeyError.
Proof.
  apply get_node_raises_on_stale_position.
  - apply (reach_add toy_hash "BB"), (reach_add toy_hash "A"), reach_new.
  - vm_compute. apply NoDup_singleton.
  - intros pos.
    assert (Hp : positions toy_hash "A" ring_a_bb = [30]) by by vm_compute.
    rewrite Hp, ring_a_bb_map, list_elem_of_singleton.
    rewrite lookup_insert_Some, lookup_singleton_Some.
    split; [intros [[<- _]|[_ [_ [=]]]]; done|intros ->; by left].
  - by vm_compute.
  - exists 40, "BB"%string. split; [by vm_compute|done].
Defined.

End ring_stale_example.

(** * The router *)

Section router_facts.
Import Node Ring Router.
Context (_hash : string → Z).
Context {N G : Type}
  (node_get : string → N * G → option (result (option string) * (N * G)))
  (node_put : string → string → N * G → result unit * (N * G)).
Implicit Types (dc : DistributedCache N) (s : DistributedCache N * G)
  (nodes : list N) (key name label : string).

#[local] Abbreviation get := (Router.get _hash node_get).
#[local] Abbreviation put := (Router.put _hash node_put).
#[local] Abbreviation serve := (Router.serve _hash node_get node_put).
#[local] Abbreviation serve_all := (Router.serve_all _hash node_get node_put).

Lemma node_names_nodup count : NoDup (node_names count).
Proof.
  apply NoDup_fmap_2; [|apply NoDup_seq].
  intros i j Heq. apply (inj (String.app "Node-")) in Heq.
  by apply (inj pretty) in Heq.
Qed.

Lemma node_names_truthy count name : name ∈ node_names count → truthy name = true.
Proof. intros (i & -> & _)%list_elem_of_fmap. done. Qed.

Lemma new_cluster_lookup nodes name :
  name ∈ node_names (length nodes) →
  ∃ i node, name = ("Node-" +:+ pretty i)%string ∧ nodes !! i = Some node ∧
            node_map (new_cluster _hash nodes) !! name = Some node.
Proof.
  intros (i & -> & Hi%elem_of_seq)%list_elem_of_fmap.
  destruct (lookup_lt_is_Some_2 nodes i) as [node Hnode]; [lia|].
  exists i, node. split; [done|]. split; [done|].
  apply elem_of_list_to_map_1.
  - rewrite fst_zip; [apply node_names_nodup|].
    unfold node_names. by rewrite length_fmap, length_seq.
  - apply list_elem_of_lookup. exists i. rewrite lookup_zip_with.
    unfold node_names. rewrite list_lookup_fmap, lookup_seq_lt by lia.
    simpl. by rewrite Hnode.
Qed.

Lemma get_node_label key r label :
  get_node _hash key r = Return (Some label) →
  ∃ pos, ring r !! pos = Some label.
Proof.
  unfold get_node. case_decide; [done|].
  destruct (sorted_keys r !! _) as [pos|]; [|done].
  destruct (ring r !! pos) as [l|] eqn:E; [|done].
  intros [= <-]. eauto.
Qed.

Lemma new_cluster_inv nodes : router_inv (new_cluster _hash nodes).
Proof.
  split.
  - intros pos label Hl%new_ring_labels.
    destruct (new_cluster_lookup nodes label Hl) as (i & node & _ & _ & ->).
    by eexists.
  - simpl. destruct (new_ring_wf _hash (node_names (length nodes)) 3) as [Hs Hp].
    split; [done|]. intros pos. apply Hp.
Qed.

Lemma set_node_inv dc name node :
  router_inv dc → router_inv (set_node name node dc).
Proof.
  intros [Hl Hs]. split; [|done].
  intros pos label Hpos. simpl. apply lookup_insert_is_Some'. right.
  by apply (Hl pos).
Qed.

Lemma add_node_inv dc node name :
  router_inv dc → router_inv (add_node _hash node name dc).
Proof.
  intros [Hl Hs]. split; [|by apply add_node_listed].
  intros pos label. simpl. rewrite add_node_ring.
  rewrite lookup_insert_is_Some'. case_decide.
  - intros [= <-]. by left.
  - intros Hpos. right. by apply (Hl pos).
Qed.

Lemma remove_node_inv dc name :
  router_inv dc →
  (remove_node name dc).1 = Return () ∧ router_inv (remove_node name dc).2.
Proof.
  intros [Hl Hs]. unfold remove_node.
  destruct (node_map dc !! name) as [node|] eqn:E; [|done].
  destruct (remove_positions_result (keys_to_remove name (hashing dc)) (hashing dc) Hs)
    as (r' & Hrem & Hs' & _ & Hring & _).
  { apply NoDup_fst_map_to_list. }
  { intros k Hk%keys_to_remove_spec. apply elem_of_dom. eauto. }
  unfold Ring.remove_node. rewrite Hrem. split; [done|]. split; [|done].
  intros pos label. simpl. rewrite Hring. case_decide as Hk; [done|].
  intros Hpos. rewrite lookup_delete_is_Some. split; [|by apply (Hl pos)].
  intros ->. by apply Hk, keys_to_remove_spec.
Qed.

Lemma get_inv key s r s' :
  router_inv s.1 → get key s = Some (r, s') → router_inv s'.1.
Proof.
  intros Hinv. unfold Router.get.
  destruct (get_node _hash key (hashing s.1)) as [[label|]|e];
    [|by intros [= _ <-]..].
  destruct (truthy label); [|by intros [= _ <-]].
  destruct (node_map s.1 !! label) as [node|]; [|by intros [= _ <-]].
  destruct (node_get key (node, s.2)) as [[r0 [node' g']]|]; [|done].
  intros [= _ <-]. by apply set_node_inv.
Qed.

Lemma put_inv key value s :
  router_inv s.1 → router_inv (put key value s).2.1.
Proof.
  intros Hinv. unfold Router.put.
  destruct (get_node _hash key (hashing s.1)) as [[label|]|e]; [|done..].
  destruct (truthy label); [|done].
  destruct (node_map s.1 !! label) as [node|]; [|done].
  destruct (node_put key value (node, s.2)) as [r0 [node' g']].
  by apply set_node_inv.
Qed.

Lemma serve_all_inv qs s s' :
  router_inv s.1 → serve_all qs s = Some s' → router_inv s'.1.
Proof.
  revert s. induction qs as [|q qs IH]; intros s Hinv; simpl.
  { by intros [= <-]. }
  destruct (serve q s) as [s1|] eqn:E; [|done].
  apply IH. destruct q as [key|key value|node name|name]; simpl in E.
  - destruct (get key s) as [[r s2]|] eqn:Eg; [|done].
    injection E as <-. by eapply get_inv.
  - injection E as <-. by apply put_inv.
  - injection E as <-. by apply add_node_inv.
  - injection E as <-. by apply remove_node_inv.
Qed.

(** X28.  Start from the constructor and let a client make any calls of
    [get], [put], [add_node] and [remove_node], with names added twice or
    removed while absent.  Every label the ring then returns for a key is a
    name of [node_map], so the lookup [self.node_map[node_name]] of [get] and
    [put] does not raise, and [remove_node] of any name returns normally. *)
Theorem router_finds_its_nodes (nodes : list N) (g : G)
    (qs : list (request N)) (s : DistributedCache N * G)
    (key label name : string)
    (Hrun : serve_all qs (new_cluster _hash nodes, g) = Some s)
    (Hroute : get_node _hash key (hashing s.1) = Return (Some label)) :
  is_Some (node_map s.1 !! label) ∧ (remove_node name s.1).1 = Return ().
Proof.
  pose proof (serve_all_inv qs (new_cluster _hash nodes, g) s
                (new_cluster_inv nodes) Hrun) as Hinv.
  split; [|by apply remove_node_inv].
  destruct (get_node_label key _ label Hroute) as [pos Hpos].
  by apply (proj1 Hinv pos).
Qed.

Lemma new_cluster_routes nodes key :
  nodes ≠ [] →
  ∃ i node, nodes !! i = Some node ∧
    get_node _hash key (hashing (new_cluster _hash nodes))
    = Return (Some ("Node-" +:+ pretty i)%string) ∧
    node_map (new_cluster _hash nodes) !! ("Node-" +:+ pretty i)%string = Some node.
Proof.
  intros Hnodes. simpl.
  assert (Hnames : node_names (length nodes) ≠ []).
  { destruct nodes; [done|]. done. }
  destruct (get_node_lands _hash key _ (new_ring_wf _hash _ 3)
              (new_ring_nonempty _hash _ 3 Hnames ltac:(lia)))
    as (pos & label & Hget & Hl%new_ring_labels & _).
  destruct (new_cluster_lookup nodes label Hl) as (i & node & -> & Hi & Hm).
  by exists i, node.
Qed.

(** X29.  A cluster built from an empty list answers absent to every
    [get] and drops every [put] without an error.  A cluster built from
    nodes routes every key to one of them, the node at some index [i] of the
    list, known as [Node-i]: [get] and [put] return or raise what that node
    does, and no other node is called; the ring stays as it was. *)
Theorem new_cluster_dispatches (nodes : list N) (g : G) (key value : string) :
  (nodes = [] →
   get key (new_cluster _hash nodes, g) = Some (Return None, (new_cluster _hash nodes, g)) ∧
   put key value (new_cluster _hash nodes, g) = (Return (), (new_cluster _hash nodes, g))) ∧
  (nodes ≠ [] →
   ∃ i node, nodes !! i = Some node ∧
     get key (new_cluster _hash nodes, g) =
       match node_get key (node, g) with
       | Some (r, (node', g')) =>
           Some (r, (set_node ("Node-" +:+ pretty i) node' (new_cluster _hash nodes), g'))
       | None => None
       end ∧
     put key value (new_cluster _hash nodes, g) =
       (let '(r, (node', g')) := node_put key value (node, g) in
        (r, (set_node ("Node-" +:+ pretty i) node' (new_cluster _hash nodes), g')))).
Proof.
  split.
  - by intros ->.
  - intros Hnodes.
    destruct (new_cluster_routes nodes key Hnodes) as (i & node & Hi & Hget & Hm).
    exists i, node. split; [done|].
    unfold Router.get, Router.put. cbn [fst snd]. rewrite Hget, Hm.
    by split.
Qed.

End router_facts.

Section cache_cluster.
Import Policy Contract Store Writer Coalescer Node Ring Router.
Context (_hash : string → Z).
Context {P DB : Type} `{!EvictionPolicy string P} `{!Resident string P}
  `{!PolicyLaws string P} `{!Database DB}.
Implicit Types (dc : DistributedCache (node P DB)) (d : DB)
  (nodes : list (node P DB)) (key value name : string).

#[local] Abbreviation get := (Router.get _hash cache_get).
#[local] Abbreviation put := (Router.put _hash cache_put).
#[local] Abbreviation serve_all := (Router.serve_all _hash cache_get cache_put).

Lemma new_cluster_settled nodes :
  Forall quiet nodes → settled _hash nodes (new_cluster _hash nodes).
Proof.
  intros Hq. split; [done|]. intros name Hname.
  destruct (new_cluster_lookup _hash nodes name Hname) as (i & m & _ & Hi & Hm).
  exists m. split; [done|].
  rewrite Forall_lookup in Hq. by apply (Hq i).
Qed.

Lemma set_node_settled nodes dc name m :
  settled _hash nodes dc → quiet m → settled _hash nodes (set_node name m dc).
Proof.
  intros [Hh Hn] Hq. split; [done|]. intros name' Hname'. simpl.
  destruct (decide (name = name')) as [->|Hne].
  - exists m. by rewrite lookup_insert_eq.
  - rewrite lookup_insert_ne by done. by apply Hn.
Qed.

Lemma settled_routes nodes dc key :
  nodes ≠ [] → settled _hash nodes dc →
  ∃ label m, get_node _hash key (hashing dc) = Return (Some label) ∧
             truthy label = true ∧
             node_map dc !! label = Some m ∧ quiet m.
Proof.
  intros Hnodes [Hh Hn]. rewrite Hh.
  assert (Hnames : node_names (length nodes) ≠ []).
  { destruct nodes; [done|]. done. }
  destruct (get_node_lands _hash key _ (new_ring_wf _hash _ 3)
              (new_ring_nonempty _hash _ 3 Hnames ltac:(lia)))
    as (pos & label & Hget & Hl%new_ring_labels & _).
  destruct (Hn label Hl) as (m & Hm & Hq).
  exists label, m. split; [done|]. split; [|done].
  by eapply node_names_truthy.
Qed.

Lemma cache_get_quiet key (m : node P DB) d :
  key ≠ ""%string → quiet m →
  ∃ r m' d', cache_get key (m, d) = Some (r, (m', d')) ∧ quiet m'.
Proof.
  intros Hkey [Hidle Hok]. unfold cache_get. simpl.
  destruct (get_ok key m.1 (set_database d m.2) Hkey Hidle)
    as (r & c' & n' & -> & Hidle' & Hok'); [by apply (node_ok_frame m.2)|].
  by eexists _, (c', n'), _.
Qed.

Lemma cache_put_quiet key value (m : node P DB) d :
  key ≠ ""%string → quiet m → quiet (cache_put key value (m, d)).2.1.
Proof.
  intros Hkey [Hidle Hok]. unfold cache_put. simpl.
  pose proof (put_ok key value (set_database d m.2) Hkey) as Hput.
  destruct (Node.put key value (set_database d m.2)) as [r n']. simpl in *.
  split; [done|]. apply Hput. by apply (node_ok_frame m.2).
Qed.

Lemma serve_all_settled nodes qs dc d :
  nodes ≠ [] → Forall data_request qs → settled _hash nodes dc →
  ∃ dc' d', serve_all qs (dc, d) = Some (dc', d') ∧ settled _hash nodes dc'.
Proof.
  intros Hnodes Hqs. revert dc d.
  induction Hqs as [|q qs Hq _ IH]; intros dc d Hs; simpl; [by eauto|].
  destruct q as [key|key value| |]; simpl in Hq; try done.
  - destruct (settled_routes nodes dc key Hnodes Hs) as (label & m & Hget & Ht & Hm & Hqt).
    destruct (cache_get_quiet key m d Hq Hqt) as (r & m' & d' & Hcg & Hq').
    unfold Router.serve, Router.get. cbn [fst snd]. rewrite Hget, Ht, Hm, Hcg. simpl.
    apply IH. by apply set_node_settled.
  - destruct (settled_routes nodes dc key Hnodes Hs) as (label & m & Hget & Ht & Hm & Hqt).
    pose proof (cache_put_quiet key value m d Hq Hqt) as Hq'.
    unfold Router.serve, Router.put. cbn [fst snd]. rewrite Hget, Ht, Hm.
    destruct (cache_put key value (m, d)) as [r [m' d']]. simpl in *.
    apply IH. by apply set_node_settled.
Qed.

(** X30.  Read your writes through the router: take a cluster of
    [RobustCache] nodes over one database, each in its invariant when the
    cluster is built, and any sequence of [get] and [put] calls with truthy
    keys.  The sequence runs to its end, and after it a [put(key, value)]
    that returns normally is followed by a [get(key)] that returns [value]:
    both calls reach the same node, whose policy has not evicted the key in
    between. *)
Theorem cluster_reads_its_writes (nodes : list (node P DB)) (d : DB)
    (qs : list (request (node P DB))) (key : string)
    (Hnodes : nodes ≠ []) (Hquiet : Forall quiet nodes)
    (Hqs : Forall data_request qs) (Hkey : key ≠ ""%string) :
  ∃ s, serve_all qs (new_cluster _hash nodes, d) = Some s ∧
       ∀ value s', put key value s = (Return (), s') →
                   ∃ s'', get key s' = Some (Return (Some value), s'').
Proof.
  destruct (serve_all_settled nodes qs _ d Hnodes Hqs (new_cluster_settled nodes Hquiet))
    as (dc & d1 & Hrun & Hs).
  exists (dc, d1). split; [done|]. intros value s'.
  destruct (settled_routes nodes dc key Hnodes Hs) as (label & m & Hget & Ht & Hm & Hidle & Hok).
  unfold Router.put, Router.get. cbn [fst snd]. rewrite Hget, Ht, Hm.
  unfold cache_put. cbn [fst snd].
  destruct (Node.put key value (set_database d1 m.2)) as [r n'] eqn:Eput.
  intros [= -> <-]. cbn [fst snd hashing set_node node_map].
  rewrite Hget, Ht, lookup_insert_eq.
  destruct (put_returns key value _ n' Hkey
              (node_ok_frame m.2 (set_database d1 m.2) eq_refl eq_refl eq_refl Hok) Eput)
    as [Hok' Hv].
  destruct (get_hit_ok key value (set_database (database n') n')) as (p' & Hhit & _).
  { by apply (node_ok_frame n'). }
  { done. }
  unfold cache_get, Node.get. cbn [fst snd]. rewrite Hhit. by eexists.
Qed.

End cache_cluster.

(** * The further properties at work *)

Section policy_witnesses.
Import Policy PolicyExamples.

Lemma lfu_a_b_b_driven : lfu_driven lfu_a_b_b.
Proof.
  change (lfu_driven (snd (lfu_on_access "b"%string
           (snd (lfu_on_access "b"%string
             (snd (lfu_on_access "a"%string lfu_init))))))).
  repeat apply driven_access. apply driven_init.
Qed.

Lemma lru_touched_key_survives_witness :
  ∃ v p', lru_evict (lru_on_access "a"%string (run [OnAccess "b"%string] lru_init))
          = (Some v, p') ∧ v ≠ "a"%string ∧ "a"%string ∈ order p'.
Proof.
  apply (lru_touched_key_survives _ "a"%string "b"%string).
  - by eexists.
  - vm_compute. by left.
  - done.
Defined.

Lemma lfu_evicts_least_frequent_witness :
  ∃ v rest p',
    lfu_evict lfu_a_b_b = (Return (Some v), p') ∧
    bucket (freq_keys lfu_a_b_b) (min_freq lfu_a_b_b) = v :: rest ∧
    key_freq lfu_a_b_b !! v = Some (min_freq lfu_a_b_b) ∧
    (∀ k f, key_freq lfu_a_b_b !! k = Some f → min_freq lfu_a_b_b ≤ f) ∧
    key_freq p' = delete v (key_freq lfu_a_b_b).
Proof.
  apply lfu_evicts_least_frequent.
  - apply lfu_a_b_b_driven.
  - intros Hemp. apply (f_equal (λ m, m !! "a"%string)) in Hemp.
    vm_compute in Hemp. done.
Defined.

Lemma lfu_on_access_never_raises_witness :
  ∃ p', lfu_on_access "a"%string lfu_after_evict = (Return (), p') ∧
        is_Some (key_freq p' !! "a"%string).
Proof. apply lfu_on_access_never_raises. by eexists. Defined.

Lemma lfu_second_evict_raises_witness :
  ∃ p1 p2,
    lfu_evict lfu_a_b_b = (Return (Some "a"%string), p1) ∧
    lfu_evict p1 = (Raise KeyError, p2) ∧
    key_freq p2 = delete "a"%string (key_freq lfu_a_b_b) ∧
    freq_keys p2 !! min_freq lfu_a_b_b = Some [].
Proof.
  apply (lfu_second_evict_raises _ "a"%string "b"%string).
  - apply lfu_a_b_b_driven.
  - by vm_compute.
  - split; [done|]. vm_compute. by eexists.
Defined.

End policy_witnesses.

Section node_witnesses.
Import Policy Contract Store Writer Coalescer CoalescerExamples Node NodeExamples.

Lemma do_alone_files_outcome_witness :
  ∃ c', do "x" loading (coalescer_init, ()) = Some ((loading ()).1, (c', (loading ()).2)) ∧
        active_requests c' = active_requests coalescer_init ∧
        match (loading ()).1 with
        | Return v => results c' !! "x"%string = Some v ∧ errors c' = errors coalescer_init
        | Raise e => errors c' !! "x"%string = Some e ∧ results c' = results coalescer_init
        end.
Proof. by apply do_alone_files_outcome. Defined.

Lemma new_lru_ok {DB} `{!Database DB} cap ld wr (d : DB) :
  1 ≤ cap → node_ok (new_cache cap (lru_init (K:=string)) ld wr d).
Proof. intros Hcap. apply new_cache_ok; [done|simpl; constructor|done]. Qed.

Lemma full_lru_ok : node_ok full_lru.
Proof. apply put_ok; [done|]. by apply new_lru_ok. Qed.

Lemma put_then_get_witness :
  ∃ n'', get "a" (coalescer_init, full_lru)
         = Some (Return (Some "1"%string), (coalescer_init, n'')) ∧
         storage n'' = storage full_lru.
Proof.
  apply (put_then_get tiny_lru.2 full_lru "a" "1" coalescer_init).
  - done.
  - by apply new_lru_ok.
  - by vm_compute.
Defined.

Lemma get_miss_loads_and_caches_witness :
  ∃ c' n',
    get "x" (coalescer_init, reading_node) = Some (Return (Some "v"%string), (c', n')) ∧
    storage n' !! "x"%string = Some "v"%string ∧ database n' = database reading_node ∧
    results c' !! "x"%string = Some (Some "v"%string) ∧
    ∃ n'', get "x" (c', n') = Some (Return (Some "v"%string), (c', n'')) ∧
           database n'' = database reading_node.
Proof.
  apply get_miss_loads_and_caches; try done.
  by apply new_lru_ok.
Defined.

Lemma get_absent_is_not_cached_witness :
  get "y" (coalescer_init, reading_node)
  = Some (Return None, (window_closed "y" (Return None) coalescer_init,
                        set_database (database reading_node) reading_node)).
Proof.
  by apply (get_absent_is_not_cached reading_node "y" coalescer_init).
Defined.

Lemma get_load_error_propagates_witness :
  ∃ c', get "x" loading_node
        = Some (Raise (StoreError "down"),
                (c', set_database (snd (db_get recovering_db "x")) loading_node.2)) ∧
        errors c' !! "x"%string = Some (StoreError "down") ∧
        results c' = results coalescer_init.
Proof.
  by apply (get_load_error_propagates loading_node.2 "x" coalescer_init).
Defined.

Lemma put_resident_key_evicts_nothing_witness :
  ∃ n', _put_internal "a" "2" full_lru = (Return (), n') ∧
        storage n' = <["a"%string := "2"%string]> (storage full_lru) ∧
        dom (storage n') = dom (storage full_lru) ∧
        resident (eviction n') = resident (eviction full_lru).
Proof.
  apply (put_resident_key_evicts_nothing full_lru "a" "2" "1").
  - apply full_lru_ok.
  - by vm_compute.
Defined.

Lemma put_goes_through_writer_witness :
  (∃ n', put "a" "1" write_back_node = (Return (), n') ∧
         writer n' = Some (WriteBack {| queue := [Order "a" "1"];
                                        worker_alive := true |}) ∧
         database n' = ∅ ∧ storage n' !! "a"%string = Some "1"%string) ∧
  (∃ n', put "a" "1" writing_node = (Return (), n') ∧
         database n' = <["a"%string := "1"%string]> ∅ ∧
         storage n' !! "a"%string = Some "1"%string).
Proof.
  split.
  - refine (proj1 (put_goes_through_writer write_back_node "a" "1" _ _) wb_init _);
      [done|by apply new_lru_ok|done].
  - refine (proj2 (put_goes_through_writer writing_node "a" "1" _ _) _ _ _);
      [done|by apply new_lru_ok|done|done].
Defined.

Lemma lru_put_evicts_oldest_witness :
  ∃ n', _put_internal "b" "2" full_lru = (Return (), n') ∧
        storage n' = <["b"%string := "2"%string]> (delete "a"%string (storage full_lru)) ∧
        order (eviction n') = [] ++ ["b"%string].
Proof.
  apply (lru_put_evicts_oldest full_lru "b" "2" "a" []).
  - apply full_lru_ok.
  - done.
  - by vm_compute.
  - by vm_compute.
  - by vm_compute.
Defined.

End node_witnesses.

Section coalescer_witnesses.
Import Sched Coalescer CoalescerExamples.

Lemma three_calls_at_entry : at_entry three_calls.
Proof.
  intros t pc Ht. destruct t as [|[|[|t]]]; simpl in Ht; [..|done];
    injection Ht as <-; by eexists _, _.
Qed.

Lemma one_leader_per_key_witness :
  ∃ ts' c',
    sched_run do_step [1; 2]%nat (three_calls, (coalescer_init, ()))
    = Some (ts', (c', ())) ∧
    ts' !! 1%nat = Some (AtCall "x" 0 loading) ∧ 1%nat = 1%nat.
Proof.
  eexists _, _. split; [by vm_compute|]. split; [done|].
  eapply (one_leader_per_key [1; 2]%nat three_calls _ coalescer_init _ () ()
           1%nat 1%nat (AtCall "x" 0 loading) (AtCall "x" 0 loading) "x").
  - apply three_calls_at_entry.
  - done.
  - by vm_compute.
  - done.
  - done.
  - done.
  - done.
Defined.

Lemma record_iff_in_flight_witness :
  ∃ ts' c',
    sched_run do_step [1; 2]%nat (three_calls, (coalescer_init, ()))
    = Some (ts', (c', ())) ∧
    (is_Some (active_requests c' !! "x"%string) ↔
     ∃ t pc, ts' !! t = Some pc ∧ leads "x" pc).
Proof.
  eexists _, _. split; [by vm_compute|].
  eapply (record_iff_in_flight [1; 2]%nat three_calls _ coalescer_init _ () ()).
  - apply three_calls_at_entry.
  - done.
  - by vm_compute.
Defined.

Lemma waiter_is_not_orphaned_witness :
  ∃ ts' c',
    sched_run do_step [1; 2]%nat (three_calls, (coalescer_init, ()))
    = Some (ts', (c', ())) ∧
    ts' !! 2%nat = Some (AtWait "x" 0) ∧
    (events c' !! 0%nat = Some true ∨
     ∃ t' pc, ts' !! t' = Some pc ∧ before_set "x" 0 pc ∧
              is_Some (do_step pc (c', ()))).
Proof.
  eexists _, _. split; [by vm_compute|]. split; [done|].
  eapply (waiter_is_not_orphaned [1; 2]%nat three_calls _ coalescer_init _ () ()
           2%nat "x" 0%nat).
  - apply three_calls_at_entry.
  - done.
  - by vm_compute.
  - done.
Defined.

Lemma outcomes_are_never_removed_witness :
  sched_run do_step first_window (three_calls, (coalescer_init, ()))
  = Some (first_window_done, (after_first_window, ())) ∧
  is_Some (errors after_first_window !! "x"%string) ∧
  ∃ ts2 c2,
    sched_run do_step second_window (first_window_done, (after_first_window, ()))
    = Some (ts2, (c2, ())) ∧
    is_Some (errors c2 !! "x"%string).
Proof.
  split; [by vm_compute|]. split; [by eexists|].
  eexists _, _. split; [by vm_compute|].
  refine (proj2 (outcomes_are_never_removed second_window first_window_done _
                   after_first_window _ () () "x" _) _).
  - by vm_compute.
  - by eexists.
Defined.

End coalescer_witnesses.

Section writer_witnesses.
Import Store Writer WriterExamples.

Lemma database_holds_prefix_of_writes_witness :
  ∃ s, wb_run writes_before_close (wb_start (∅ : MockDB)) = Some s ∧
       ∃ done rest, writes_of writes_before_close = done ++ rest ∧
                    store s = deliver done (∅ : MockDB).
Proof.
  eexists. split; [by vm_compute|].
  apply (database_holds_prefix_of_writes writes_before_close (∅ : MockDB)).
  by vm_compute.
Defined.

Lemma nothing_written_after_worker_exit_witness :
  ∃ s s',
    wb_run (writes_before_close ++ EvCloseCall :: drain) (wb_start (∅ : MockDB))
    = Some s ∧
    wb_run [EvWrite "c" "3"; EvWorker] s = None ∧
    wb_run [EvWrite "c" "3"; EvCloseReturn] s = Some s' ∧
    store s' = store s ∧ worker_alive (wb s') = false.
Proof.
  eexists _, _. split; [by vm_compute|]. split; [by vm_compute|].
  split; [by vm_compute|].
  apply (nothing_written_after_worker_exit [EvWrite "c" "3"; EvCloseReturn]).
  - by vm_compute.
  - by vm_compute.
Defined.

Lemma close_can_return_witness :
  ∃ s, wb_run (writes_before_close ++ [EvCloseCall]) (wb_start (∅ : MockDB)) = Some s ∧
       ∃ k s', (k ≤ length (queue (wb s)))%nat ∧
               wb_run (replicate k EvWorker ++ [EvCloseReturn]) s = Some s'.
Proof.
  eexists. split; [by vm_compute|].
  apply (close_can_return (writes_before_close ++ [EvCloseCall]) (∅ : MockDB)).
  - by vm_compute.
  - by vm_compute.
Defined.

End writer_witnesses.

Section ring_witnesses.
Import Ring RingExamples.

Lemma two_positions_wf : ring_wf two_positions.
Proof.
  split; simpl.
  - repeat constructor; lia.
  - intros pos. rewrite dom_insert_L, dom_singleton_L.
    rewrite !elem_of_cons, elem_of_union, !elem_of_singleton.
    split; [intros [?|[?|?%not_elem_of_nil]]|intros [?|?]]; tauto.
Qed.

Lemma two_positions_labels pos label :
  ring two_positions !! pos = Some label → (pos = 20 ∧ label = "A"%string) ∨
                                           (pos = 50 ∧ label = "B"%string).
Proof.
  unfold two_positions. simpl.
  rewrite lookup_insert_Some, lookup_singleton_Some.
  intros [[<- <-]|[_ [<- <-]]]; [by left|by right].
Qed.

Lemma two_positions_nodup : NoDup (sorted_keys two_positions).
Proof.
  apply NoDup_cons_2; [|apply NoDup_singleton].
  by intros [=]%list_elem_of_singleton.
Qed.

Lemma reachable_ring_stays_sorted_witness :
  StronglySorted Z.le (sorted_keys (add_node toy_hash "A" (new_ring toy_hash ["B"%string] 2))) ∧
  (∀ pos, pos ∈ dom (ring (add_node toy_hash "A" (new_ring toy_hash ["B"%string] 2))) →
          pos ∈ sorted_keys (add_node toy_hash "A" (new_ring toy_hash ["B"%string] 2))) ∧
  (remove_node "B" (add_node toy_hash "A" (new_ring toy_hash ["B"%string] 2))).1 = Return ().
Proof.
  apply (reachable_ring_stays_sorted toy_hash).
  apply reach_add. apply (reach_add toy_hash "B"). apply reach_new.
Defined.

Lemma add_node_owns_its_positions_witness :
  ring (add_node toy_hash "C" two_positions) !! 30 = Some "C"%string ∧
  ring (add_node toy_hash "C" two_positions) !! 20 = Some "A"%string.
Proof.
  split.
  - apply (add_node_owns_its_positions toy_hash "C" two_positions 30).
    vm_compute. by left.
  - change (Some "A"%string) with (ring two_positions !! 20).
    apply (add_node_owns_its_positions toy_hash "C" two_positions 20).
    vm_compute. by intros [?|?%not_elem_of_nil]%elem_of_cons.
Defined.

Lemma remove_after_add_restores_witness :
  remove_node "C" (add_node toy_hash "C" two_positions) = (Return (), two_positions).
Proof.
  apply remove_after_add_restores.
  - apply two_positions_wf.
  - intros pos Hpos. by destruct (two_positions_labels _ _ Hpos) as [[_ [=]]|[_ [=]]].
  - vm_compute. apply NoDup_singleton.
  - intros pos Hpos [label Hl]%elem_of_dom.
    vm_compute in Hpos. apply list_elem_of_singleton in Hpos.
    by destruct (two_positions_labels _ _ Hl) as [[-> _]|[-> _]].
Defined.

Lemma new_ring_routes_to_its_nodes_witness :
  ∃ label, label ∈ ["A"; "BB"]%string ∧
           get_node toy_hash "abc" (new_ring toy_hash ["A"; "BB"]%string 1)
           = Return (Some label).
Proof.
  apply (new_ring_routes_to_its_nodes toy_hash ["A"; "BB"]%string 1 "abc");
    [done|lia].
Defined.

Lemma add_node_moves_keys_only_to_it_witness :
  ∃ label label',
    get_node toy_hash "abc" two_positions = Return (Some label) ∧
    get_node toy_hash "abc" (add_node toy_hash "C" two_positions)
    = Return (Some label') ∧
    (label' = label ∨ label' = "C"%string).
Proof.
  apply add_node_moves_keys_only_to_it.
  - apply two_positions_wf.
  - intros Hemp. apply (f_equal (λ m, m !! 20)) in Hemp. by vm_compute in Hemp.
Defined.

Lemma remove_node_moves_only_its_keys_witness :
  ∃ r', remove_node "B" two_positions = (Return (), r') ∧
        get_node toy_hash "a" r' = Return (Some "A"%string).
Proof.
  eexists. split; [by vm_compute|].
  apply (remove_node_moves_only_its_keys toy_hash "B" "a" two_positions _ "A").
  - apply two_positions_wf.
  - apply two_positions_nodup.
  - by vm_compute.
  - by vm_compute.
  - done.
Defined.

End ring_witnesses.

Section router_witnesses.
Import Policy Contract Store Coalescer Node Ring RingExamples Router RouterExamples.

Lemma router_finds_its_nodes_witness :
  ∃ s label,
    serve_all toy_hash cache_get cache_put busy_day
      (new_cluster toy_hash two_nodes, shared_db) = Some s ∧
    get_node toy_hash "x" (hashing s.1) = Return (Some label) ∧
    is_Some (node_map s.1 !! label) ∧
    (remove_node "Node-1" s.1).1 = Return ().
Proof.
  eexists _, _. split; [by vm_compute|]. split; [by vm_compute|].
  eapply (router_finds_its_nodes toy_hash cache_get cache_put two_nodes shared_db
            busy_day _ "x" _ "Node-1").
  - by vm_compute.
  - by vm_compute.
Defined.

Lemma new_cluster_dispatches_witness :
  ∃ i m, two_nodes !! i = Some m ∧
    Router.get toy_hash cache_get "x" (new_cluster toy_hash two_nodes, shared_db) =
      match cache_get "x" (m, shared_db) with
      | Some (r, (m', d')) =>
          Some (r, (set_node ("Node-" +:+ pretty i) m' (new_cluster toy_hash two_nodes), d'))
      | None => None
      end ∧
    Router.put toy_hash cache_put "x" "1" (new_cluster toy_hash two_nodes, shared_db) =
      (let '(r, (m', d')) := cache_put "x" "1" (m, shared_db) in
       (r, (set_node ("Node-" +:+ pretty i) m' (new_cluster toy_hash two_nodes), d'))).
Proof.
  by apply (proj2 (new_cluster_dispatches toy_hash cache_get cache_put two_nodes
                     shared_db "x" "1")).
Defined.

Lemma two_nodes_quiet : Forall quiet two_nodes.
Proof.
  assert (Hq : quiet (coalescer_init,
                      new_cache 2 (lru_init (K:=string)) true None (∅ : MockDB))).
  { split; [done|]. by apply new_lru_ok. }
  by repeat constructor.
Qed.

Lemma cluster_reads_its_writes_witness :
  ∃ s, serve_all toy_hash cache_get cache_put reads_and_writes
         (new_cluster toy_hash two_nodes, shared_db) = Some s ∧
       ∀ value s', Router.put toy_hash cache_put "a" value s = (Return (), s') →
                   ∃ s'', Router.get toy_hash cache_get "a" s'
                          = Some (Return (Some value), s'').
Proof.
  apply (cluster_reads_its_writes toy_hash two_nodes shared_db reads_and_writes "a").
  - done.
  - apply two_nodes_quiet.
  - by repeat constructor.
  - done.
Defined.

End router_witnesses.
